(** * Synthetic CPI generation: grammar, parser, metrics, vector generator
      and process-instance builder of [generated_processes.py]

    The development is a shallow embedding of [generated_processes.py].

    - The Lark parse tree is the inductive type [tree]; the LALR(1) parser
      that Lark builds from [PROCESS_GRAMMAR] is a shift-reduce machine over
      a stack of frames, proved equivalent to the productions of the grammar
      ([parse_tokens_iff_grammar]).
    - Python exceptions are the type [exn]; a computation that can raise and
      that reads the random generators is a function [S -> result (A * S)].
    - The two global random generators (Python's [random] module and numpy's
      [np.random]) are one abstract state with the four primitives the code
      calls and the ranges their documentation gives ([RandomSource]).
    - float64 values are the rationals they denote; comparison is exact on
      them. The division [x / 10], which float64 rounds, is the operation
      [float_div10] of the environment, of which nothing is assumed. *)

From Stdlib Require Import String Ascii List ZArith QArith Lia Bool Arith.
From Stdlib Require Import DecimalString DecimalNat.
Import ListNotations.

Open Scope nat_scope.
Open Scope string_scope.
Open Scope list_scope.

(** ** Python exceptions *)

Inductive exn : Type :=
| UnexpectedInput   (* lark.exceptions.UnexpectedInput: UnexpectedCharacters,
                       UnexpectedToken, UnexpectedEOF *)
| ValueError
| IndexError.

Inductive result (A : Type) : Type :=
| Ok (a : A)
| Raise (e : exn).
Arguments Ok {A} a.
Arguments Raise {A} e.

(** ** The parse tree

    [PROCESS_GRAMMAR] gives, after Lark's tree shaping ([?rule] inlines a
    rule with one child unless the alternative has an alias; anonymous
    tokens are filtered out):
    - [NAME -> task]                     : [Tree('task', [Token('NAME', n)])]
    - [sequential "," region -> sequential] : [Tree('sequential', [l, r])]
    - [parallel "||" sequential -> parallel] : [Tree('parallel', [l, r])]
    - [xor "^" parallel -> xor]          : [Tree('xor', [l, r])]
    - the empty alternative of [?region] : [Tree('region', [])]. *)

Inductive tree : Type :=
| Task (name : string)
| Sequential (l r : tree)
| Parallel (l r : tree)
| Xor (l r : tree)
| Region.

(** A well-formed AST in the sense of the data model: a strict binary tree
    whose leaves are all tasks (no empty region). *)
Fixpoint well_formed (t : tree) : bool :=
  match t with
  | Task _ => true
  | Sequential l r | Parallel l r | Xor l r => well_formed l && well_formed r
  | Region => false
  end.

(** Total number of nodes of an AST, leaves plus internal nodes. *)
Fixpoint node_count (t : tree) : nat :=
  match t with
  | Task _ => 1
  | Sequential l r | Parallel l r | Xor l r => 1 + node_count l + node_count r
  | Region => 1
  end.

(** ** Lexer: the terminals of [PROCESS_GRAMMAR] *)

Inductive token : Type :=
| NAME (s : string)   (* common.CNAME *)
| CIRCUMFLEX          (* "^"  *)
| VBARVBAR            (* "||" *)
| COMMA               (* ","  *)
| LPAR                (* "("  *)
| RPAR.               (* ")"  *)

Definition in_range (lo hi : nat) (c : ascii) : bool :=
  let n := nat_of_ascii c in (lo <=? n)%nat && (n <=? hi)%nat.

(* common.LETTER: "a".."z" | "A".."Z" *)
Definition is_letter (c : ascii) : bool := in_range 97 122 c || in_range 65 90 c.
(* common.DIGIT: "0".."9" *)
Definition is_digit (c : ascii) : bool := in_range 48 57 c.
(* CNAME: ("_"|LETTER) ("_"|LETTER|DIGIT)* *)
Definition is_name_start (c : ascii) : bool := Ascii.eqb c "_" || is_letter c.
Definition is_name_char (c : ascii) : bool := is_name_start c || is_digit c.
(* WS_INLINE: (" "|/\t/)+ *)
Definition is_ws_inline (c : ascii) : bool := in_range 32 32 c || in_range 9 9 c.

(** [tokenize_from pending s]: [pending] is the CNAME being read (longest
    match). [None] as a result is Lark's [UnexpectedCharacters]. *)
Fixpoint tokenize_from (pending : option string) (s : string)
  : option (list token) :=
  match s with
  | EmptyString =>
      match pending with Some n => Some [NAME n] | None => Some [] end
  | String c rest =>
      let flush (ts : option (list token)) :=
        match pending with
        | Some n => option_map (cons (NAME n)) ts
        | None => ts
        end in
      match pending with
      | Some n =>
          if is_name_char c then tokenize_from (Some (n ++ String c "")%string) rest
          else if is_ws_inline c then flush (tokenize_from None rest)
          else if Ascii.eqb c "^" then
            flush (option_map (cons CIRCUMFLEX) (tokenize_from None rest))
          else if Ascii.eqb c "," then
            flush (option_map (cons COMMA) (tokenize_from None rest))
          else if Ascii.eqb c "(" then
            flush (option_map (cons LPAR) (tokenize_from None rest))
          else if Ascii.eqb c ")" then
            flush (option_map (cons RPAR) (tokenize_from None rest))
          else if Ascii.eqb c "|" then
            match rest with
            | String c' rest' =>
                if Ascii.eqb c' "|" then
                  flush (option_map (cons VBARVBAR) (tokenize_from None rest'))
                else None
            | EmptyString => None
            end
          else None
      | None =>
          if is_name_start c then tokenize_from (Some (String c "")) rest
          else if is_ws_inline c then tokenize_from None rest
          else if Ascii.eqb c "^" then
            option_map (cons CIRCUMFLEX) (tokenize_from None rest)
          else if Ascii.eqb c "," then
            option_map (cons COMMA) (tokenize_from None rest)
          else if Ascii.eqb c "(" then
            option_map (cons LPAR) (tokenize_from None rest)
          else if Ascii.eqb c ")" then
            option_map (cons RPAR) (tokenize_from None rest)
          else if Ascii.eqb c "|" then
            match rest with
            | String c' rest' =>
                if Ascii.eqb c' "|" then
                  option_map (cons VBARVBAR) (tokenize_from None rest')
                else None
            | EmptyString => None
            end
          else None
      end
  end.

Definition tokenize (s : string) : option (list token) := tokenize_from None s.

(** ** The grammar, production by production

    [?xor: parallel | xor "^" parallel -> xor]
    [?parallel: sequential | parallel "||" sequential -> parallel]
    [?sequential: region | sequential "," region -> sequential]
    [?region: (empty) | NAME -> task | "(" xor ")"]  *)

Inductive g_xor : list token -> tree -> Prop :=
| g_xor_parallel ts t : g_parallel ts t -> g_xor ts t
| g_xor_xor ts1 ts2 l r :
    g_xor ts1 l -> g_parallel ts2 r ->
    g_xor (ts1 ++ CIRCUMFLEX :: ts2) (Xor l r)
with g_parallel : list token -> tree -> Prop :=
| g_parallel_sequential ts t : g_sequential ts t -> g_parallel ts t
| g_parallel_parallel ts1 ts2 l r :
    g_parallel ts1 l -> g_sequential ts2 r ->
    g_parallel (ts1 ++ VBARVBAR :: ts2) (Parallel l r)
with g_sequential : list token -> tree -> Prop :=
| g_sequential_region ts t : g_region ts t -> g_sequential ts t
| g_sequential_sequential ts1 ts2 l r :
    g_sequential ts1 l -> g_region ts2 r ->
    g_sequential (ts1 ++ COMMA :: ts2) (Sequential l r)
with g_region : list token -> tree -> Prop :=
| g_region_empty : g_region [] Region
| g_region_task n : g_region [NAME n] (Task n)
| g_region_paren ts t : g_xor ts t -> g_region (LPAR :: ts ++ [RPAR]) t.

Scheme g_xor_mut := Induction for g_xor Sort Prop
  with g_parallel_mut := Induction for g_parallel Sort Prop
  with g_sequential_mut := Induction for g_sequential Sort Prop
  with g_region_mut := Induction for g_region Sort Prop.

(** A text conforms to the grammar when it lexes and its tokens derive a
    tree from the start rule [?start: xor]. *)
Definition conforms (s : string) (t : tree) : Prop :=
  exists ts, tokenize s = Some ts /\ g_xor ts t.

(** ** The LALR(1) parser as a shift-reduce machine

    One frame per open parenthesis. In a frame, [fx] is the xor to the left
    of the last ["^"], [fp] the parallel to the left of the last ["||"]
    after it, [fs] the sequential to the left of the last [","] after that,
    and [fr] the region read since the last operator, if any. *)

Record frame : Type := Frame
  { fx : option tree; fp : option tree; fs : option tree; fr : option tree }.

Definition empty_frame : frame := Frame None None None None.

(* reduce [region -> (empty)] when nothing was read *)
Definition close_region (r : option tree) : tree :=
  match r with Some t => t | None => Region end.

Definition close_sequential (s r : option tree) : tree :=
  match s with
  | Some l => Sequential l (close_region r)
  | None => close_region r
  end.

Definition close_parallel (p s r : option tree) : tree :=
  match p with
  | Some l => Parallel l (close_sequential s r)
  | None => close_sequential s r
  end.

Definition close_xor (f : frame) : tree :=
  match fx f with
  | Some l => Xor l (close_parallel (fp f) (fs f) (fr f))
  | None => close_parallel (fp f) (fs f) (fr f)
  end.

Definition pstate : Type := (frame * list frame)%type.

(** One token; [None] is Lark's [UnexpectedToken]. *)
Definition step (st : pstate) (tok : token) : option pstate :=
  let '(f, stack) := st in
  match tok with
  | NAME n =>
      match fr f with
      | None => Some (Frame (fx f) (fp f) (fs f) (Some (Task n)), stack)
      | Some _ => None
      end
  | LPAR =>
      match fr f with
      | None => Some (empty_frame, f :: stack)
      | Some _ => None
      end
  | COMMA =>
      Some (Frame (fx f) (fp f) (Some (close_sequential (fs f) (fr f))) None,
            stack)
  | VBARVBAR =>
      Some (Frame (fx f) (Some (close_parallel (fp f) (fs f) (fr f))) None None,
            stack)
  | CIRCUMFLEX => Some (Frame (Some (close_xor f)) None None None, stack)
  | RPAR =>
      match stack with
      | parent :: stack' =>
          Some (Frame (fx parent) (fp parent) (fs parent) (Some (close_xor f)),
                stack')
      | [] => None
      end
  end.

Fixpoint run (st : pstate) (ts : list token) : option pstate :=
  match ts with
  | [] => Some st
  | tok :: ts' =>
      match step st tok with
      | Some st' => run st' ts'
      | None => None
      end
  end.

(** End of input: every parenthesis must be closed. *)
Definition parse_tokens (ts : list token) : option tree :=
  match run (empty_frame, []) ts with
  | Some (f, []) => Some (close_xor f)
  | _ => None
  end.

(** [PARSER.parse(text)] *)
Definition parse (text : string) : result tree :=
  match tokenize text with
  | Some ts =>
      match parse_tokens ts with
      | Some t => Ok t
      | None => Raise UnexpectedInput
      end
  | None => Raise UnexpectedInput
  end.

(** ** Structural metrics *)

Fixpoint _max_nested_xor (node : tree) : nat :=
  match node with
  | Task _ => 0
  | Xor l r => Nat.max (_max_nested_xor l) (_max_nested_xor r) + 1
  | Sequential l r | Parallel l r =>
      Nat.max (_max_nested_xor l) (_max_nested_xor r)
  | Region => 0
  end.

Definition max_nested_xor (expression : string) : result nat :=
  match parse expression with
  | Ok t => Ok (_max_nested_xor t)
  | Raise e => Raise e
  end.

Fixpoint _max_independent_xor (node : tree) : nat :=
  match node with
  | Task _ => 0
  | Xor l r =>
      let max_child :=
        Nat.max (_max_independent_xor l) (_max_independent_xor r) in
      Nat.max 1 max_child
  | Sequential l r | Parallel l r =>
      _max_independent_xor l + _max_independent_xor r
  | Region => 0
  end.

Definition max_independent_xor (expression : string) : result nat :=
  match parse expression with
  | Ok t => Ok (_max_independent_xor t)
  | Raise e => Raise e
  end.


(** * Computations that raise and carry a state *)

Definition M (S A : Type) : Type := S -> result (A * S).

Definition ret {S A} (a : A) : M S A := fun s => Ok (a, s).

Definition bind {S A B} (c : M S A) (k : A -> M S B) : M S B :=
  fun s => match c s with
           | Ok (a, s') => k a s'
           | Raise e => Raise e
           end.

Definition lift {S A} (r : result A) : M S A :=
  fun s => match r with Ok a => Ok (a, s) | Raise e => Raise e end.

Notation "x <- c ;; k" := (bind c (fun x => k))
  (at level 61, c at next level, right associativity).

(** [[c for _ in range(n)]] *)
Fixpoint repeatM {S A} (n : nat) (c : M S A) : M S (list A) :=
  match n with
  | O => ret []
  | S n' => x <- c ;; xs <- repeatM n' c ;; ret (x :: xs)
  end.

(** [for i in indexes: v = body(i, v)] *)
Fixpoint for_each {S A B} (body : A -> B -> M S B) (indexes : list A) (v : B)
  : M S B :=
  match indexes with
  | [] => ret v
  | i :: rest => v' <- body i v ;; for_each body rest v'
  end.

(** * The random generators *)

Definition float : Type := Q.

(** [rng] is the joint state of Python's [random] module and of numpy's
    global generator. The laws are the ranges the two libraries document:
    [random.random()] and [np.random.random(n)] draw from [0.0, 1.0),
    [random.randint(a, b)] from [a, b], [random.choice(seq)] from [seq].
    [float_div10 x] is the float64 that [x / 10] evaluates to: the quotient
    as IEEE 754 rounds it, not the exact one. No law is asked of it. *)
Class RandomSource : Type := {
  rng : Type;
  float_div10 : float -> float;
  random_random : rng -> float * rng;
  random_randint : Z -> Z -> rng -> Z * rng;
  random_choice : list nat -> rng -> nat * rng;
  np_random_random : nat -> rng -> list float * rng;
  random_random_range :
    forall g, (0 <= fst (random_random g))%Q /\ (fst (random_random g) < 1)%Q;
  random_randint_range :
    forall a b g, (a <= b)%Z ->
                  (a <= fst (random_randint a b g) <= b)%Z;
  random_choice_In :
    forall seq g, seq <> [] -> In (fst (random_choice seq g)) seq;
  np_random_random_length :
    forall n g, length (fst (np_random_random n g)) = n
}.

Section Generator.

Context {RS : RandomSource}.

(** [np.random.random(dim)]: numpy refuses a negative size. A size that
    numpy cannot allocate is not modelled. *)
Definition np_random (dim : Z) : M rng (list float) :=
  fun g => if (dim <? 0)%Z then Raise ValueError
           else Ok (np_random_random (Z.to_nat dim) g).

(** [random.randint(a, b)]: an empty range raises [ValueError]. *)
Definition randint (a b : Z) : M rng Z :=
  fun g => if (a <=? b)%Z then Ok (random_randint a b g) else Raise ValueError.

(** [random.choice(seq)]: an empty sequence raises [IndexError]. *)
Definition choice (seq : list nat) : M rng nat :=
  fun g => match seq with
           | [] => Raise IndexError
           | _ => Ok (random_choice seq g)
           end.

(** [random.random()] *)
Definition random : M rng float := fun g => Ok (random_random g).

(** Index of a numpy array of length [n] by a Python integer: a negative
    index counts from the end, anything else out of bounds raises. *)
Definition np_index (n : nat) (i : Z) : result nat :=
  if ((0 <=? i) && (i <? Z.of_nat n))%Z then Ok (Z.to_nat i)
  else if ((- Z.of_nat n <=? i) && (i <? 0))%Z then Ok (Z.to_nat (i + Z.of_nat n))
  else Raise IndexError.

Fixpoint set_nth (k : nat) (x : float) (v : list float) : list float :=
  match v, k with
  | [], _ => []
  | _ :: v', O => x :: v'
  | y :: v', S k' => y :: set_nth k' x v'
  end.

(** [v[i]] *)
Definition getitem (v : list float) (i : Z) : result float :=
  match np_index (length v) i with
  | Ok k => Ok (nth k v 0%Q)
  | Raise e => Raise e
  end.

(** [v[i] = x] *)
Definition setitem (v : list float) (i : Z) (x : float) : result (list float) :=
  match np_index (length v) i with
  | Ok k => Ok (set_nth k x v)
  | Raise e => Raise e
  end.

Definition np_zeros (dim : Z) : list float := repeat 0%Q (Z.to_nat dim).

(** [np.nonzero(v)[0]], the positions of [v] that hold a non-zero value,
    counted from [k]. *)
Fixpoint nonzero_from (k : nat) (v : list float) : list nat :=
  match v with
  | [] => []
  | x :: v' =>
      if Qeq_bool x 0 then nonzero_from (S k) v' else k :: nonzero_from (S k) v'
  end.

Definition np_nonzero (v : list float) : list nat := nonzero_from 0 v.

(** One turn of the loop of [generate_vectors]: the vector appended. *)
Definition generate_vector (dim : Z) (mode : string) : M rng (list float) :=
  vector <- np_random dim ;;
  if negb (mode =? "random") then
    indexes <- repeatM (Z.to_nat dim) (randint 0 (dim - 1)) ;;
    if mode =? "bagging_divide" then
      for_each (fun i v => x <- lift (getitem v i) ;; lift (setitem v i (float_div10 x)))
               indexes vector
    else if mode =? "bagging_remove" then
      for_each (fun i nv => x <- lift (getitem vector i) ;; lift (setitem nv i x))
               indexes (np_zeros dim)
    else if mode =? "bagging_remove_divide" then
      for_each (fun i nv => x <- lift (getitem vector i) ;;
                            lift (setitem nv i (float_div10 x)))
               indexes (np_zeros dim)
    else if mode =? "bagging_remove_reverse" then
      for_each (fun i nv => lift (setitem nv i 0%Q)) indexes vector
    else if mode =? "bagging_remove_reverse_divide" then
      new_vector <- for_each (fun i nv => lift (setitem nv i 0%Q)) indexes vector ;;
      let non_zero_indexes := np_nonzero new_vector in
      if (0 <? length non_zero_indexes)%nat then
        divide_indexes <- repeatM (Z.to_nat dim) (choice non_zero_indexes) ;;
        for_each (fun i nv => x <- lift (getitem nv (Z.of_nat i)) ;;
                              lift (setitem nv (Z.of_nat i) (float_div10 x)))
                 divide_indexes new_vector
      else ret new_vector
    else ret vector
  else ret vector.

(** [for _ in range(n): ...; vectors.append(vector)] *)
Fixpoint generate_loop (n : nat) (dim : Z) (mode : string)
         (vectors : list (list float)) : M rng (list (list float)) :=
  match n with
  | O => ret vectors
  | S n' =>
      vector <- generate_vector dim mode ;;
      generate_loop n' dim mode (vectors ++ [vector])
  end.

Definition generate_vectors (num_vec dim : Z) (mode : string)
  : M rng (list (list float)) :=
  generate_loop (Z.to_nat num_vec) dim mode [].

End Generator.

(** * The process-instance builder *)

(** ** The CPI dictionary

    One constructor per shape of dictionary that [process_node] returns.
    An xor node is one dictionary whose ["type"] is ["choice"] or
    ["nature"] and whose ["probability"] key is set afterwards, when it is;
    [PyNone] is what [process_node] returns when no branch applies. *)

Inductive xor_type : Type := choice_type | nature_type.

Inductive cpi : Type :=
| TaskDict (id : nat) (duration : Z) (impacts : list (string * float))
| SequenceDict (id : nat) (head tail : cpi)
| ParallelDict (id : nat) (first_split second_split : cpi)
| XorDict (type : xor_type) (id : nat) (true_branch false_branch : cpi)
          (probability : option float)
| PyNone.

(** The value of the ["type"] key. *)
Definition type_of (c : cpi) : option string :=
  match c with
  | TaskDict _ _ _ => Some "task"
  | SequenceDict _ _ _ => Some "sequence"
  | ParallelDict _ _ _ => Some "parallel"
  | XorDict choice_type _ _ _ _ => Some "choice"
  | XorDict nature_type _ _ _ _ => Some "nature"
  | PyNone => None
  end.

(** The value of the ["probability"] key, when the dictionary has it. *)
Definition probability_of (c : cpi) : option float :=
  match c with
  | XorDict _ _ _ _ p => p
  | _ => None
  end.

(** The dictionaries of a process instance, each node before its subtrees
    and the left subtree before the right one. *)
Fixpoint nodes (c : cpi) : list cpi :=
  match c with
  | TaskDict _ _ _ => [c]
  | SequenceDict _ a b | ParallelDict _ a b | XorDict _ _ a b _ =>
      c :: nodes a ++ nodes b
  | PyNone => []
  end.

Fixpoint ids (c : cpi) : list nat :=
  match c with
  | TaskDict i _ _ => [i]
  | SequenceDict i a b | ParallelDict i a b | XorDict _ i a b _ =>
      i :: ids a ++ ids b
  | PyNone => []
  end.

(** The ["impacts"] of the task nodes, in pre-order. *)
Fixpoint task_impacts (c : cpi) : list (list (string * float)) :=
  match c with
  | TaskDict _ _ m => [m]
  | SequenceDict _ a b | ParallelDict _ a b | XorDict _ _ a b _ =>
      task_impacts a ++ task_impacts b
  | PyNone => []
  end.

(** The process instance has the shape of the AST, orientation kept. *)
Fixpoint mirrors (t : tree) (c : cpi) : Prop :=
  match t, c with
  | Task _, TaskDict _ _ _ => True
  | Sequential l r, SequenceDict _ a b => mirrors l a /\ mirrors r b
  | Parallel l r, ParallelDict _ a b => mirrors l a /\ mirrors r b
  | Xor l r, XorDict _ _ a b _ => mirrors l a /\ mirrors r b
  | Region, PyNone => True
  | _, _ => False
  end.

(** ** [translate_to_cpi] *)

Definition decimal (n : nat) : string := NilEmpty.string_of_uint (Nat.to_uint n).

(** [{f"impact_{i+1}": float(val) for i, val in enumerate(impact_vector)}],
    the keys in insertion order, from position [i] on. *)
Fixpoint impacts_from (i : nat) (impact_vector : list float)
  : list (string * float) :=
  match impact_vector with
  | [] => []
  | val :: rest =>
      (("impact_" ++ decimal (i + 1))%string, val) :: impacts_from (S i) rest
  end.

Definition impacts_dict (impact_vector : list float) : list (string * float) :=
  impacts_from 0 impact_vector.

Fixpoint count_tasks (node : tree) : nat :=
  match node with
  | Task _ => 1
  | Sequential l r | Parallel l r | Xor l r => count_tasks l + count_tasks r
  | Region => 0
  end.

Section Builder.

Context {RS : RandomSource}.

(** The two [nonlocal] counters of [process_node], and the generators. *)
Record bstate : Type := BState
  { id_counter : nat; task_counter : nat; gen : rng }.

(** [current_id = id_counter; id_counter += 1] *)
Definition next_id : M bstate nat :=
  fun s => Ok (id_counter s,
               BState (id_counter s + 1) (task_counter s) (gen s)).

(** [impact_vector = impact_vectors[task_counter]; task_counter += 1] *)
Definition next_vector (impact_vectors : list (list float))
  : M bstate (list float) :=
  fun s => match nth_error impact_vectors (task_counter s) with
           | Some v => Ok (v, BState (id_counter s) (task_counter s + 1) (gen s))
           | None => Raise IndexError
           end.

(** A draw inside the traversal. *)
Definition draw {A} (c : M rng A) : M bstate A :=
  fun s => match c (gen s) with
           | Ok (a, g) => Ok (a, BState (id_counter s) (task_counter s) g)
           | Raise e => Raise e
           end.

Definition Qltb (x y : Q) : bool := negb (Qle_bool y x).

Fixpoint process_node (impact_vectors : list (list float))
         (choice_distribution : float) (duration_interval : Z * Z)
         (node : tree) : M bstate cpi :=
  match node with
  | Task _ =>
      current_id <- next_id ;;
      impact_vector <- next_vector impact_vectors ;;
      let impacts := impacts_dict impact_vector in
      duration <- draw (randint (fst duration_interval) (snd duration_interval)) ;;
      ret (TaskDict current_id duration impacts)
  | Sequential l r =>
      current_id <- next_id ;;
      head <- process_node impact_vectors choice_distribution duration_interval l ;;
      tail <- process_node impact_vectors choice_distribution duration_interval r ;;
      ret (SequenceDict current_id head tail)
  | Parallel l r =>
      current_id <- next_id ;;
      first_split <-
        process_node impact_vectors choice_distribution duration_interval l ;;
      second_split <-
        process_node impact_vectors choice_distribution duration_interval r ;;
      ret (ParallelDict current_id first_split second_split)
  | Xor l r =>
      u <- draw random ;;
      let is_choice := Qltb u choice_distribution in
      let node_type := if is_choice then choice_type else nature_type in
      current_id <- next_id ;;
      true_branch <-
        process_node impact_vectors choice_distribution duration_interval l ;;
      false_branch <-
        process_node impact_vectors choice_distribution duration_interval r ;;
      if negb is_choice then
        p <- draw random ;;
        ret (XorDict node_type current_id true_branch false_branch (Some p))
      else
        ret (XorDict node_type current_id true_branch false_branch None)
  | Region => ret PyNone
  end.

(** The body of [translate_to_cpi] once the text is parsed: the [build]
    of an AST. *)
Definition build (ast : tree) (choice_distribution : float)
           (duration_interval : Z * Z) (num_impacts : Z)
           (vector_generation_mode : string) : M rng cpi :=
  fun g =>
    let total_tasks := count_tasks ast in
    match generate_vectors (Z.of_nat total_tasks) num_impacts
                           vector_generation_mode g with
    | Raise e => Raise e
    | Ok (impact_vectors, g1) =>
        match process_node impact_vectors choice_distribution
                           duration_interval ast (BState 0 0 g1) with
        | Raise e => Raise e
        | Ok (c, s) => Ok (c, gen s)
        end
    end.

Definition translate_to_cpi (process_str : string)
           (choice_distribution : float) (duration_interval : Z * Z)
           (num_impacts : Z) (vector_generation_mode : string) : M rng cpi :=
  fun g =>
    match parse process_str with
    | Raise e => Raise e
    | Ok ast =>
        build ast choice_distribution duration_interval num_impacts
              vector_generation_mode g
    end.

End Builder.

(** * Vocabulary of the statements *)

(** ** A random source to run the code on concrete inputs *)

(** A source that reads its draws off a counter, to run the code on
    concrete inputs. *)
Definition tape_unit (g : nat) : float := Z.of_nat (g mod 10) # 10.

Definition tape_random (g : nat) : float * nat := (tape_unit g, S g).
Definition tape_randint (a b : Z) (g : nat) : Z * nat :=
  ((a + Z.of_nat g mod (b - a + 1))%Z, S g).
Definition tape_choice (seq : list nat) (g : nat) : nat * nat :=
  (nth (g mod length seq) seq O, S g).
Definition tape_np_random (n g : nat) : list float * nat :=
  (map tape_unit (List.seq g n), (g + n)%nat).

Instance tape_source : RandomSource.
Proof.
  refine {| rng := nat;
            float_div10 := fun x => (x / 10)%Q;
            random_random := tape_random;
            random_randint := tape_randint;
            random_choice := tape_choice;
            np_random_random := tape_np_random |}.
  - intros g. unfold tape_random, tape_unit, Qle, Qlt; cbn [fst Qnum Qden].
    pose proof (Nat.mod_upper_bound g 10). lia.
  - intros a b g H; simpl.
    pose proof (Z.mod_pos_bound (Z.of_nat g) (b - a + 1)). lia.
  - intros seq g H; simpl. apply nth_In.
    apply Nat.mod_upper_bound. destruct seq; [congruence | discriminate].
  - intros n g; simpl. now rewrite length_map, length_seq.
Defined.

(** A source that always draws the first value it may draw, and one half
    for every component of a vector: its picks leave positions out. *)
Definition first_source : RandomSource.
Proof.
  refine {| rng := unit;
            float_div10 := fun x => (x / 10)%Q;
            random_random := fun g => (0%Q, g);
            random_randint := fun a _ g => (a, g);
            random_choice := fun seq g => (nth 0 seq O, g);
            np_random_random := fun n g => (repeat (1 # 2)%Q n, g) |}.
  - intros g. split; [apply Qle_refl | reflexivity].
  - intros a b g H; simpl. lia.
  - intros seq g H; simpl. destruct seq; [congruence | now left].
  - intros n g; simpl. apply repeat_length.
Defined.

(** ** Computations that return *)

(** [returns c s Q]: from state [s], [c] does not raise and its value and
    final state satisfy [Q]. *)
Definition returns {S A} (c : M S A) (s : S) (Q : A -> S -> Prop) : Prop :=
  exists a s', c s = Ok (a, s') /\ Q a s'.

Definition valid_index (n : nat) (i : Z) : Prop := (0 <= i < Z.of_nat n)%Z.

Definition all_of_dim (dim : Z) (vs : list (list float)) : Prop :=
  Forall (fun v => length v = Z.to_nat dim) vs.

(** ** What the parser machine has read *)

Definition follows_region (ts : list token) (t : tree) : Prop :=
  forall x p s stack, exists r,
    run (Frame x p s None, stack) ts = Some (Frame x p s r, stack)
    /\ close_region r = t.

Definition follows_sequential (ts : list token) (t : tree) : Prop :=
  forall x p stack, exists s r,
    run (Frame x p None None, stack) ts = Some (Frame x p s r, stack)
    /\ close_sequential s r = t.

Definition follows_parallel (ts : list token) (t : tree) : Prop :=
  forall x stack, exists p s r,
    run (Frame x None None None, stack) ts = Some (Frame x p s r, stack)
    /\ close_parallel p s r = t.

Definition follows_xor (ts : list token) (t : tree) : Prop :=
  forall stack, exists f,
    run (empty_frame, stack) ts = Some (f, stack) /\ close_xor f = t.

Definition left_operand (G : list token -> tree -> Prop) (sep : token)
           (o : option tree) (ts : list token) : Prop :=
  match o with
  | None => ts = []
  | Some l => exists ts', ts = ts' ++ [sep] /\ G ts' l
  end.

Definition read_region (o : option tree) (ts : list token) : Prop :=
  match o with
  | None => ts = []
  | Some r => g_region ts r
  end.

Definition frame_inv (f : frame) (ts : list token) : Prop :=
  exists tx tp tq tr,
    ts = tx ++ tp ++ tq ++ tr
    /\ left_operand g_xor CIRCUMFLEX (fx f) tx
    /\ left_operand g_parallel VBARVBAR (fp f) tp
    /\ left_operand g_sequential COMMA (fs f) tq
    /\ read_region (fr f) tr.

Fixpoint stack_inv (stack : list frame) (f : frame) (ts : list token) : Prop :=
  match stack with
  | [] => frame_inv f ts
  | parent :: stack' =>
      exists tsp tsf,
        ts = tsp ++ LPAR :: tsf
        /\ frame_inv f tsf
        /\ fr parent = None
        /\ stack_inv stack' parent tsp
  end.

(** ** What the traversal makes *)

(** Number of dictionaries the traversal makes for an AST: one for each
    node but an empty region. *)
Fixpoint dict_count (t : tree) : nat :=
  match t with
  | Task _ => 1
  | Sequential l r | Parallel l r | Xor l r => 1 + dict_count l + dict_count r
  | Region => 0
  end.

Definition unit_interval (x : float) : Prop := (0 <= x)%Q /\ (x < 1)%Q.

(** How an xor dictionary was drawn: its type from one draw [u] compared
    with the choice distribution, its probability from a second draw, made
    for a nature node only. *)
Definition xor_drawn (choice_distribution : float) (d : cpi) : Prop :=
  match d with
  | XorDict ty _ _ _ p =>
      exists u, unit_interval u
        /\ ty = (if negb (Qle_bool choice_distribution u)
                 then choice_type else nature_type)
        /\ match ty with
           | choice_type => p = None
           | nature_type => exists q, p = Some q /\ unit_interval q
           end
  | _ => True
  end.

(** What one traversal of [node] from state [s] leaves: the instance [c]
    and the state [s']. *)
Definition traversed {RS : RandomSource}
           (impact_vectors : list (list float)) (choice_distribution : float)
           (node : tree) (s : bstate) (c : cpi) (s' : bstate) : Prop :=
  mirrors node c
  /\ id_counter s' = id_counter s + dict_count node
  /\ task_counter s' = task_counter s + count_tasks node
  /\ ids c = seq (id_counter s) (dict_count node)
  /\ task_impacts c =
     map impacts_dict
         (firstn (count_tasks node) (skipn (task_counter s) impact_vectors))
  /\ Forall (xor_drawn choice_distribution) (nodes c).

(** Number of dictionaries of a process instance whose ["type"] is [ty]. *)
Definition has_type (ty : string) (d : cpi) : bool :=
  match type_of d with
  | Some t => t =? ty
  | None => false
  end.

Definition count_type (ty : string) (c : cpi) : nat :=
  length (filter (has_type ty) (nodes c)).

(** Every node's id is below the ids of its subtrees, and the ids of its
    left subtree are below those of its right subtree. *)
Fixpoint id_ordered (c : cpi) : Prop :=
  match c with
  | SequenceDict i a b | ParallelDict i a b | XorDict _ i a b _ =>
      (forall j, In j (ids a ++ ids b) -> i < j)
      /\ (forall j k, In j (ids a) -> In k (ids b) -> j < k)
      /\ id_ordered a /\ id_ordered b
  | TaskDict _ _ _ | PyNone => True
  end.

(** The task leaves of an AST, in pre-order. *)
Fixpoint task_leaves (t : tree) : list string :=
  match t with
  | Task n => [n]
  | Sequential l r | Parallel l r | Xor l r => task_leaves l ++ task_leaves r
  | Region => []
  end.

(** * Vocabulary of the further properties *)

(** ** Tokens and trees *)

(** The names of a token sequence, in text order. *)
Definition token_names (ts : list token) : list string :=
  flat_map (fun tok => match tok with NAME n => [n] | _ => [] end) ts.

Definition is_operator (tok : token) : bool :=
  match tok with
  | CIRCUMFLEX | VBARVBAR | COMMA => true
  | _ => false
  end.

Definition is_lpar (tok : token) : bool :=
  match tok with LPAR => true | _ => false end.

Definition is_rpar (tok : token) : bool :=
  match tok with RPAR => true | _ => false end.

Definition count_tokens (p : token -> bool) (ts : list token) : nat :=
  length (filter p ts).

(** Number of [sequential], [parallel] and [xor] nodes. *)
Fixpoint binary_count (t : tree) : nat :=
  match t with
  | Sequential l r | Parallel l r | Xor l r =>
      1 + binary_count l + binary_count r
  | Task _ | Region => 0
  end.

(** Number of empty regions. *)
Fixpoint region_count (t : tree) : nat :=
  match t with
  | Sequential l r | Parallel l r | Xor l r => region_count l + region_count r
  | Task _ => 0
  | Region => 1
  end.

(** Number of [xor] nodes. *)
Fixpoint xor_count (t : tree) : nat :=
  match t with
  | Xor l r => 1 + xor_count l + xor_count r
  | Sequential l r | Parallel l r => xor_count l + xor_count r
  | Task _ | Region => 0
  end.

(** [n] matches CNAME. *)
Definition is_cname (n : string) : bool :=
  match n with
  | EmptyString => false
  | String c rest =>
      is_name_start c && forallb is_name_char (list_ascii_of_string rest)
  end.

(** A character that starts or continues some terminal of the grammar, or
    is ignored. *)
Definition in_alphabet (c : ascii) : bool :=
  is_name_char c || is_ws_inline c
  || Ascii.eqb c "^" || Ascii.eqb c "," || Ascii.eqb c "("
  || Ascii.eqb c ")" || Ascii.eqb c "|".

(** ** What the lexer reads

    [lexed pending s ts]: one rule for each way [tokenize_from] goes
    through a character. *)

Definition single_punct (c : ascii) : option token :=
  if Ascii.eqb c "^" then Some CIRCUMFLEX
  else if Ascii.eqb c "," then Some COMMA
  else if Ascii.eqb c "(" then Some LPAR
  else if Ascii.eqb c ")" then Some RPAR
  else None.

Inductive lexed : option string -> string -> list token -> Prop :=
| lexed_end : lexed None "" []
| lexed_end_name n : lexed (Some n) "" [NAME n]
| lexed_start c rest ts :
    is_name_start c = true ->
    lexed (Some (String c "")) rest ts ->
    lexed None (String c rest) ts
| lexed_extend n c rest ts :
    is_name_char c = true ->
    lexed (Some (n ++ String c "")%string) rest ts ->
    lexed (Some n) (String c rest) ts
| lexed_flush n c rest ts :
    is_name_char c = false ->
    lexed None (String c rest) ts ->
    lexed (Some n) (String c rest) (NAME n :: ts)
| lexed_ws c rest ts :
    is_ws_inline c = true ->
    lexed None rest ts ->
    lexed None (String c rest) ts
| lexed_punct c tok rest ts :
    single_punct c = Some tok ->
    lexed None rest ts ->
    lexed None (String c rest) (tok :: ts)
| lexed_vbarvbar rest ts :
    lexed None rest ts ->
    lexed None (String "|" (String "|" rest)) (VBARVBAR :: ts).

Definition token_ok (tok : token) : bool :=
  match tok with NAME n => is_cname n | _ => true end.

Definition pending_ok (pending : option string) : bool :=
  match pending with Some n => is_cname n | None => true end.

(** What a derivation keeps of its tokens. *)
Definition kept (ts : list token) (t : tree) : Prop :=
  task_leaves t = token_names ts
  /\ binary_count t = count_tokens is_operator ts
  /\ count_tasks t + region_count t = binary_count t + 1.

(** ** The picks of the vector generator *)

(** Position [k] is among the picked indexes. *)
Definition picked (indexes : list Z) (k : nat) : bool :=
  existsb (Z.eqb (Z.of_nat k)) indexes.

(** How many times position [k] was picked. *)
Definition times_picked (indexes : list Z) (k : nat) : nat :=
  count_occ Z.eq_dec indexes (Z.of_nat k).

(** [x] divided by 10, [n] times over, each quotient rounded. *)
Definition divided {RS : RandomSource} (n : nat) (x : float) : float :=
  Nat.iter n float_div10 x.

Definition modes_of_generate_vectors : list string :=
  ["random"; "bagging_divide"; "bagging_remove"; "bagging_remove_divide";
   "bagging_remove_reverse"; "bagging_remove_reverse_divide"].

(** The draws every mode but ["random"] starts with. *)
Definition base_and_picks {RS : RandomSource} (dim : Z) (g : rng)
           (base : list float) (g1 : rng) (indexes : list Z) (g2 : rng)
  : Prop :=
  np_random dim g = Ok (base, g1)
  /\ length base = Z.to_nat dim
  /\ repeatM (Z.to_nat dim) (randint 0 (dim - 1)) g1 = Ok (indexes, g2)
  /\ Forall (valid_index (Z.to_nat dim)) indexes.

(** ** More of what a process instance holds *)

(** The ["duration"] of the task nodes, in pre-order. *)
Fixpoint task_durations (c : cpi) : list Z :=
  match c with
  | TaskDict _ d _ => [d]
  | SequenceDict _ a b | ParallelDict _ a b | XorDict _ _ a b _ =>
      task_durations a ++ task_durations b
  | PyNone => []
  end.

(** Number of [None] children. *)
Fixpoint none_count (c : cpi) : nat :=
  match c with
  | TaskDict _ _ _ => 0
  | SequenceDict _ a b | ParallelDict _ a b | XorDict _ _ a b _ =>
      none_count a + none_count b
  | PyNone => 1
  end.

(** ["impact_1"], ..., ["impact_n"]. *)
Definition impact_keys (n : nat) : list string :=
  map (fun i => ("impact_" ++ decimal i)%string) (seq 1 n).

(** What every returned traversal has made, whatever the parameters. *)
Definition made {RS : RandomSource}
           (vectors : list (list float)) (di : Z * Z) (node : tree)
           (s : bstate) (c : cpi) (s' : bstate) : Prop :=
  mirrors node c
  /\ task_counter s' = task_counter s + count_tasks node
  /\ Forall (fun d => (fst di <= d <= snd di)%Z) (task_durations c)
  /\ Forall (fun m => exists v, In v vectors /\ m = impacts_dict v)
            (task_impacts c).

(** What makes [build] raise: a task to annotate, and a negative
    dimension or an empty duration interval. *)
Definition unusable_parameters (ast : tree) (duration_interval : Z * Z)
           (num_impacts : Z) : Prop :=
  0 < count_tasks ast
  /\ ((num_impacts < 0)%Z
      \/ (snd duration_interval < fst duration_interval)%Z).



(** * [process_to_dot]

    The text Python makes of a float is not modelled: it is the parameter
    [float_repr]. A Rocq string has no escape but for the quote, so
    ["\n"] below is the two characters that Python writes ['\\n']. *)

Inductive dot_exn : Type :=
| TypeError   (* 'NoneType' object is not subscriptable *)
| KeyError.   (* a nature dictionary without 'probability' *)

Definition dquote : string := String (Ascii.ascii_of_nat 34) "".
Definition newline : string := String (Ascii.ascii_of_nat 10) "".

(** [sep.join(l)] *)
Fixpoint join (sep : string) (l : list string) : string :=
  match l with
  | [] => ""
  | [x] => x
  | x :: rest => (x ++ sep ++ join sep rest)%string
  end.

(** [str(z)] of an integer. *)
Definition str_int (z : Z) : string :=
  if (z <? 0)%Z then ("-" ++ decimal (Z.to_nat (- z)))%string
  else decimal (Z.to_nat z).

(** [f"{region['type']}{region['id']}"] *)
Definition node_id_of (region : cpi) : dot_exn + string :=
  match region with
  | TaskDict i _ _ => inr ("task" ++ decimal i)%string
  | SequenceDict i _ _ => inr ("sequence" ++ decimal i)%string
  | ParallelDict i _ _ => inr ("parallel" ++ decimal i)%string
  | XorDict choice_type i _ _ _ => inr ("choice" ++ decimal i)%string
  | XorDict nature_type i _ _ _ => inr ("nature" ++ decimal i)%string
  | PyNone => inl TypeError
  end.

(** [f'    {node_id} [label="{label}"];'] *)
Definition node_line (node_id label : string) : string :=
  ("    " ++ node_id ++ " [label=" ++ dquote ++ label ++ dquote ++ "];")%string.

(** [f'    {node_id} -> {child_id} [label="{label}"];'] *)
Definition edge_line (node_id child_id label : string) : string :=
  ("    " ++ node_id ++ " -> " ++ child_id
          ++ " [label=" ++ dquote ++ label ++ dquote ++ "];")%string.

Section Dot.

Variable float_repr : float -> string.

(** The two edges of a node with children, then the children. *)
Definition connect (add_node : cpi -> list string -> dot_exn + list string)
           (node_id : string) (first second : cpi)
           (first_label second_label : string) (dot_lines : list string)
  : dot_exn + list string :=
  match node_id_of first with
  | inl e => inl e
  | inr first_id =>
      match node_id_of second with
      | inl e => inl e
      | inr second_id =>
          let dot_lines :=
            dot_lines ++ [edge_line node_id first_id first_label;
                          edge_line node_id second_id second_label] in
          match add_node first dot_lines with
          | inl e => inl e
          | inr dot_lines => add_node second dot_lines
          end
      end
  end.

Fixpoint add_node (region : cpi) (dot_lines : list string)
  : dot_exn + list string :=
  match region with
  | PyNone => inl TypeError
  | TaskDict i duration impacts =>
      let node_id := ("task" ++ decimal i)%string in
      let impacts_str :=
        join "\n" (map (fun kv => (fst kv ++ ": " ++ float_repr (snd kv))%string)
                       impacts) in
      let duration_str := ("duration: " ++ str_int duration)%string in
      let label :=
        (node_id ++ "\n" ++ duration_str ++ "\n" ++ impacts_str)%string in
      inr (dot_lines ++ [node_line node_id label])
  | SequenceDict i head tail =>
      let node_id := ("sequence" ++ decimal i)%string in
      connect add_node node_id head tail "head" "tail"
              (dot_lines ++ [node_line node_id node_id])
  | ParallelDict i first_split second_split =>
      let node_id := ("parallel" ++ decimal i)%string in
      connect add_node node_id first_split second_split "first" "second"
              (dot_lines ++ [node_line node_id node_id])
  | XorDict choice_type i true_branch false_branch _ =>
      let node_id := ("choice" ++ decimal i)%string in
      connect add_node node_id true_branch false_branch "true" "false"
              (dot_lines ++ [node_line node_id node_id])
  | XorDict nature_type i true_branch false_branch probability =>
      let node_id := ("nature" ++ decimal i)%string in
      match probability with
      | None => inl KeyError
      | Some p =>
          let label := (node_id ++ "\np=" ++ float_repr p)%string in
          connect add_node node_id true_branch false_branch "true" "false"
                  (dot_lines ++ [node_line node_id label])
      end
  end.

(** The lines before they are joined. *)
Definition dot_lines_of (region_dict : cpi) : dot_exn + list string :=
  match add_node region_dict ["digraph G {"; "    node [shape=box];"] with
  | inl e => inl e
  | inr dot_lines => inr (dot_lines ++ ["}"])
  end.

Definition process_to_dot (region_dict : cpi) : dot_exn + string :=
  match dot_lines_of region_dict with
  | inl e => inl e
  | inr dot_lines => inr (join newline dot_lines)
  end.

End Dot.

(** Every nature dictionary has its probability. *)
Definition natures_have_probability (c : cpi) : Prop :=
  Forall (fun d => type_of d = Some "nature" -> probability_of d <> None)
         (nodes c).



(** * [get_process_from_file]

    A character is a code point below 256. The files are a parameter:
    [files name] is the list of the lines that the iteration over the open
    file yields, or [None] when [open] raises [FileNotFoundError]. *)

Inductive file_exn : Type :=
| FileNotFoundError
| LineValueError.   (* the ValueError "Line z not found in the file" *)

(** [c.isspace()] *)
Definition py_isspace (c : ascii) : bool :=
  in_range 9 13 c || in_range 28 32 c || in_range 133 133 c
  || in_range 160 160 c.

(** [s.lstrip()] *)
Fixpoint lstrip (s : string) : string :=
  match s with
  | EmptyString => EmptyString
  | String c rest => if py_isspace c then lstrip rest else s
  end.

(** [s.rstrip()] *)
Fixpoint rstrip (s : string) : string :=
  match s with
  | EmptyString => EmptyString
  | String c rest =>
      match rstrip rest with
      | EmptyString => if py_isspace c then EmptyString else String c EmptyString
      | String c' rest' => String c (String c' rest')
      end
  end.

(** [s.strip()] *)
Definition strip (s : string) : string := lstrip (rstrip s).

(** [f'generated_processes/generated_processes_full_{x}_{y}.txt'] *)
Definition process_filename (x y : Z) : string :=
  ("generated_processes/generated_processes_full_"
     ++ str_int x ++ "_" ++ str_int y ++ ".txt")%string.

(** [for i, line in enumerate(file, i): if i == z: return line.strip()] *)
Fixpoint find_line (i : Z) (lines : list string) (z : Z) : option string :=
  match lines with
  | [] => None
  | line :: rest =>
      if (i =? z)%Z then Some (strip line) else find_line (i + 1) rest z
  end.

Definition get_process_from_file (files : string -> option (list string))
           (x y z : Z) : file_exn + string :=
  match files (process_filename x y) with
  | None => inl FileNotFoundError
  | Some lines =>
      match find_line 1 lines z with
      | Some line => inr line
      | None => inl LineValueError
      end
  end.




(** ** The second picks of mode ["bagging_remove_reverse_divide"] *)

(** How many times position [k] was chosen. *)
Definition times_chosen (divide_indexes : list nat) (k : nat) : nat :=
  count_occ Nat.eq_dec divide_indexes k.

(** The positions that still hold a non-zero value once the picked ones
    are set to 0. *)
Definition left_nonzero (indexes : list Z) (base : list float) : list nat :=
  filter (fun k => negb (picked indexes k)
                   && negb (Qeq_bool (nth k base 0%Q) 0))
         (seq 0 (length base)).

(** * [generate_cpi_bundle]

    What the loop of [generate_cpi_bundle] goes through, and the body of
    its [try]: what one combination adds to the bundle. *)

(** [range(a, b)] *)
Definition py_range (a b : Z) : list Z :=
  map (fun i => (a + Z.of_nat i)%Z) (seq 0 (Z.to_nat (b - a))).

(** [itertools.product] of four sequences: the last one advances
    fastest. *)
Definition product4 {A B C D} (la : list A) (lb : list B) (lc : list C)
           (ld : list D) : list (A * B * C * D) :=
  flat_map (fun a =>
    flat_map (fun b =>
      flat_map (fun c => map (fun d => (a, b, c, d)) ld) lc) lb) la.

Definition combinations (z_range impact_dims_range : Z * Z)
           (choice_distributions : list float)
           (generation_modes : list string)
  : list (Z * Z * float * string) :=
  product4 (py_range (fst z_range) (snd z_range + 1))
           (py_range (fst impact_dims_range) (snd impact_dims_range + 1))
           choice_distributions generation_modes.

(** The total that the progress bar is given. *)
Definition total_combinations (z_range impact_dims_range : Z * Z)
           (choice_distributions : list float)
           (generation_modes : list string) : Z :=
  ((snd z_range - fst z_range + 1)
   * (snd impact_dims_range - fst impact_dims_range + 1)
   * Z.of_nat (length choice_distributions)
   * Z.of_nat (length generation_modes))%Z.

(** The value of the ['metadata'] key. *)
Record metadata : Type := Metadata
  { meta_x : Z;
    meta_y : Z;
    meta_z : Z;
    meta_num_impacts : Z;
    meta_choice_distribution : float;
    meta_generation_mode : string;
    meta_duration_interval : Z * Z }.

Inductive bundle_exn : Type :=
| FromFile (e : file_exn)
| FromTranslate (e : exn)
| NoItemAssignment.
    (* TypeError: 'NoneType' object does not support item assignment *)

(** [cpi_dict['metadata'] = m] *)
Definition set_metadata (cpi_dict : cpi) (m : metadata)
  : bundle_exn + (cpi * metadata) :=
  match cpi_dict with
  | PyNone => inl NoItemAssignment
  | _ => inr (cpi_dict, m)
  end.

Section Bundle.

Context {RS : RandomSource}.

Variable files : string -> option (list string).

(** The body of the [try]: the CPI that is appended to [cpi_bundle], or
    the exception that the [except] clause prints. *)
Definition bundle_item (x y : Z) (duration_interval : Z * Z)
           (combination : Z * Z * float * string) (g : rng)
  : bundle_exn + (cpi * metadata * rng) :=
  let '(z, num_impacts, choice_dist, mode) := combination in
  match get_process_from_file files x y z with
  | inl e => inl (FromFile e)
  | inr process_str =>
      match translate_to_cpi process_str choice_dist duration_interval
                             num_impacts mode g with
      | Raise e => inl (FromTranslate e)
      | Ok (cpi_dict, g') =>
          match set_metadata cpi_dict
                             (Metadata x y z num_impacts choice_dist mode
                                       duration_interval) with
          | inl e => inl e
          | inr item => inr (item, g')
          end
      end
  end.

End Bundle.

(** * Parser correctness: the machine accepts exactly the grammar *)

Section ParserCorrectness.

Lemma run_app st ts1 ts2 :
  run st (ts1 ++ ts2) =
  match run st ts1 with Some st' => run st' ts2 | None => None end.
Proof.
  revert st; induction ts1 as [|tok ts1 IH]; intros st; simpl.
  - reflexivity.
  - destruct (step st tok); [apply IH | reflexivity].
Qed.

(** *** Completeness: every derivation is followed by the machine *)

Lemma grammar_followed :
  forall ts t, g_xor ts t -> follows_xor ts t.
Proof.
  apply (g_xor_mut
           (fun ts t _ => follows_xor ts t)
           (fun ts t _ => follows_parallel ts t)
           (fun ts t _ => follows_sequential ts t)
           (fun ts t _ => follows_region ts t)).
  - (* xor: parallel *)
    intros ts t _ IH stack.
    destruct (IH None stack) as (p & s & r & Hrun & Hc).
    exists (Frame None p s r); split; [exact Hrun | exact Hc].
  - (* xor: xor "^" parallel *)
    intros ts1 ts2 l r _ IHl _ IHr stack.
    destruct (IHl stack) as (f & Hrun & Hc).
    destruct (IHr (Some l) stack) as (p & s & r' & Hrun' & Hc').
    exists (Frame (Some l) p s r'); split.
    + rewrite run_app, Hrun; simpl. rewrite Hc. exact Hrun'.
    + unfold close_xor; simpl. now rewrite Hc'.
  - (* parallel: sequential *)
    intros ts t _ IH x stack.
    destruct (IH x None stack) as (s & r & Hrun & Hc).
    exists None, s, r; split; [exact Hrun | exact Hc].
  - (* parallel: parallel "||" sequential *)
    intros ts1 ts2 l r _ IHl _ IHr x stack.
    destruct (IHl x stack) as (p & s & r0 & Hrun & Hc).
    destruct (IHr x (Some l) stack) as (s' & r' & Hrun' & Hc').
    exists (Some l), s', r'; split.
    + rewrite run_app, Hrun; simpl. rewrite Hc. exact Hrun'.
    + simpl. now rewrite Hc'.
  - (* sequential: region *)
    intros ts t _ IH x p stack.
    destruct (IH x p None stack) as (r & Hrun & Hc).
    exists None, r; split; [exact Hrun | exact Hc].
  - (* sequential: sequential "," region *)
    intros ts1 ts2 l r _ IHl _ IHr x p stack.
    destruct (IHl x p stack) as (s & r0 & Hrun & Hc).
    destruct (IHr x p (Some l) stack) as (r' & Hrun' & Hc').
    exists (Some l), r'; split.
    + rewrite run_app, Hrun; simpl. rewrite Hc. exact Hrun'.
    + simpl. now rewrite Hc'.
  - (* region: empty *)
    intros x p s stack. exists None; split; reflexivity.
  - (* region: NAME *)
    intros n x p s stack. exists (Some (Task n)); split; reflexivity.
  - (* region: "(" xor ")" *)
    intros ts t _ IH x p s stack.
    destruct (IH (Frame x p s None :: stack)) as (f & Hrun & Hc).
    exists (Some t); split; [|reflexivity].
    change (LPAR :: ts ++ [RPAR]) with ([LPAR] ++ ts ++ [RPAR]).
    rewrite run_app; simpl. rewrite run_app, Hrun; simpl.
    now rewrite Hc.
Qed.

Lemma parse_tokens_complete ts t : g_xor ts t -> parse_tokens ts = Some t.
Proof.
  intros H. destruct (grammar_followed ts t H []) as (f & Hrun & Hc).
  unfold parse_tokens. now rewrite Hrun, Hc.
Qed.

(** *** Soundness: what a frame holds was derived from what it has read *)

Lemma close_region_derives r tr :
  read_region r tr -> g_region tr (close_region r).
Proof.
  destruct r; simpl; intros H; [exact H | subst; constructor].
Qed.

Lemma close_sequential_derives s r tq tr :
  left_operand g_sequential COMMA s tq -> read_region r tr ->
  g_sequential (tq ++ tr) (close_sequential s r).
Proof.
  intros Hs Hr. apply close_region_derives in Hr.
  destruct s as [l|]; simpl in *.
  - destruct Hs as (ts' & -> & Hl). rewrite <- app_assoc. simpl.
    now apply g_sequential_sequential.
  - subst. simpl. now apply g_sequential_region.
Qed.

Lemma close_parallel_derives p s r tp tq tr :
  left_operand g_parallel VBARVBAR p tp ->
  left_operand g_sequential COMMA s tq -> read_region r tr ->
  g_parallel (tp ++ tq ++ tr) (close_parallel p s r).
Proof.
  intros Hp Hs Hr.
  pose proof (close_sequential_derives s r tq tr Hs Hr) as Hq.
  destruct p as [l|]; simpl in *.
  - destruct Hp as (ts' & -> & Hl). rewrite <- app_assoc. simpl.
    now apply g_parallel_parallel.
  - subst. simpl. now apply g_parallel_sequential.
Qed.

Lemma close_xor_derives f ts : frame_inv f ts -> g_xor ts (close_xor f).
Proof.
  intros (tx & tp & tq & tr & -> & Hx & Hp & Hs & Hr).
  pose proof (close_parallel_derives _ _ _ _ _ _ Hp Hs Hr) as Hq.
  unfold close_xor. destruct (fx f) as [l|]; simpl in *.
  - destruct Hx as (ts' & -> & Hl). rewrite <- app_assoc. simpl.
    now apply g_xor_xor.
  - subst. simpl. now apply g_xor_parallel.
Qed.

(** A change of the top frame that reads [ext] carries over to the stack. *)
Lemma stack_inv_top stack f f' ts ext :
  stack_inv stack f ts ->
  (forall tsf, frame_inv f tsf -> frame_inv f' (tsf ++ ext)) ->
  stack_inv stack f' (ts ++ ext).
Proof.
  destruct stack as [|parent stack']; simpl; intros H Hf.
  - now apply Hf.
  - destruct H as (tsp & tsf & -> & Hinv & Hpar & Hrest).
    exists tsp, (tsf ++ ext). rewrite <- app_assoc. simpl.
    repeat split; auto.
Qed.

Lemma frame_inv_name x p s n tsf :
  frame_inv (Frame x p s None) tsf ->
  frame_inv (Frame x p s (Some (Task n))) (tsf ++ [NAME n]).
Proof.
  intros (tx & tp & tq & tr & -> & Hx & Hp & Hs & Hr); simpl in *. subst tr.
  exists tx, tp, tq, [NAME n]; simpl.
  repeat split; auto; [| constructor].
  now rewrite app_nil_r, <- !app_assoc.
Qed.

Lemma frame_inv_region x p s r tr tsf :
  g_region tr r ->
  frame_inv (Frame x p s None) tsf ->
  frame_inv (Frame x p s (Some r)) (tsf ++ tr).
Proof.
  intros Hg (tx & tp & tq & tr0 & -> & Hx & Hp & Hs & Hr); simpl in *.
  subst tr0. exists tx, tp, tq, tr; simpl.
  repeat split; auto.
  now rewrite app_nil_r, <- !app_assoc.
Qed.

Lemma frame_inv_comma f tsf :
  frame_inv f tsf ->
  frame_inv (Frame (fx f) (fp f) (Some (close_sequential (fs f) (fr f))) None)
            (tsf ++ [COMMA]).
Proof.
  intros (tx & tp & tq & tr & -> & Hx & Hp & Hs & Hr).
  exists tx, tp, ((tq ++ tr) ++ [COMMA]), []; simpl.
  repeat split; auto.
  - now rewrite app_nil_r, <- !app_assoc.
  - exists (tq ++ tr); split; [reflexivity|].
    now apply close_sequential_derives.
Qed.

Lemma frame_inv_vbarvbar f tsf :
  frame_inv f tsf ->
  frame_inv (Frame (fx f) (Some (close_parallel (fp f) (fs f) (fr f))) None None)
            (tsf ++ [VBARVBAR]).
Proof.
  intros (tx & tp & tq & tr & -> & Hx & Hp & Hs & Hr).
  exists tx, ((tp ++ tq ++ tr) ++ [VBARVBAR]), [], []; simpl.
  repeat split; auto.
  - now rewrite app_nil_r, <- !app_assoc.
  - exists (tp ++ tq ++ tr); split; [reflexivity|].
    now apply close_parallel_derives.
Qed.

Lemma frame_inv_circumflex f tsf :
  frame_inv f tsf ->
  frame_inv (Frame (Some (close_xor f)) None None None) (tsf ++ [CIRCUMFLEX]).
Proof.
  intros Hinv.
  exists (tsf ++ [CIRCUMFLEX]), [], [], []; simpl.
  repeat split; auto.
  - now rewrite app_nil_r.
  - exists tsf; split; [reflexivity|]. now apply close_xor_derives.
Qed.

Lemma frame_inv_empty : frame_inv empty_frame [].
Proof. exists [], [], [], []; simpl; repeat split. Qed.

Lemma step_inv f stack tok f' stack' ts :
  stack_inv stack f ts ->
  step (f, stack) tok = Some (f', stack') ->
  stack_inv stack' f' (ts ++ [tok]).
Proof.
  intros Hinv Hstep. destruct tok; simpl in Hstep.
  - (* NAME *)
    destruct f as [x p q [r|]]; simpl in Hstep; [discriminate|].
    injection Hstep as <- <-.
    eapply stack_inv_top; [exact Hinv|]. intros; now apply frame_inv_name.
  - (* "^" *)
    injection Hstep as <- <-.
    eapply stack_inv_top; [exact Hinv|]. intros; now apply frame_inv_circumflex.
  - (* "||" *)
    injection Hstep as <- <-.
    eapply stack_inv_top; [exact Hinv|]. intros; now apply frame_inv_vbarvbar.
  - (* "," *)
    injection Hstep as <- <-.
    eapply stack_inv_top; [exact Hinv|]. intros; now apply frame_inv_comma.
  - (* "(" *)
    destruct (fr f) eqn:Hfr; [discriminate|].
    injection Hstep as <- <-. simpl.
    exists ts, []; repeat split; auto using frame_inv_empty.
  - (* ")" *)
    destruct stack as [|parent stack0]; [discriminate|].
    injection Hstep as <- <-. simpl in Hinv.
    destruct Hinv as (tsp & tsf & -> & Hf & Hpar & Hrest).
    destruct parent as [x p s r]; simpl in *; subst r.
    replace ((tsp ++ LPAR :: tsf) ++ [RPAR])
      with (tsp ++ (LPAR :: tsf ++ [RPAR]))
      by (now rewrite <- app_assoc).
    eapply stack_inv_top; [exact Hrest|].
    intros tsf0 H0. apply frame_inv_region; [|exact H0].
    constructor. now apply close_xor_derives.
Qed.

Lemma run_inv ts' : forall f stack ts f' stack',
  stack_inv stack f ts ->
  run (f, stack) ts' = Some (f', stack') ->
  stack_inv stack' f' (ts ++ ts').
Proof.
  induction ts' as [|tok ts' IH]; intros f stack ts f' stack' Hinv Hrun;
    cbn [run] in Hrun.
  - injection Hrun as <- <-. now rewrite app_nil_r.
  - destruct (step (f, stack) tok) as [[f1 stack1]|] eqn:Hstep; [|discriminate].
    replace (ts ++ tok :: ts') with ((ts ++ [tok]) ++ ts')
      by (now rewrite <- app_assoc).
    eapply IH; [|exact Hrun]. eapply step_inv; eauto.
Qed.

Lemma parse_tokens_sound ts t : parse_tokens ts = Some t -> g_xor ts t.
Proof.
  unfold parse_tokens.
  destruct (run (empty_frame, []) ts) as [[f [|? ?]]|] eqn:Hrun;
    intros Heq; try discriminate.
  injection Heq as <-. apply close_xor_derives.
  change ts with ([] ++ ts).
  exact (run_inv ts empty_frame [] [] f [] frame_inv_empty Hrun).
Qed.

(** The machine returns a tree exactly when the grammar derives it. *)
Theorem parse_tokens_iff_grammar ts t :
  parse_tokens ts = Some t <-> g_xor ts t.
Proof.
  split; [apply parse_tokens_sound | apply parse_tokens_complete].
Qed.

(** The grammar is unambiguous: a token sequence derives at most one tree. *)
Corollary grammar_unambiguous ts t1 t2 : g_xor ts t1 -> g_xor ts t2 -> t1 = t2.
Proof.
  intros H1 H2. apply parse_tokens_complete in H1, H2. congruence.
Qed.

Lemma parse_ok_iff_conforms text t : parse text = Ok t <-> conforms text t.
Proof.
  unfold parse, conforms. split.
  - destruct (tokenize text) as [ts|]; [|discriminate].
    destruct (parse_tokens ts) as [t'|] eqn:Hp; [|discriminate].
    intros [= <-]. exists ts; split; [reflexivity|].
    now apply parse_tokens_sound.
  - intros (ts & -> & Hg). now rewrite (parse_tokens_complete _ _ Hg).
Qed.

Lemma parse_total text :
  (exists t, parse text = Ok t) \/ parse text = Raise UnexpectedInput.
Proof.
  unfold parse. destruct (tokenize text) as [ts|]; [|now right].
  destruct (parse_tokens ts) as [t|]; [left; now exists t | now right].
Qed.

End ParserCorrectness.

(** * Reasoning about computations *)

Lemma returns_ret {S A} (a : A) (s : S) (Q : A -> S -> Prop) :
  Q a s -> returns (ret a) s Q.
Proof. intros H; exists a, s; split; [reflexivity | exact H]. Qed.

Lemma returns_bind {S A B} (c : M S A) (k : A -> M S B) s Q :
  returns c s (fun a s' => returns (k a) s' Q) -> returns (bind c k) s Q.
Proof.
  intros (a & s' & Hc & b & s'' & Hk & HQ).
  exists b, s''; split; [|exact HQ]. unfold bind. now rewrite Hc.
Qed.

Lemma returns_weaken {S A} (c : M S A) s (P Q : A -> S -> Prop) :
  returns c s P -> (forall a s', P a s' -> Q a s') -> returns c s Q.
Proof. intros (a & s' & Hc & HP) H. exists a, s'; auto. Qed.

Lemma returns_lift {S A} (r : result A) (s : S) (Q : A -> S -> Prop) a :
  r = Ok a -> Q a s -> returns (lift r) s Q.
Proof. intros -> H. exists a, s; split; [reflexivity | exact H]. Qed.

Lemma returns_repeatM {S A} (c : M S A) (P : A -> Prop) (I : S -> Prop) n :
  (forall s, I s -> returns c s (fun a s' => P a /\ I s')) ->
  forall s, I s ->
    returns (repeatM n c) s
            (fun l s' => Forall P l /\ length l = n /\ I s').
Proof.
  intros Hc. induction n as [|n IH]; intros s Hs; simpl.
  - apply returns_ret; auto.
  - apply returns_bind. eapply returns_weaken; [apply Hc, Hs|].
    intros a s1 [Ha Hs1]. apply returns_bind.
    eapply returns_weaken; [apply IH, Hs1|].
    intros l s2 (Hl & Hn & Hs2). apply returns_ret; simpl; auto.
Qed.

Lemma returns_for_each {S A B} (body : A -> B -> M S B)
      (P : A -> Prop) (I : B -> Prop) (J : S -> Prop) indexes :
  (forall i v s, P i -> I v -> J s ->
                 returns (body i v) s (fun v' s' => I v' /\ J s')) ->
  Forall P indexes ->
  forall v s, I v -> J s ->
    returns (for_each body indexes v) s (fun v' s' => I v' /\ J s').
Proof.
  intros Hb. induction indexes as [|i rest IH]; intros HP v s Hv Hs; simpl.
  - apply returns_ret; auto.
  - inversion HP as [|? ? Hi Hrest]; subst.
    apply returns_bind. eapply returns_weaken; [apply Hb; eauto|].
    intros v' s' [Hv' Hs']. now apply IH.
Qed.

(** * The vector generator does not raise on a dimension [>= 0] *)

Section GeneratorFacts.

Context {RS : RandomSource}.

Lemma length_set_nth k x v : length (set_nth k x v) = length v.
Proof.
  revert k; induction v as [|y v IH]; intros [|k]; simpl; auto.
Qed.

Lemma np_index_in_range n i :
  (0 <= i < Z.of_nat n)%Z -> np_index n i = Ok (Z.to_nat i).
Proof.
  intros H. unfold np_index.
  destruct (Z.leb_spec 0 i); [|lia].
  destruct (Z.ltb_spec i (Z.of_nat n)); [reflexivity | lia].
Qed.

Lemma getitem_in_range v i :
  (0 <= i < Z.of_nat (length v))%Z ->
  getitem v i = Ok (nth (Z.to_nat i) v 0%Q).
Proof. intros H. unfold getitem. now rewrite np_index_in_range. Qed.

Lemma setitem_in_range v i x :
  (0 <= i < Z.of_nat (length v))%Z ->
  setitem v i x = Ok (set_nth (Z.to_nat i) x v).
Proof. intros H. unfold setitem. now rewrite np_index_in_range. Qed.

Lemma nonzero_from_bound v : forall k0 k,
  In k (nonzero_from k0 v) -> (k0 <= k < k0 + length v)%nat.
Proof.
  induction v as [|x v IH]; intros k0 k; simpl; [tauto|].
  destruct (Qeq_bool x 0); simpl.
  - intros H. apply IH in H. lia.
  - intros [<- | H]; [lia|]. apply IH in H. lia.
Qed.

Lemma np_nonzero_bound v k : In k (np_nonzero v) -> (k < length v)%nat.
Proof. intros H. apply nonzero_from_bound in H. lia. Qed.

(** In place: [v[i] = f(v[i])]. *)
Lemma returns_update_in_place (f : float -> float) n indexes v (g : rng) :
  Forall (valid_index n) indexes -> length v = n ->
  returns (for_each (fun i v => x <- lift (getitem v i) ;; lift (setitem v i (f x)))
                    indexes v) g
          (fun v' g' => length v' = n /\ g' = g).
Proof.
  intros Hidx Hv.
  apply (returns_for_each _ (valid_index n) (fun v => length v = n)
                          (fun g' => g' = g)); auto.
  intros i w s Hi Hw ->. unfold valid_index in Hi.
  apply returns_bind.
  eapply returns_lift; [apply getitem_in_range; now rewrite Hw|].
  eapply returns_lift; [apply setitem_in_range; now rewrite Hw|].
  now rewrite length_set_nth.
Qed.

(** In place, by positions read off an index array. *)
Lemma returns_update_at_positions (f : float -> float) n positions v (g : rng) :
  Forall (fun k => valid_index n (Z.of_nat k)) positions -> length v = n ->
  returns (for_each (fun i nv => x <- lift (getitem nv (Z.of_nat i)) ;;
                                 lift (setitem nv (Z.of_nat i) (f x)))
                    positions v) g
          (fun v' g' => length v' = n /\ g' = g).
Proof.
  intros Hidx Hv.
  apply (returns_for_each _ (fun k => valid_index n (Z.of_nat k))
                          (fun v => length v = n) (fun g' => g' = g)); auto.
  intros i w s Hi Hw ->. unfold valid_index in Hi.
  apply returns_bind.
  eapply returns_lift; [apply getitem_in_range; now rewrite Hw|].
  eapply returns_lift; [apply setitem_in_range; now rewrite Hw|].
  now rewrite length_set_nth.
Qed.

(** Into another array: [nv[i] = f(vector[i])]. *)
Lemma returns_copy_into (f : float -> float) n indexes vector nv (g : rng) :
  Forall (valid_index n) indexes -> length vector = n -> length nv = n ->
  returns (for_each (fun i nv => x <- lift (getitem vector i) ;;
                                 lift (setitem nv i (f x)))
                    indexes nv) g
          (fun v' g' => length v' = n /\ g' = g).
Proof.
  intros Hidx Hv Hnv.
  apply (returns_for_each _ (valid_index n) (fun v => length v = n)
                          (fun g' => g' = g)); auto.
  intros i w s Hi Hw ->. unfold valid_index in Hi.
  apply returns_bind.
  eapply returns_lift; [apply getitem_in_range; now rewrite Hv|].
  eapply returns_lift; [apply setitem_in_range; now rewrite Hw|].
  now rewrite length_set_nth.
Qed.

(** [nv[i] = 0]. *)
Lemma returns_zero_out n indexes nv (g : rng) :
  Forall (valid_index n) indexes -> length nv = n ->
  returns (for_each (fun i nv => lift (setitem nv i 0%Q)) indexes nv) g
          (fun v' g' => length v' = n /\ g' = g).
Proof.
  intros Hidx Hnv.
  apply (returns_for_each _ (valid_index n) (fun v => length v = n)
                          (fun g' => g' = g)); auto.
  intros i w s Hi Hw ->. unfold valid_index in Hi.
  eapply returns_lift; [apply setitem_in_range; now rewrite Hw|].
  now rewrite length_set_nth.
Qed.

Lemma returns_np_random dim g :
  (0 <= dim)%Z ->
  returns (np_random dim) g (fun v _ => length v = Z.to_nat dim).
Proof.
  intros H. unfold returns, np_random.
  destruct (Z.ltb_spec dim 0); [lia|].
  destruct (np_random_random (Z.to_nat dim) g) as [v g'] eqn:E.
  exists v, g'; split; [reflexivity|].
  pose proof (np_random_random_length (Z.to_nat dim) g) as L.
  now rewrite E in L.
Qed.

Lemma returns_indexes dim g :
  (0 <= dim)%Z ->
  returns (repeatM (Z.to_nat dim) (randint 0 (dim - 1))) g
          (fun l _ => Forall (valid_index (Z.to_nat dim)) l).
Proof.
  intros H. destruct (Z.eq_dec dim 0) as [->|Hne].
  - simpl. apply returns_ret. constructor.
  - eapply returns_weaken.
    + apply (returns_repeatM _ (valid_index (Z.to_nat dim)) (fun _ => True));
        [|exact I].
      intros s _. unfold returns, randint.
      destruct (Z.leb_spec 0 (dim - 1)); [|lia].
      destruct (random_randint 0 (dim - 1) s) as [a s'] eqn:E.
      exists a, s'; split; [reflexivity|]. split; [|exact I].
      pose proof (random_randint_range 0 (dim - 1) s ltac:(lia)) as R.
      rewrite E in R; simpl in R. unfold valid_index. lia.
    + intros l s' (Hl & _ & _). exact Hl.
Qed.

Lemma returns_divide_indexes n nz g :
  nz <> [] -> (forall k, In k nz -> (k < n)%nat) ->
  forall m,
  returns (repeatM m (choice nz)) g
          (fun l _ => Forall (fun k => valid_index n (Z.of_nat k)) l).
Proof.
  intros Hne Hb m. eapply returns_weaken.
  - apply (returns_repeatM _ (fun k => valid_index n (Z.of_nat k))
                           (fun _ => True)); [|exact I].
    intros s _. unfold returns, choice.
    destruct nz as [|k0 nz']; [congruence|].
    destruct (random_choice (k0 :: nz') s) as [a s'] eqn:E.
    exists a, s'; split; [reflexivity|]. split; [|exact I].
    pose proof (random_choice_In (k0 :: nz') s Hne) as R.
    rewrite E in R; simpl fst in R. apply Hb in R. unfold valid_index. lia.
  - intros l s' (Hl & _ & _). exact Hl.
Qed.

Lemma length_np_zeros dim : length (np_zeros dim) = Z.to_nat dim.
Proof. unfold np_zeros. apply repeat_length. Qed.

Lemma returns_generate_vector dim mode g :
  (0 <= dim)%Z ->
  returns (generate_vector dim mode) g (fun v _ => length v = Z.to_nat dim).
Proof.
  intros Hdim. unfold generate_vector.
  apply returns_bind.
  eapply returns_weaken; [apply returns_np_random, Hdim|].
  intros vector g1 Hlen.
  destruct (mode =? "random"); simpl; [now apply returns_ret|].
  apply returns_bind.
  eapply returns_weaken; [apply returns_indexes, Hdim|].
  intros indexes g2 Hidx.
  destruct (mode =? "bagging_divide").
  { eapply returns_weaken;
      [apply (returns_update_in_place float_div10 (Z.to_nat dim));
       auto|].
    now intros ? ? [? _]. }
  destruct (mode =? "bagging_remove").
  { eapply returns_weaken;
      [apply (returns_copy_into (fun x => x) (Z.to_nat dim));
       auto using length_np_zeros|].
    now intros ? ? [? _]. }
  destruct (mode =? "bagging_remove_divide").
  { eapply returns_weaken;
      [apply (returns_copy_into float_div10 (Z.to_nat dim));
       auto using length_np_zeros|].
    now intros ? ? [? _]. }
  destruct (mode =? "bagging_remove_reverse").
  { eapply returns_weaken;
      [apply (returns_zero_out (Z.to_nat dim)); auto|].
    now intros ? ? [? _]. }
  destruct (mode =? "bagging_remove_reverse_divide");
    [|now apply returns_ret].
  apply returns_bind.
  eapply returns_weaken; [apply (returns_zero_out (Z.to_nat dim)); auto|].
  intros new_vector g3 [Hnv _].
  destruct (Nat.ltb_spec 0 (length (np_nonzero new_vector))) as [Hnz|Hnz];
    [|now apply returns_ret].
  apply returns_bind.
  eapply returns_weaken.
  { apply (returns_divide_indexes (Z.to_nat dim)).
    - intros E; rewrite E in Hnz; simpl in Hnz; lia.
    - intros k Hk. apply np_nonzero_bound in Hk. now rewrite Hnv in Hk. }
  intros divide_indexes g4 Hdiv.
  eapply returns_weaken;
    [apply (returns_update_at_positions float_div10 (Z.to_nat dim));
     auto|].
  now intros ? ? [? _].
Qed.

End GeneratorFacts.

Section GeneratorResults.

Context {RS : RandomSource}.

Lemma returns_generate_loop dim mode (Hdim : (0 <= dim)%Z) n :
  forall acc g,
    returns (generate_loop n dim mode acc) g
            (fun vs _ => exists new, vs = acc ++ new /\ length new = n
                                     /\ all_of_dim dim new).
Proof.
  induction n as [|n IH]; intros acc g; simpl.
  - apply returns_ret. exists []; rewrite app_nil_r; repeat split; constructor.
  - apply returns_bind.
    eapply returns_weaken; [apply returns_generate_vector, Hdim|].
    intros v g1 Hv. eapply returns_weaken; [apply IH|].
    intros vs g2 (new & -> & Hn & Hall).
    exists (v :: new). rewrite <- app_assoc. simpl.
    repeat split; [lia | now constructor].
Qed.

Lemma returns_generate_vectors num_vec dim mode g :
  (0 <= dim)%Z ->
  returns (generate_vectors num_vec dim mode) g
          (fun vs _ => length vs = Z.to_nat num_vec /\ all_of_dim dim vs).
Proof.
  intros Hdim. unfold generate_vectors.
  eapply returns_weaken; [apply returns_generate_loop, Hdim|].
  intros vs g' (new & -> & Hn & Hall). simpl. auto.
Qed.

(** No turn of the loop when [num_vec <= 0]: nothing is drawn. *)
Lemma generate_vectors_none num_vec dim mode g :
  (num_vec <= 0)%Z -> generate_vectors num_vec dim mode g = Ok ([], g).
Proof.
  intros H. unfold generate_vectors.
  replace (Z.to_nat num_vec) with O by lia. reflexivity.
Qed.

(** numpy refuses the first draw when [dim < 0]. *)
Lemma generate_vectors_negative_dim num_vec dim mode g :
  (dim < 0)%Z -> (0 < num_vec)%Z ->
  generate_vectors num_vec dim mode g = Raise ValueError.
Proof.
  intros Hdim Hnum. unfold generate_vectors.
  destruct (Z.to_nat num_vec) as [|n] eqn:E; [lia|].
  simpl. unfold bind, generate_vector, bind, np_random.
  destruct (Z.ltb_spec dim 0); [reflexivity | lia].
Qed.

End GeneratorResults.

(** * The traversal *)

Section Traversal.

Context {RS : RandomSource}.

Variable impact_vectors : list (list float).
Variable choice_distribution : float.
Variable duration_interval : Z * Z.
Hypothesis duration_interval_ordered :
  (fst duration_interval <= snd duration_interval)%Z.

Lemma returns_next_id s (Q : nat -> bstate -> Prop) :
  Q (id_counter s) (BState (id_counter s + 1) (task_counter s) (gen s)) ->
  returns next_id s Q.
Proof. intros H. eexists _, _; split; [reflexivity | exact H]. Qed.

Lemma returns_next_vector s v (Q : list float -> bstate -> Prop) :
  nth_error impact_vectors (task_counter s) = Some v ->
  Q v (BState (id_counter s) (task_counter s + 1) (gen s)) ->
  returns (next_vector impact_vectors) s Q.
Proof.
  intros Hv H. exists v. eexists; split; [|exact H].
  unfold next_vector. now rewrite Hv.
Qed.

Lemma returns_draw_randint a b s (Q : Z -> bstate -> Prop) :
  (a <= b)%Z ->
  (forall z g, (a <= z <= b)%Z ->
               Q z (BState (id_counter s) (task_counter s) g)) ->
  returns (draw (randint a b)) s Q.
Proof.
  intros Hab H. unfold returns, draw, randint.
  destruct (Z.leb_spec a b); [|lia].
  pose proof (random_randint_range a b (gen s) Hab) as R.
  destruct (random_randint a b (gen s)) as [z g].
  exists z. eexists; split; [reflexivity|]. now apply H.
Qed.

Lemma returns_draw_random s (Q : float -> bstate -> Prop) :
  (forall u g, unit_interval u ->
               Q u (BState (id_counter s) (task_counter s) g)) ->
  returns (draw random) s Q.
Proof.
  intros H. unfold returns, draw, random.
  pose proof (random_random_range (gen s)) as R.
  destruct (random_random (gen s)) as [u g].
  exists u. eexists; split; [reflexivity|]. now apply H.
Qed.

Lemma firstn_add_skipn {A} (l : list A) a b k :
  firstn (a + b) (skipn k l) =
  firstn a (skipn k l) ++ firstn b (skipn (k + a) l).
Proof.
  rewrite (Nat.add_comm k a), <- skipn_skipn.
  generalize (skipn k l) as m. clear.
  induction a as [|a IH]; intros m; simpl; [reflexivity|].
  destruct m as [|x m]; simpl.
  - now rewrite firstn_nil.
  - now rewrite IH.
Qed.

Lemma firstn_1_skipn {A} (l : list A) k v :
  nth_error l k = Some v -> firstn 1 (skipn k l) = [v].
Proof.
  revert l; induction k as [|k IH]; intros [|x l]; simpl; try discriminate.
  - now intros [= ->].
  - apply IH.
Qed.

(** The two children of a binary node, one after the other. *)
Lemma traversed_children l r s i a s1 b s2 :
  traversed impact_vectors choice_distribution l (BState (id_counter s + 1) (task_counter s) (gen s)) a s1 ->
  traversed impact_vectors choice_distribution r s1 b s2 ->
  i = id_counter s ->
  mirrors l a /\ mirrors r b
  /\ id_counter s2 = id_counter s + (1 + dict_count l + dict_count r)
  /\ task_counter s2 = task_counter s + (count_tasks l + count_tasks r)
  /\ i :: ids a ++ ids b
     = seq (id_counter s) (1 + dict_count l + dict_count r)
  /\ task_impacts a ++ task_impacts b =
     map impacts_dict
         (firstn (count_tasks l + count_tasks r)
                 (skipn (task_counter s) impact_vectors))
  /\ Forall (xor_drawn choice_distribution) (nodes a ++ nodes b).
Proof.
  intros (Ma & Ia & Ta & Sa & Va & Xa) (Mb & Ib & Tb & Sb & Vb & Xb) ->.
  simpl in *.
  repeat split; auto.
  - lia.
  - lia.
  - f_equal. rewrite seq_app, Sa, Sb, Ia.
    now replace (id_counter s + 1) with (S (id_counter s)) by lia.
  - rewrite firstn_add_skipn, map_app, Va, Vb, Ta. reflexivity.
  - apply Forall_app; auto.
Qed.

Ltac unfold_traversed :=
  unfold traversed;
  cbn [mirrors id_counter task_counter gen ids task_impacts nodes
       dict_count count_tasks].

Lemma process_node_returns node : forall s,
  task_counter s + count_tasks node <= length impact_vectors ->
  returns (process_node impact_vectors choice_distribution duration_interval
                        node) s (traversed impact_vectors choice_distribution node s).
Proof.
  induction node as [n | l IHl r IHr | l IHl r IHr | l IHl r IHr | ];
    intros s Hs; simpl in Hs; cbn [process_node].
  - (* task *)
    apply returns_bind, returns_next_id.
    destruct (nth_error impact_vectors (task_counter s)) as [v|] eqn:Hv;
      [|apply nth_error_None in Hv; lia].
    apply returns_bind. eapply returns_next_vector; [exact Hv|]. cbn.
    apply returns_bind, returns_draw_randint; [assumption|].
    intros z g _. apply returns_ret.
    unfold_traversed. repeat split; auto.
    + now rewrite (firstn_1_skipn _ _ _ Hv).
    + repeat constructor.
  - (* sequential *)
    apply returns_bind, returns_next_id.
    apply returns_bind. eapply returns_weaken; [apply IHl; cbn; lia|].
    intros a s1 Ha. apply returns_bind.
    assert (Hs1 : task_counter s1 + count_tasks r <= length impact_vectors)
      by (destruct Ha as (_ & _ & -> & _); cbn; lia).
    eapply returns_weaken; [apply IHr, Hs1|].
    intros b s2 Hb. apply returns_ret.
    destruct (traversed_children l r s _ a s1 b s2 Ha Hb eq_refl)
      as (? & ? & ? & ? & ? & ? & ?).
    unfold_traversed. repeat split; auto.
    constructor; [exact I | assumption].
  - (* parallel *)
    apply returns_bind, returns_next_id.
    apply returns_bind. eapply returns_weaken; [apply IHl; cbn; lia|].
    intros a s1 Ha. apply returns_bind.
    assert (Hs1 : task_counter s1 + count_tasks r <= length impact_vectors)
      by (destruct Ha as (_ & _ & -> & _); cbn; lia).
    eapply returns_weaken; [apply IHr, Hs1|].
    intros b s2 Hb. apply returns_ret.
    destruct (traversed_children l r s _ a s1 b s2 Ha Hb eq_refl)
      as (? & ? & ? & ? & ? & ? & ?).
    unfold_traversed. repeat split; auto.
    constructor; [exact I | assumption].
  - (* xor *)
    apply returns_bind, returns_draw_random. intros u g Hu.
    apply returns_bind, returns_next_id. cbn.
    apply returns_bind.
    eapply returns_weaken;
      [apply (IHl (BState (id_counter s + 1) (task_counter s) g)); cbn; lia|].
    intros a s1 Ha. apply returns_bind.
    assert (Hs1 : task_counter s1 + count_tasks r <= length impact_vectors)
      by (destruct Ha as (_ & _ & -> & _); cbn; lia).
    eapply returns_weaken; [apply IHr, Hs1|].
    intros b s2 Hb.
    destruct (traversed_children l r (BState (id_counter s) (task_counter s) g)
                _ a s1 b s2 Ha Hb eq_refl)
      as (? & ? & ? & ? & ? & ? & ?); cbn in *.
    unfold Qltb.
    destruct (Qle_bool choice_distribution u) eqn:Hcmp; cbn.
    + (* nature *)
      apply returns_bind, returns_draw_random. intros q g' Hq.
      apply returns_ret. unfold_traversed. repeat split; auto.
      constructor; auto. exists u; rewrite Hcmp; cbn.
      repeat split; try apply Hu. exists q; split; [reflexivity | exact Hq].
    + (* choice *)
      apply returns_ret. unfold_traversed. repeat split; auto.
      constructor; auto. exists u; rewrite Hcmp; cbn.
      repeat split; apply Hu.
  - (* empty region *)
    apply returns_ret. unfold_traversed.
    repeat split; auto; lia.
Qed.

End Traversal.

(** * What a process instance holds *)

Section InstanceFacts.

Lemma count_tasks_leaves t : count_tasks t = length (task_leaves t).
Proof.
  induction t; simpl; try rewrite length_app; auto.
Qed.

Lemma well_formed_dict_count t :
  well_formed t = true -> dict_count t = node_count t.
Proof.
  induction t; simpl; intros H; try discriminate; auto;
    apply andb_prop in H as [Hl Hr]; auto.
Qed.

Lemma count_type_task c : count_type "task" c = length (task_impacts c).
Proof.
  unfold count_type.
  induction c as [i d m | i a IHa b IHb | i a IHa b IHb
                  | ty i a IHa b IHb p | ]; simpl; auto.
  1-2: rewrite filter_app, !length_app, IHa, IHb; reflexivity.
  destruct ty; simpl; rewrite filter_app, !length_app, IHa, IHb; reflexivity.
Qed.

Lemma app_eq_seq (l1 l2 : list nat) : forall k n,
  l1 ++ l2 = seq k n ->
  l1 = seq k (length l1) /\ l2 = seq (k + length l1) (length l2).
Proof.
  induction l1 as [|x l1 IH]; intros k n H; simpl in *.
  - split; [reflexivity|].
    rewrite Nat.add_0_r. rewrite H, length_seq. reflexivity.
  - destruct n as [|n]; simpl in H; [discriminate|].
    injection H as -> H. destruct (IH _ _ H) as [H1 H2].
    split; [now f_equal|]. now rewrite <- Nat.add_succ_comm.
Qed.

Lemma ids_seq_ordered c : forall k, ids c = seq k (length (ids c)) -> id_ordered c.
Proof.
  assert (Hnode : forall i a b k,
             (forall k, ids a = seq k (length (ids a)) -> id_ordered a) ->
             (forall k, ids b = seq k (length (ids b)) -> id_ordered b) ->
             i :: ids a ++ ids b = seq k (S (length (ids a ++ ids b))) ->
             (forall j, In j (ids a ++ ids b) -> i < j)
             /\ (forall j k, In j (ids a) -> In k (ids b) -> j < k)
             /\ id_ordered a /\ id_ordered b).
  { intros i a b k IHa IHb H. simpl in H. injection H as -> H.
    destruct (app_eq_seq _ _ _ _ H) as [Ha Hb].
    repeat split; eauto.
    - intros j Hj. rewrite H in Hj. apply in_seq in Hj. lia.
    - intros j j' Hj Hj'. rewrite Ha in Hj. rewrite Hb in Hj'.
      apply in_seq in Hj, Hj'. lia. }
  induction c as [i d m | i a IHa b IHb | i a IHa b IHb
                  | ty i a IHa b IHb p | ]; intros k H; simpl; auto;
    eapply Hnode; eauto.
Qed.

End InstanceFacts.

(** * Every xor dictionary of a returned instance was drawn as the code
      draws it (no assumption on the parameters) *)

Section Drawn.

Context {RS : RandomSource}.

Lemma bind_Ok {S A B} (c : M S A) (k : A -> M S B) s b s'' :
  bind c k s = Ok (b, s'') ->
  exists a s', c s = Ok (a, s') /\ k a s' = Ok (b, s'').
Proof.
  unfold bind. destruct (c s) as [[a s']|e]; [|discriminate].
  intros H. now exists a, s'.
Qed.

Lemma draw_random_Ok s u s' :
  draw random s = Ok (u, s') -> unit_interval u.
Proof.
  unfold draw, random. pose proof (random_random_range (gen s)) as R.
  destruct (random_random (gen s)) as [u0 g]. intros [= <- _]. exact R.
Qed.

Lemma process_node_xor_drawn vectors cd di node : forall s c s',
  process_node vectors cd di node s = Ok (c, s') ->
  Forall (xor_drawn cd) (nodes c).
Proof.
  induction node as [n | l IHl r IHr | l IHl r IHr | l IHl r IHr | ];
    intros s c s' H; cbn [process_node] in H.
  - apply bind_Ok in H as (i & s1 & _ & H).
    apply bind_Ok in H as (v & s2 & _ & H).
    apply bind_Ok in H as (z & s3 & _ & H).
    injection H as <- _. repeat constructor.
  - apply bind_Ok in H as (i & s1 & _ & H).
    apply bind_Ok in H as (a & s2 & Ha & H).
    apply bind_Ok in H as (b & s3 & Hb & H).
    injection H as <- _. simpl. constructor; [exact I|].
    apply Forall_app; eauto.
  - apply bind_Ok in H as (i & s1 & _ & H).
    apply bind_Ok in H as (a & s2 & Ha & H).
    apply bind_Ok in H as (b & s3 & Hb & H).
    injection H as <- _. simpl. constructor; [exact I|].
    apply Forall_app; eauto.
  - apply bind_Ok in H as (u & s0 & Hu & H). apply draw_random_Ok in Hu.
    apply bind_Ok in H as (i & s1 & _ & H).
    apply bind_Ok in H as (a & s2 & Ha & H).
    apply bind_Ok in H as (b & s3 & Hb & H).
    unfold Qltb in H.
    destruct (Qle_bool cd u) eqn:Hcmp; cbn in H.
    + apply bind_Ok in H as (q & s4 & Hq & H). apply draw_random_Ok in Hq.
      injection H as <- _. simpl. constructor; [|apply Forall_app; eauto].
      exists u; rewrite Hcmp; cbn. repeat split; try apply Hu.
      exists q; split; [reflexivity | exact Hq].
    + injection H as <- _. simpl. constructor; [|apply Forall_app; eauto].
      exists u; rewrite Hcmp; cbn. repeat split; apply Hu.
  - injection H as <- _. constructor.
Qed.

Lemma build_xor_drawn ast cd di ni mode g c g' :
  build ast cd di ni mode g = Ok (c, g') -> Forall (xor_drawn cd) (nodes c).
Proof.
  unfold build.
  destruct (generate_vectors _ ni mode g) as [[vectors g1]|e]; [|discriminate].
  destruct (process_node vectors cd di ast (BState 0 0 g1)) as [[c0 s]|e] eqn:H;
    [|discriminate].
  intros [= <- _]. eapply process_node_xor_drawn; eauto.
Qed.

(** [build] returns when the dimension is not negative and the duration
    interval is not empty. *)
Lemma build_returns ast cd di ni mode g :
  (0 <= ni)%Z -> (fst di <= snd di)%Z ->
  exists vectors g1 c s',
    generate_vectors (Z.of_nat (count_tasks ast)) ni mode g = Ok (vectors, g1)
    /\ length vectors = count_tasks ast
    /\ all_of_dim ni vectors
    /\ process_node vectors cd di ast (BState 0 0 g1) = Ok (c, s')
    /\ build ast cd di ni mode g = Ok (c, gen s')
    /\ traversed vectors cd ast (BState 0 0 g1) c s'.
Proof.
  intros Hni Hdi.
  destruct (returns_generate_vectors (Z.of_nat (count_tasks ast)) ni mode g Hni)
    as (vectors & g1 & Hgen & Hlen & Hdim).
  rewrite Nat2Z.id in Hlen.
  destruct (process_node_returns vectors cd di Hdi ast (BState 0 0 g1))
    as (c & s' & Hrun & Htr); [simpl; lia|].
  exists vectors, g1, c, s'.
  split; [exact Hgen|]. split; [exact Hlen|]. split; [exact Hdim|].
  split; [exact Hrun|]. split; [|exact Htr].
  unfold build. now rewrite Hgen, Hrun.
Qed.

End Drawn.

(** * What the impacts mapping of a vector holds *)

Lemma map_fst_impacts_from v : forall i,
  map fst (impacts_from i v)
  = map (fun i => ("impact_" ++ decimal i)%string) (seq (i + 1) (length v)).
Proof.
  induction v as [|x v IH]; intros i; simpl; [reflexivity|].
  f_equal. rewrite IH. now replace (S i + 1) with (S (i + 1)) by lia.
Qed.

Lemma map_fst_impacts_dict v :
  map fst (impacts_dict v) = impact_keys (length v).
Proof. apply map_fst_impacts_from. Qed.

Lemma map_snd_impacts_from v : forall i, map snd (impacts_from i v) = v.
Proof.
  induction v as [|x v IH]; intros i; simpl; [reflexivity|].
  now rewrite IH.
Qed.

(** The values of the mapping are the components of the vector, in
    order. *)
Lemma map_snd_impacts_dict v : map snd (impacts_dict v) = v.
Proof. apply map_snd_impacts_from. Qed.

(** * The claims *)

Section Claims.

Context {RS : RandomSource}.

Lemma length_nodes_ids c : length (nodes c) = length (ids c).
Proof.
  induction c; simpl; rewrite ?length_app; auto.
Qed.

Lemma nth_error_map_Some {A B} (f : A -> B) l i v :
  nth_error l i = Some v -> nth_error (map f l) i = Some (f v).
Proof. intros H. now rewrite nth_error_map, H. Qed.

(** C1. For an expression whose AST has [n] task leaves,
    [translate_to_cpi] asks the vector generator once, for [n] vectors,
    before the traversal starts (the traversal runs from the state the
    generator leaves, with both counters at 0); the process instance has
    the shape of the AST, the i-th task met in pre-order carries the
    impacts mapping of the i-th vector of the batch, and the instance has
    [n] task nodes. The impacts mapping of a vector holds the components
    of the vector, unchanged and in order, under the keys [impact_1],
    [impact_2], ...: the values of the i-th task are the i-th vector. *)
Theorem translate_to_cpi_vectors_in_preorder
        (process_str : string) (ast : tree) (choice_distribution : float)
        (duration_interval : Z * Z) (num_impacts : Z) (mode : string)
        (g : rng) :
  parse process_str = Ok ast ->
  (0 <= num_impacts)%Z ->
  (fst duration_interval <= snd duration_interval)%Z ->
  exists vectors g1 c s',
    generate_vectors (Z.of_nat (length (task_leaves ast))) num_impacts mode g
    = Ok (vectors, g1)
    /\ length vectors = length (task_leaves ast)
    /\ process_node vectors choice_distribution duration_interval ast
                    (BState 0 0 g1) = Ok (c, s')
    /\ translate_to_cpi process_str choice_distribution duration_interval
                        num_impacts mode g = Ok (c, gen s')
    /\ mirrors ast c
    /\ task_impacts c = map impacts_dict vectors
    /\ (forall i v, nth_error vectors i = Some v ->
                    nth_error (task_impacts c) i = Some (impacts_dict v))
    /\ count_type "task" c = length (task_leaves ast)
    /\ map (map snd) (task_impacts c) = vectors
    /\ (forall i v, nth_error vectors i = Some v ->
                    exists m, nth_error (task_impacts c) i = Some m
                              /\ map snd m = v
                              /\ map fst m = impact_keys (length v)
                              /\ length m = Z.to_nat num_impacts).
Proof.
  intros Hparse Hni Hdi.
  destruct (build_returns ast choice_distribution duration_interval
                          num_impacts mode g Hni Hdi)
    as (vectors & g1 & c & s' & Hgen & Hlen & Hall & Hrun & Hbuild & Htr).
  destruct Htr as (Hm & _ & _ & _ & Hv & _). cbn in Hv.
  rewrite <- Hlen, firstn_all in Hv.
  rewrite <- count_tasks_leaves.
  exists vectors, g1, c, s'.
  split; [exact Hgen|]. split; [exact Hlen|]. split; [exact Hrun|].
  split; [unfold translate_to_cpi; now rewrite Hparse|].
  split; [exact Hm|]. split; [exact Hv|].
  split; [|split; [|split]].
  - intros i v Hi. rewrite Hv. now apply nth_error_map_Some.
  - now rewrite count_type_task, Hv, length_map.
  - rewrite Hv, map_map. rewrite <- (map_id vectors) at 2.
    apply map_ext. apply map_snd_impacts_dict.
  - intros i v Hi. exists (impacts_dict v).
    split; [rewrite Hv; now apply nth_error_map_Some|].
    split; [apply map_snd_impacts_dict|].
    split; [apply map_fst_impacts_dict|].
    rewrite <- (length_map fst), map_fst_impacts_dict.
    unfold impact_keys. rewrite length_map, length_seq.
    apply nth_error_In in Hi.
    unfold all_of_dim in Hall. rewrite Forall_forall in Hall.
    now apply Hall.
Qed.

(** C2. For a well-formed AST, the ids of the process instance that
    [build] returns are, read in pre-order, 0, 1, ..., node_count - 1: the
    integers of [0, node_count) and no other, none twice, one per node;
    every node's id is below the ids of its subtrees and the ids of the
    left subtree are below those of the right subtree. *)
Theorem build_ids_preorder
        (ast : tree) (choice_distribution : float)
        (duration_interval : Z * Z) (num_impacts : Z) (mode : string)
        (g : rng) :
  well_formed ast = true ->
  (0 <= num_impacts)%Z ->
  (fst duration_interval <= snd duration_interval)%Z ->
  exists c g',
    build ast choice_distribution duration_interval num_impacts mode g
    = Ok (c, g')
    /\ ids c = seq 0 (node_count ast)
    /\ NoDup (ids c)
    /\ (forall i, In i (ids c) <-> i < node_count ast)
    /\ length (nodes c) = node_count ast
    /\ id_ordered c.
Proof.
  intros Hwf Hni Hdi.
  destruct (build_returns ast choice_distribution duration_interval
                          num_impacts mode g Hni Hdi)
    as (vectors & g1 & c & s' & _ & _ & _ & _ & Hbuild & Htr).
  destruct Htr as (_ & _ & _ & Hids & _). cbn in Hids.
  rewrite (well_formed_dict_count _ Hwf) in Hids.
  exists c, (gen s'). split; [exact Hbuild|]. split; [exact Hids|].
  split; [rewrite Hids; apply seq_NoDup|].
  split; [intros i; rewrite Hids, in_seq; lia|].
  split; [now rewrite length_nodes_ids, Hids, length_seq|].
  apply (ids_seq_ordered c 0). now rewrite Hids at 1 2; rewrite length_seq.
Qed.

(** C3. [parse("a,b^c")] is [Xor(Sequential(Task a, Task b), Task c)]:
    ["^"] binds weakest, then ["||"], then [","], whichever way round two
    operators come, and each operator groups to the left. *)
Theorem parse_precedence_chain :
  parse "a,b^c" = Ok (Xor (Sequential (Task "a") (Task "b")) (Task "c"))
  /\ conforms "a,b^c" (Xor (Sequential (Task "a") (Task "b")) (Task "c"))
  /\ (forall a b c,
         parse_tokens [NAME a; COMMA; NAME b; CIRCUMFLEX; NAME c]
         = Some (Xor (Sequential (Task a) (Task b)) (Task c))
         /\ parse_tokens [NAME a; CIRCUMFLEX; NAME b; COMMA; NAME c]
            = Some (Xor (Task a) (Sequential (Task b) (Task c)))
         /\ parse_tokens [NAME a; VBARVBAR; NAME b; CIRCUMFLEX; NAME c]
            = Some (Xor (Parallel (Task a) (Task b)) (Task c))
         /\ parse_tokens [NAME a; CIRCUMFLEX; NAME b; VBARVBAR; NAME c]
            = Some (Xor (Task a) (Parallel (Task b) (Task c)))
         /\ parse_tokens [NAME a; COMMA; NAME b; VBARVBAR; NAME c]
            = Some (Parallel (Sequential (Task a) (Task b)) (Task c))
         /\ parse_tokens [NAME a; VBARVBAR; NAME b; COMMA; NAME c]
            = Some (Parallel (Task a) (Sequential (Task b) (Task c)))
         /\ parse_tokens [NAME a; CIRCUMFLEX; NAME b; CIRCUMFLEX; NAME c]
            = Some (Xor (Xor (Task a) (Task b)) (Task c))
         /\ parse_tokens [NAME a; VBARVBAR; NAME b; VBARVBAR; NAME c]
            = Some (Parallel (Parallel (Task a) (Task b)) (Task c))
         /\ parse_tokens [NAME a; COMMA; NAME b; COMMA; NAME c]
            = Some (Sequential (Sequential (Task a) (Task b)) (Task c)))
  /\ parse "a^b||c,d"
     = Ok (Xor (Task "a") (Parallel (Task "b")
                                    (Sequential (Task "c") (Task "d")))).
Proof.
  split; [reflexivity|].
  split; [now apply parse_ok_iff_conforms|].
  split; [|reflexivity].
  intros a b c. repeat split; reflexivity.
Qed.

Lemma build_zero_dimension ast cd di mode g :
  (fst di <= snd di)%Z ->
  exists c g1,
    build ast cd di 0 mode g = Ok (c, g1)
    /\ Forall (fun m => m = []) (task_impacts c).
Proof.
  intros Hdi.
  destruct (build_returns ast cd di 0 mode g (Z.le_refl 0) Hdi)
    as (vs & g1 & c & s' & _ & Hlen & Hall & _ & Hbuild & Htr).
  exists c, (gen s'). split; [exact Hbuild|].
  destruct Htr as (_ & _ & _ & _ & -> & _). cbn.
  rewrite <- Hlen, firstn_all. apply Forall_map.
  eapply Forall_impl; [|exact Hall]. simpl.
  intros v Hv. now destruct v.
Qed.

Lemma build_negative_dimension ast cd di ni mode g :
  (ni < 0)%Z -> 0 < count_tasks ast ->
  build ast cd di ni mode g = Raise ValueError.
Proof.
  intros Hni Hn. unfold build.
  rewrite generate_vectors_negative_dim; [reflexivity | exact Hni | lia].
Qed.

(** C4, as the code has it. [generate_vectors] checks neither argument:
    with [num_vec <= 0] it returns the empty list, whatever the dimension,
    and with the dimension 0 it returns [num_vec] empty vectors. It does
    raise, with the [ValueError] of numpy, when the dimension is negative
    and at least one vector is asked for. [build] passes that error on
    unchanged, and with [num_impacts = 0] it returns a process instance
    whose tasks have empty impacts. *)
Theorem generate_vectors_unchecked_parameters
        (num_vec dim : Z) (mode : string) (g : rng) :
  ((num_vec <= 0)%Z -> generate_vectors num_vec dim mode g = Ok ([], g))
  /\ (exists vectors g',
         generate_vectors num_vec 0 mode g = Ok (vectors, g')
         /\ length vectors = Z.to_nat num_vec
         /\ Forall (fun v => v = []) vectors)
  /\ ((dim < 0)%Z -> (0 < num_vec)%Z ->
      generate_vectors num_vec dim mode g = Raise ValueError)
  /\ (forall ast cd di,
         (fst di <= snd di)%Z ->
         exists c g1,
           build ast cd di 0 mode g = Ok (c, g1)
           /\ Forall (fun m => m = []) (task_impacts c))
  /\ (forall ast cd di,
         (dim < 0)%Z -> 0 < count_tasks ast ->
         build ast cd di dim mode g = Raise ValueError).
Proof.
  split; [|split; [|split; [|split]]].
  - apply generate_vectors_none.
  - destruct (returns_generate_vectors num_vec 0 mode g (Z.le_refl 0))
      as (vectors & g' & Hgen & Hlen & Hall).
    exists vectors, g'. split; [exact Hgen|]. split; [exact Hlen|].
    eapply Forall_impl; [|exact Hall]. simpl. intros v Hv. now destruct v.
  - apply generate_vectors_negative_dim.
  - intros ast cd di Hdi. now apply build_zero_dimension.
  - intros ast cd di Hdim Hn. now apply build_negative_dimension.
Qed.

(** [parse] raises exactly on a text that the grammar, as it is written,
    does not derive: a character of no terminal, a token out of place, a
    parenthesis left open or closed twice. The first alternative of the
    region rule is empty, so the grammar derives ["a^^b"] and the empty
    text. *)
Lemma parse_raises_iff_not_conforms (text : string) :
  (parse text = Raise UnexpectedInput <-> ~ exists t, conforms text t)
  /\ parse "(a,b" = Raise UnexpectedInput
  /\ parse "a,b)" = Raise UnexpectedInput
  /\ parse "a b" = Raise UnexpectedInput
  /\ parse "a|b" = Raise UnexpectedInput
  /\ parse "a&b" = Raise UnexpectedInput
  /\ parse "1a" = Raise UnexpectedInput
  /\ conforms "a^^b" (Xor (Xor (Task "a") Region) (Task "b"))
  /\ conforms "" Region.
Proof.
  split; [|repeat split; try reflexivity; now apply parse_ok_iff_conforms].
  split.
  - intros H [t Ht]. apply parse_ok_iff_conforms in Ht. congruence.
  - intros H. destruct (parse_total text) as [[t Ht]|Hr]; [|exact Hr].
    exfalso. apply H. exists t. now apply parse_ok_iff_conforms.
Qed.

(** C6. [_max_independent_xor] is a total function of the AST: 0 on a
    task, the sum of the two children on a sequential or a parallel node,
    [max(1, max(left, right))] on an xor node; it is 2 on
    [Sequential(Xor(a,b), Xor(c,d))] and 1 on [Xor(Xor(a,b), c)], and
    [max_independent_xor] returns it for every text that parses. *)
Theorem max_independent_xor_rules :
  (forall n, _max_independent_xor (Task n) = 0)
  /\ (forall l r, _max_independent_xor (Sequential l r)
                  = _max_independent_xor l + _max_independent_xor r)
  /\ (forall l r, _max_independent_xor (Parallel l r)
                  = _max_independent_xor l + _max_independent_xor r)
  /\ (forall l r, _max_independent_xor (Xor l r)
                  = Nat.max 1 (Nat.max (_max_independent_xor l)
                                       (_max_independent_xor r)))
  /\ (forall a b c d,
         _max_independent_xor
           (Sequential (Xor (Task a) (Task b)) (Xor (Task c) (Task d))) = 2)
  /\ (forall a b c,
         _max_independent_xor (Xor (Xor (Task a) (Task b)) (Task c)) = 1)
  /\ (forall text,
         max_independent_xor text
         = match parse text with
           | Ok t => Ok (_max_independent_xor t)
           | Raise e => Raise e
           end)
  /\ max_independent_xor "(a^b),(c^d)" = Ok 2
  /\ max_independent_xor "(a^b)^c" = Ok 1
  /\ max_independent_xor "a" = Ok 0.
Proof. repeat split; reflexivity. Qed.

(** C7. [_max_nested_xor] is a total function of the AST: 0 on a task,
    the maximum of the two children, not incremented, on a sequential or a
    parallel node, [1 + max(left, right)] on an xor node; it is 2 on
    [Xor(Xor(a,b), c)] and 1 on [Sequential(Xor(a,b), Xor(c,d))], and
    [max_nested_xor] returns it for every text that parses. *)
Theorem max_nested_xor_rules :
  (forall n, _max_nested_xor (Task n) = 0)
  /\ (forall l r, _max_nested_xor (Sequential l r)
                  = Nat.max (_max_nested_xor l) (_max_nested_xor r))
  /\ (forall l r, _max_nested_xor (Parallel l r)
                  = Nat.max (_max_nested_xor l) (_max_nested_xor r))
  /\ (forall l r, _max_nested_xor (Xor l r)
                  = 1 + Nat.max (_max_nested_xor l) (_max_nested_xor r))
  /\ (forall a b c,
         _max_nested_xor (Xor (Xor (Task a) (Task b)) (Task c)) = 2)
  /\ (forall a b c d,
         _max_nested_xor
           (Sequential (Xor (Task a) (Task b)) (Xor (Task c) (Task d))) = 1)
  /\ (forall text,
         max_nested_xor text
         = match parse text with
           | Ok t => Ok (_max_nested_xor t)
           | Raise e => Raise e
           end)
  /\ max_nested_xor "(a^b)^c" = Ok 2
  /\ max_nested_xor "(a^b),(c^d)" = Ok 1
  /\ max_nested_xor "a" = Ok 0.
Proof.
  repeat split; try reflexivity.
  intros l r. simpl. apply Nat.add_comm.
Qed.

Lemma count_type_none ty c :
  Forall (fun d => has_type ty d = false) (nodes c) -> count_type ty c = 0.
Proof.
  unfold count_type. induction (nodes c) as [|d l IH]; intros H; simpl.
  - reflexivity.
  - inversion H as [|? ? Hd Hl]; subst. rewrite Hd. now apply IH.
Qed.

Lemma xor_drawn_always_choice d :
  xor_drawn 1%Q d -> has_type "nature" d = false.
Proof.
  destruct d as [| | | ty i a b p |]; try reflexivity.
  intros (u & [_ Hu] & Hty & _).
  destruct (Qle_bool 1 u) eqn:Hcmp.
  - apply Qle_bool_iff in Hcmp. exfalso. now apply (Qlt_not_le u 1).
  - now subst ty.
Qed.

Lemma xor_drawn_never_choice d :
  xor_drawn 0%Q d -> has_type "choice" d = false.
Proof.
  destruct d as [| | | ty i a b p |]; try reflexivity.
  intros (u & [Hu _] & Hty & _).
  destruct (Qle_bool 0 u) eqn:Hcmp.
  - now subst ty.
  - apply Qle_bool_iff in Hu. congruence.
Qed.

(** C8. A process instance that [build] returns for the choice
    probability 1.0 has no nature node, and one that it returns for 0.0
    has no choice node: the draw is in [0, 1) and is compared with [<]. *)
Theorem build_extreme_choice_distribution
        (ast : tree) (duration_interval : Z * Z) (num_impacts : Z)
        (mode : string) (g : rng) :
  (forall c g',
      build ast 1%Q duration_interval num_impacts mode g = Ok (c, g') ->
      count_type "nature" c = 0
      /\ Forall (fun d => type_of d <> Some "nature") (nodes c))
  /\ (forall c g',
         build ast 0%Q duration_interval num_impacts mode g = Ok (c, g') ->
         count_type "choice" c = 0
         /\ Forall (fun d => type_of d <> Some "choice") (nodes c)).
Proof.
  split; intros c g' H; apply build_xor_drawn in H.
  - assert (Hn : Forall (fun d => has_type "nature" d = false) (nodes c))
      by (eapply Forall_impl; [|exact H]; apply xor_drawn_always_choice).
    split; [now apply count_type_none|].
    eapply Forall_impl; [|exact Hn]. simpl. intros d Hd Ht.
    unfold has_type in Hd. now rewrite Ht in Hd.
  - assert (Hn : Forall (fun d => has_type "choice" d = false) (nodes c))
      by (eapply Forall_impl; [|exact H]; apply xor_drawn_never_choice).
    split; [now apply count_type_none|].
    eapply Forall_impl; [|exact Hn]. simpl. intros d Hd Ht.
    unfold has_type in Hd. now rewrite Ht in Hd.
Qed.

(** C9. In a process instance that [build] returns, a dictionary has the
    ["probability"] key if and only if its type is ["nature"], and the
    probability of a nature node is in [0, 1). *)
Theorem build_probability_iff_nature
        (ast : tree) (choice_distribution : float)
        (duration_interval : Z * Z) (num_impacts : Z) (mode : string)
        (g : rng) (c : cpi) (g' : rng) :
  build ast choice_distribution duration_interval num_impacts mode g
  = Ok (c, g') ->
  Forall (fun d =>
            (probability_of d <> None <-> type_of d = Some "nature")
            /\ (type_of d = Some "nature" ->
                exists p, probability_of d = Some p /\ (0 <= p)%Q /\ (p < 1)%Q)
            /\ (type_of d <> Some "nature" -> probability_of d = None))
         (nodes c).
Proof.
  intros H. apply build_xor_drawn in H.
  eapply Forall_impl; [|exact H]. clear.
  intros [i d m | i a b | i a b | ty i a b p | ]; simpl;
    try (intros _; repeat split; try congruence; discriminate).
  intros (u & _ & _ & Hp). destruct ty.
  - subst p. repeat split; try congruence; discriminate.
  - destruct Hp as (q & -> & Hq0 & Hq1).
    repeat split; try congruence; try discriminate.
    intros _. now exists q.
Qed.

(** C10. For a dimension of at least 1 and whatever the mode,
    [generate_vectors(0, dim, mode)] returns the empty list, and draws
    nothing. *)
Theorem generate_vectors_zero_count (dim : Z) (mode : string) (g : rng) :
  (1 <= dim)%Z -> generate_vectors 0 dim mode g = Ok ([], g).
Proof. intros _. reflexivity. Qed.

End Claims.

(** * The claims on concrete inputs *)

Lemma translate_to_cpi_vectors_in_preorder_witness :
  parse "a,b^c" = Ok (Xor (Sequential (Task "a") (Task "b")) (Task "c"))
  /\ (0 <= 2)%Z /\ (fst (1, 10) <= snd (1, 10))%Z
  /\ exists vectors g1 c s',
      generate_vectors (RS := tape_source)
        (Z.of_nat (length (task_leaves
           (Xor (Sequential (Task "a") (Task "b")) (Task "c")))))
        2 "bagging_divide" 0 = Ok (vectors, g1)
      /\ length vectors = 3
      /\ process_node vectors (1 # 2) (1, 10)%Z
           (Xor (Sequential (Task "a") (Task "b")) (Task "c"))
           (BState 0 0 g1) = Ok (c, s')
      /\ translate_to_cpi "a,b^c" (1 # 2) (1, 10)%Z 2 "bagging_divide" 0
         = Ok (c, gen s')
      /\ mirrors (Xor (Sequential (Task "a") (Task "b")) (Task "c")) c
      /\ task_impacts c = map impacts_dict vectors
      /\ (forall i v, nth_error vectors i = Some v ->
                      nth_error (task_impacts c) i = Some (impacts_dict v))
      /\ count_type "task" c = 3
      /\ map (map snd) (task_impacts c) = vectors
      /\ (forall i v, nth_error vectors i = Some v ->
                      exists m, nth_error (task_impacts c) i = Some m
                                /\ map snd m = v
                                /\ map fst m = impact_keys (length v)
                                /\ length m = Z.to_nat 2).
Proof.
  split; [reflexivity|]. split; [lia|]. split; [simpl; lia|].
  apply (translate_to_cpi_vectors_in_preorder
           (RS := tape_source) "a,b^c"
           (Xor (Sequential (Task "a") (Task "b")) (Task "c"))
           (1 # 2) (1, 10)%Z 2 "bagging_divide" 0).
  - reflexivity.
  - lia.
  - simpl; lia.
Defined.

Lemma build_ids_preorder_witness :
  well_formed (Xor (Sequential (Task "a") (Task "b")) (Task "c")) = true
  /\ (0 <= 2)%Z /\ (fst (1, 10) <= snd (1, 10))%Z
  /\ exists c g',
      build (RS := tape_source)
            (Xor (Sequential (Task "a") (Task "b")) (Task "c"))
            (1 # 2) (1, 10)%Z 2 "random" 0 = Ok (c, g')
      /\ ids c = seq 0 5
      /\ NoDup (ids c)
      /\ (forall i, In i (ids c) <-> i < 5)
      /\ length (nodes c) = 5
      /\ id_ordered c.
Proof.
  split; [reflexivity|]. split; [lia|]. split; [simpl; lia|].
  apply (build_ids_preorder
           (RS := tape_source)
           (Xor (Sequential (Task "a") (Task "b")) (Task "c"))
           (1 # 2) (1, 10)%Z 2 "random" 0).
  - reflexivity.
  - lia.
  - simpl; lia.
Defined.

(** C4 as stated fails: dimension 0 and a negative count both return. *)
Lemma generate_vectors_dimension_zero_returns :
  generate_vectors (RS := tape_source) 2 0 "random" 0 = Ok ([[]; []], 0)
  /\ generate_vectors (RS := tape_source) 2 0 "bagging_remove" 0
     = Ok ([[]; []], 0)
  /\ generate_vectors (RS := tape_source) (-1) 3 "random" 0 = Ok ([], 0)
  /\ translate_to_cpi (RS := tape_source) "a" (1 # 2) (1, 10)%Z 0 "random" 0
     = Ok (TaskDict 0 1 [], 1).
Proof. repeat split; reflexivity. Qed.

Lemma generate_vectors_unchecked_parameters_witness :
  (fst (1, 10) <= snd (1, 10))%Z
  /\ exists c g1,
      build (RS := tape_source) (Xor (Task "a") (Task "b"))
            (1 # 2) (1, 10)%Z 0 "bagging_divide" 0 = Ok (c, g1)
      /\ Forall (fun m => m = []) (task_impacts c).
Proof.
  split; [simpl; lia|].
  apply (proj1 (proj2 (proj2 (proj2
           (generate_vectors_unchecked_parameters
              (RS := tape_source) 2 0 "bagging_divide" 0))))).
  simpl; lia.
Defined.

(** C5. The code does not refuse a missing operand: [parse("a^^b")]
    returns a tree whose inner xor has an empty region for second operand,
    where a syntax error is due, as it is for [parse("(a,b")]. Nothing
    that follows is written for an empty region: [translate_to_cpi] puts
    [None] in its place, and [process_to_dot] raises [TypeError] on the
    instance. *)
Theorem parse_accepts_missing_operand :
  parse "a^^b" = Ok (Xor (Xor (Task "a") Region) (Task "b"))
  /\ parse "a^^b" <> Raise UnexpectedInput
  /\ parse "(a,b" = Raise UnexpectedInput
  /\ exists c g',
      translate_to_cpi (RS := tape_source) "a^^b" (1 # 2) (1, 10)%Z 1
                       "random" 0 = Ok (c, g')
      /\ none_count c = 1
      /\ process_to_dot (fun _ => "0.5") c = inl TypeError.
Proof.
  split; [reflexivity|]. split; [discriminate|]. split; [reflexivity|].
  do 2 eexists. split; [vm_compute; reflexivity|].
  split; vm_compute; reflexivity.
Qed.

Lemma build_extreme_choice_distribution_witness :
  exists c1 g1 c0 g0,
    build (RS := tape_source) (Xor (Xor (Task "a") (Task "b")) (Task "c"))
          1%Q (1, 10)%Z 2 "random" 0 = Ok (c1, g1)
    /\ count_type "nature" c1 = 0
    /\ build (RS := tape_source) (Xor (Xor (Task "a") (Task "b")) (Task "c"))
             0%Q (1, 10)%Z 2 "random" 0 = Ok (c0, g0)
    /\ count_type "choice" c0 = 0.
Proof.
  do 4 eexists.
  split; [vm_compute; reflexivity|]. split.
  - refine (proj1 (proj1 (build_extreme_choice_distribution
                            (RS := tape_source)
                            (Xor (Xor (Task "a") (Task "b")) (Task "c"))
                            (1, 10)%Z 2 "random" 0) _ 11 _)).
    vm_compute; reflexivity.
  - split; [vm_compute; reflexivity|].
    refine (proj1 (proj2 (build_extreme_choice_distribution
                            (RS := tape_source)
                            (Xor (Xor (Task "a") (Task "b")) (Task "c"))
                            (1, 10)%Z 2 "random" 0) _ 13 _)).
    vm_compute; reflexivity.
Defined.

Lemma build_probability_iff_nature_witness :
  exists c g',
    build (RS := tape_source) (Xor (Xor (Task "a") (Task "b")) (Task "c"))
          (7 # 10) (1, 10)%Z 2 "random" 0 = Ok (c, g')
    /\ Forall (fun d =>
                 (probability_of d <> None <-> type_of d = Some "nature")
                 /\ (type_of d = Some "nature" ->
                     exists p, probability_of d = Some p
                               /\ (0 <= p)%Q /\ (p < 1)%Q)
                 /\ (type_of d <> Some "nature" -> probability_of d = None))
              (nodes c).
Proof.
  do 2 eexists. split; [vm_compute; reflexivity|].
  refine (build_probability_iff_nature
            (RS := tape_source)
            (Xor (Xor (Task "a") (Task "b")) (Task "c"))
            (7 # 10) (1, 10)%Z 2 "random" 0 _ 12 _).
  vm_compute; reflexivity.
Defined.

Lemma generate_vectors_zero_count_witness :
  (1 <= 3)%Z
  /\ generate_vectors (RS := tape_source) 0 3 "bagging_remove" 0 = Ok ([], 0).
Proof.
  split; [lia|].
  apply (generate_vectors_zero_count (RS := tape_source) 3 "bagging_remove" 0).
  lia.
Defined.

(** * Further properties of the parser *)

Section ParserFacts.

Lemma count_tokens_app p ts1 ts2 :
  count_tokens p (ts1 ++ ts2) = count_tokens p ts1 + count_tokens p ts2.
Proof. unfold count_tokens. now rewrite filter_app, length_app. Qed.

Lemma token_names_app ts1 ts2 :
  token_names (ts1 ++ ts2) = token_names ts1 ++ token_names ts2.
Proof. apply flat_map_app. Qed.

Lemma kept_binary sep ts1 ts2 l r t :
  is_operator sep = true ->
  token_names [sep] = [] ->
  kept ts1 l -> kept ts2 r ->
  task_leaves t = task_leaves l ++ task_leaves r ->
  binary_count t = 1 + binary_count l + binary_count r ->
  count_tasks t = count_tasks l + count_tasks r ->
  region_count t = region_count l + region_count r ->
  kept (ts1 ++ sep :: ts2) t.
Proof.
  intros Hop Hnm (L1 & B1 & C1) (L2 & B2 & C2) HL HB HC HR.
  unfold kept.
  change (sep :: ts2) with ([sep] ++ ts2).
  rewrite !token_names_app, !count_tokens_app, Hnm.
  unfold count_tokens at 2. simpl filter. rewrite Hop. simpl.
  rewrite HL, HB, HC, HR, L1, L2, <- B1, <- B2.
  repeat split; lia.
Qed.

Lemma grammar_kept : forall ts t, g_xor ts t -> kept ts t.
Proof.
  apply (g_xor_mut (fun ts t _ => kept ts t) (fun ts t _ => kept ts t)
                   (fun ts t _ => kept ts t) (fun ts t _ => kept ts t));
    auto.
  - intros; eapply kept_binary; eauto; reflexivity.
  - intros; eapply kept_binary; eauto; reflexivity.
  - intros; eapply kept_binary; eauto; reflexivity.
  - repeat split.
  - intros n; repeat split.
  - intros ts t _ (L & B & C). unfold kept.
    change (LPAR :: ts ++ [RPAR]) with ([LPAR] ++ ts ++ [RPAR]).
    rewrite !token_names_app, !count_tokens_app.
    change (token_names [LPAR]) with (@nil string).
    change (token_names [RPAR]) with (@nil string).
    change (count_tokens is_operator [LPAR]) with 0.
    change (count_tokens is_operator [RPAR]) with 0.
    rewrite app_nil_r. simpl. repeat split; [exact L | lia | exact C].
Qed.

Lemma well_formed_region_count t :
  well_formed t = true <-> region_count t = 0.
Proof.
  induction t; simpl; rewrite ?andb_true_iff, ?IHt1, ?IHt2;
    split; try lia; try discriminate; auto.
Qed.

Lemma run_depth ts : forall f stack f' stack',
  run (f, stack) ts = Some (f', stack') ->
  length stack + count_tokens is_lpar ts
  = length stack' + count_tokens is_rpar ts.
Proof.
  induction ts as [|tok ts IH]; intros f stack f' stack' H; cbn [run] in H.
  - injection H as <- <-. reflexivity.
  - destruct (step (f, stack) tok) as [[f1 stack1]|] eqn:Hstep; [|discriminate].
    apply IH in H.
    change (tok :: ts) with ([tok] ++ ts). rewrite !count_tokens_app.
    assert (length stack + count_tokens is_lpar [tok]
            = length stack1 + count_tokens is_rpar [tok]); [|lia].
    clear H. unfold count_tokens.
    destruct tok; simpl in Hstep; simpl.
    + destruct (fr f); [discriminate|]. injection Hstep as <- <-. lia.
    + injection Hstep as <- <-. lia.
    + injection Hstep as <- <-. lia.
    + injection Hstep as <- <-. lia.
    + destruct (fr f); [discriminate|]. injection Hstep as <- <-. simpl. lia.
    + destruct stack; [discriminate|]. injection Hstep as <- <-. simpl. lia.
Qed.

Lemma run_prefix st ts1 ts2 st' :
  run st (ts1 ++ ts2) = Some st' -> exists st1, run st ts1 = Some st1.
Proof.
  rewrite run_app. destruct (run st ts1) as [st1|]; [eauto | discriminate].
Qed.

Lemma parse_tokens_run ts t :
  parse_tokens ts = Some t ->
  exists f, run (empty_frame, []) ts = Some (f, []).
Proof.
  unfold parse_tokens.
  destruct (run (empty_frame, []) ts) as [[f [|? ?]]|]; try discriminate.
  eauto.
Qed.

Lemma parse_Ok_tokens text t :
  parse text = Ok t ->
  exists ts, tokenize text = Some ts /\ parse_tokens ts = Some t.
Proof.
  unfold parse. destruct (tokenize text) as [ts|]; [|discriminate].
  destruct (parse_tokens ts) as [t'|] eqn:H; [|discriminate].
  intros [= <-]. eauto.
Qed.

(** X1. The task leaves of the tree that [parse] returns are, in
    pre-order, the names of the text in the order they are written; the
    tree has one binary node for each operator of the text; and it is a
    well-formed AST (no empty region) exactly when the text has one more
    name than operators. *)
Theorem parse_keeps_names_and_operators (text : string) (t : tree) :
  parse text = Ok t ->
  exists ts,
    tokenize text = Some ts
    /\ task_leaves t = token_names ts
    /\ binary_count t = count_tokens is_operator ts
    /\ (well_formed t = true
        <-> length (token_names ts) = count_tokens is_operator ts + 1).
Proof.
  intros H. apply parse_Ok_tokens in H as (ts & Htok & Hp).
  apply parse_tokens_sound, grammar_kept in Hp as (L & B & C).
  exists ts. repeat (split; [assumption|]).
  rewrite well_formed_region_count, <- L, <- B, <- count_tasks_leaves. lia.
Qed.

(** X2. The grammar is unambiguous: a text conforms to at most one
    tree, and that tree is what [parse] returns. *)
Theorem conforms_unique (text : string) (t1 t2 : tree) :
  conforms text t1 -> conforms text t2 -> t1 = t2 /\ parse text = Ok t1.
Proof.
  intros H1 H2. apply parse_ok_iff_conforms in H1, H2.
  split; [congruence | exact H1].
Qed.

(** X3. The parentheses of a text that [parse] accepts are balanced: no
    prefix of its tokens closes more parentheses than it opens, and the
    whole text closes as many as it opens. *)
Theorem parse_balanced_parentheses (text : string) (t : tree) :
  parse text = Ok t ->
  exists ts,
    tokenize text = Some ts
    /\ count_tokens is_lpar ts = count_tokens is_rpar ts
    /\ forall ts1 ts2, ts = ts1 ++ ts2 ->
                       count_tokens is_rpar ts1 <= count_tokens is_lpar ts1.
Proof.
  intros H. apply parse_Ok_tokens in H as (ts & Htok & Hp).
  apply parse_tokens_run in Hp as (f & Hrun).
  exists ts. split; [exact Htok|]. split.
  - apply run_depth in Hrun. simpl in Hrun. lia.
  - intros ts1 ts2 ->. apply run_prefix in Hrun as ([f1 stack1] & Hrun).
    apply run_depth in Hrun. simpl in Hrun. lia.
Qed.

(** A token sequence that parses to a tree parses to the same tree when
    it is put between parentheses. *)
Lemma parse_tokens_parenthesized (ts : list token) (t : tree) :
  parse_tokens ts = Some t ->
  parse_tokens (LPAR :: ts ++ [RPAR]) = Some t.
Proof.
  intros H. apply parse_tokens_complete.
  apply g_xor_parallel, g_parallel_sequential, g_sequential_region.
  apply g_region_paren. now apply parse_tokens_sound.
Qed.

End ParserFacts.

(** * Further properties of the lexer *)

Section LexerFacts.

Lemma option_map_cons_Some tok (r : option (list token)) ts :
  option_map (cons tok) r = Some ts ->
  exists ts', r = Some ts' /\ ts = tok :: ts'.
Proof. destruct r; simpl; intros [= <-]; eauto. Qed.

Lemma is_name_char_false c :
  is_name_char c = false -> is_name_start c = false.
Proof. unfold is_name_char. now intros H%orb_false_elim. Qed.

(** A character that cannot continue a name ends it. *)
Lemma tokenize_from_flush n c rest :
  is_name_char c = false ->
  tokenize_from (Some n) (String c rest)
  = option_map (cons (NAME n)) (tokenize_from None (String c rest)).
Proof.
  intros Hc. pose proof (is_name_char_false c Hc) as Hs.
  cbn [tokenize_from]. rewrite Hc, Hs.
  destruct (is_ws_inline c); [reflexivity|].
  destruct (Ascii.eqb c "^"); [reflexivity|].
  destruct (Ascii.eqb c ","); [reflexivity|].
  destruct (Ascii.eqb c "("); [reflexivity|].
  destruct (Ascii.eqb c ")"); [reflexivity|].
  destruct (Ascii.eqb c "|"); [|reflexivity].
  destruct rest as [|c' rest']; [reflexivity|].
  destruct (Ascii.eqb c' "|"); reflexivity.
Qed.

Lemma tokenize_from_lexed n : forall s pending ts,
  String.length s <= n ->
  tokenize_from pending s = Some ts -> lexed pending s ts.
Proof.
  induction n as [|n IH]; intros s pending ts Hlen H.
  - destruct s; [|simpl in Hlen; lia].
    simpl in H. destruct pending; injection H as <-; constructor.
  - destruct s as [|c rest].
    { simpl in H. destruct pending; injection H as <-; constructor. }
    simpl in Hlen.
    assert (HNone : forall ts0,
               tokenize_from None (String c rest) = Some ts0 ->
               lexed None (String c rest) ts0).
    { intros ts0 H0. cbn [tokenize_from] in H0.
      destruct (is_name_start c) eqn:Hs.
      { apply lexed_start; [exact Hs|]. apply IH; [lia | exact H0]. }
      destruct (is_ws_inline c) eqn:Hw.
      { apply lexed_ws; [exact Hw|]. apply IH; [lia | exact H0]. }
      destruct (Ascii.eqb c "^") eqn:E1.
      { apply option_map_cons_Some in H0 as (ts' & H0 & ->).
        apply lexed_punct; [unfold single_punct; now rewrite E1|].
        apply IH; [lia | exact H0]. }
      destruct (Ascii.eqb c ",") eqn:E2.
      { apply option_map_cons_Some in H0 as (ts' & H0 & ->).
        apply lexed_punct; [unfold single_punct; now rewrite E1, E2|].
        apply IH; [lia | exact H0]. }
      destruct (Ascii.eqb c "(") eqn:E3.
      { apply option_map_cons_Some in H0 as (ts' & H0 & ->).
        apply lexed_punct; [unfold single_punct; now rewrite E1, E2, E3|].
        apply IH; [lia | exact H0]. }
      destruct (Ascii.eqb c ")") eqn:E4.
      { apply option_map_cons_Some in H0 as (ts' & H0 & ->).
        apply lexed_punct; [unfold single_punct; now rewrite E1, E2, E3, E4|].
        apply IH; [lia | exact H0]. }
      destruct (Ascii.eqb c "|") eqn:E5; [|discriminate].
      destruct rest as [|c' rest']; [discriminate|].
      destruct (Ascii.eqb c' "|") eqn:E6; [|discriminate].
      apply option_map_cons_Some in H0 as (ts' & H0 & ->).
      apply Ascii.eqb_eq in E5, E6. subst c c'.
      apply lexed_vbarvbar. apply IH; [simpl in Hlen; lia | exact H0]. }
    destruct pending as [name|]; [|now apply HNone].
    destruct (is_name_char c) eqn:Hc.
    + cbn [tokenize_from] in H. rewrite Hc in H.
      apply lexed_extend; [exact Hc|]. apply IH; [lia | exact H].
    + rewrite tokenize_from_flush in H by exact Hc.
      apply option_map_cons_Some in H as (ts' & H & ->).
      apply lexed_flush; [exact Hc|]. now apply HNone.
Qed.

Lemma tokenize_lexed text ts : tokenize text = Some ts -> lexed None text ts.
Proof. apply (tokenize_from_lexed (String.length text)). lia. Qed.

Lemma list_ascii_of_string_app s1 s2 :
  list_ascii_of_string (s1 ++ s2)%string
  = list_ascii_of_string s1 ++ list_ascii_of_string s2.
Proof. induction s1; simpl; [reflexivity | now rewrite IHs1]. Qed.

Lemma is_cname_extend n c :
  is_cname n = true -> is_name_char c = true ->
  is_cname (n ++ String c "")%string = true.
Proof.
  destruct n as [|c0 rest]; simpl; [discriminate|].
  rewrite !andb_true_iff. intros [H0 Hr] Hc. split; [exact H0|].
  rewrite list_ascii_of_string_app, forallb_app, Hr. simpl. now rewrite Hc.
Qed.

Lemma lexed_tokens_ok pending s ts :
  lexed pending s ts -> pending_ok pending = true ->
  forallb token_ok ts = true.
Proof.
  induction 1 as [ | n | c rest ts Hs _ IH | n c rest ts Hc _ IH
                   | n c rest ts Hc _ IH | c rest ts Hw _ IH
                   | c tok rest ts Hp _ IH | rest ts _ IH ];
    intros Hp0; simpl in *; auto.
  - now rewrite Hp0.
  - apply IH. now rewrite Hs.
  - apply IH. now apply is_cname_extend.
  - rewrite Hp0. now apply IH.
  - rewrite IH by reflexivity.
    unfold single_punct in Hp.
    repeat match type of Hp with
           | (if ?b then _ else _) = _ => destruct b
           end; try discriminate; now injection Hp as <-.
Qed.

Lemma single_punct_alphabet c tok :
  single_punct c = Some tok -> in_alphabet c = true.
Proof.
  unfold single_punct, in_alphabet.
  destruct (Ascii.eqb c "^"), (Ascii.eqb c ","), (Ascii.eqb c "("),
    (Ascii.eqb c ")"); try discriminate; intros _;
    rewrite ?orb_true_r; reflexivity.
Qed.

Lemma lexed_alphabet pending s ts :
  lexed pending s ts ->
  forallb in_alphabet (list_ascii_of_string s) = true.
Proof.
  induction 1 as [ | n | c rest ts Hs _ IH | n c rest ts Hc _ IH
                   | n c rest ts Hc _ IH | c rest ts Hw _ IH
                   | c tok rest ts Hp _ IH | rest ts _ IH ];
    simpl in *; auto.
  - rewrite IH, andb_true_r. unfold in_alphabet, is_name_char. now rewrite Hs.
  - rewrite IH, andb_true_r. unfold in_alphabet. now rewrite Hc.
  - rewrite IH, andb_true_r. unfold in_alphabet. rewrite Hw.
    now rewrite orb_true_r.
  - rewrite IH, andb_true_r. eapply single_punct_alphabet; eauto.
Qed.

Lemma token_names_ok ts :
  forallb token_ok ts = true ->
  Forall (fun n => is_cname n = true) (token_names ts).
Proof.
  induction ts as [|tok ts IH]; simpl; [constructor|].
  rewrite andb_true_iff. intros [Ht Hts].
  destruct tok; simpl; auto.
Qed.

(** X5. Every task name of a tree that [parse] returns is an
    identifier: it starts with a letter or an underscore and goes on with
    letters, digits and underscores. *)
Theorem parse_task_names_are_identifiers (text : string) (t : tree) :
  parse text = Ok t ->
  Forall (fun n => is_cname n = true) (task_leaves t).
Proof.
  intros H. apply parse_Ok_tokens in H as (ts & Htok & Hp).
  apply parse_tokens_sound, grammar_kept in Hp as (-> & _).
  apply token_names_ok.
  apply tokenize_lexed in Htok. now apply (lexed_tokens_ok None text).
Qed.

(** X6. A text that holds a character that is no letter, digit,
    underscore, space, tab, ["^"], ["|"], [","], ["("] or [")"] is refused,
    wherever the character is. *)
Theorem parse_refuses_foreign_character (text : string) (c : ascii) :
  In c (list_ascii_of_string text) ->
  in_alphabet c = false ->
  parse text = Raise UnexpectedInput.
Proof.
  intros Hin Hc. unfold parse.
  destruct (tokenize text) as [ts|] eqn:Htok; [|reflexivity].
  apply tokenize_lexed, lexed_alphabet in Htok.
  rewrite forallb_forall in Htok. apply Htok in Hin. congruence.
Qed.

End LexerFacts.

(** * Further properties of the metrics *)

(** X7. Both metrics are 0 exactly on an AST that has no xor node, and
    neither exceeds the number of xor nodes of the AST. *)
Theorem xor_metrics_bounded_by_xor_count (t : tree) :
  (_max_nested_xor t = 0 <-> xor_count t = 0)
  /\ (_max_independent_xor t = 0 <-> xor_count t = 0)
  /\ _max_nested_xor t <= xor_count t
  /\ _max_independent_xor t <= xor_count t.
Proof.
  induction t as [n | l IHl r IHr | l IHl r IHr | l IHl r IHr | ];
    cbn [_max_nested_xor _max_independent_xor xor_count];
    try (destruct IHl as (L1 & L2 & L3 & L4);
         destruct IHr as (R1 & R2 & R3 & R4));
    repeat split; lia.
Qed.

(** * Further properties of the vector generator *)

Section ModeFacts.

Context {RS : RandomSource}.

Lemma nth_set_nth k j x v :
  j < length v ->
  nth k (set_nth j x v) 0%Q = if (k =? j)%nat then x else nth k v 0%Q.
Proof.
  revert k j; induction v as [|y v IH]; intros k j Hj; simpl in Hj; [lia|].
  destruct j as [|j], k as [|k]; simpl; auto.
  apply IH. lia.
Qed.

Lemma picked_cons i indexes k :
  picked (i :: indexes) k = (Z.of_nat k =? i)%Z || picked indexes k.
Proof. reflexivity. Qed.

Lemma eqb_index k i :
  (0 <= i)%Z -> (k =? Z.to_nat i)%nat = (Z.of_nat k =? i)%Z.
Proof.
  intros Hi. destruct (Nat.eqb_spec k (Z.to_nat i)), (Z.eqb_spec (Z.of_nat k) i);
    auto; lia.
Qed.

(** [nv[i] = f(vector[i])] for each pick: the picked positions hold the
    image of what [vector] has there, the others what [nv] had. *)
Lemma returns_copy_into_pointwise (f : float -> float) n vector indexes :
  Forall (valid_index n) indexes -> length vector = n ->
  forall nv (g : rng), length nv = n ->
  returns (for_each (fun i nv => x <- lift (getitem vector i) ;;
                                 lift (setitem nv i (f x)))
                    indexes nv) g
          (fun v' g' =>
             g' = g /\ length v' = n
             /\ forall k, k < n ->
                          nth k v' 0%Q = if picked indexes k
                                         then f (nth k vector 0%Q)
                                         else nth k nv 0%Q).
Proof.
  intros Hidx Hv. induction Hidx as [|i rest Hi _ IH]; intros nv g Hnv.
  - simpl. apply returns_ret. auto.
  - cbn [for_each]. unfold valid_index in Hi.
    apply returns_bind, returns_bind.
    eapply returns_lift; [apply getitem_in_range; now rewrite Hv|].
    eapply returns_lift; [apply setitem_in_range; now rewrite Hnv|].
    eapply returns_weaken;
      [apply IH; now rewrite length_set_nth|].
    intros v' g' (-> & Hlen & Hpt). repeat split; auto.
    intros k Hk. rewrite Hpt, picked_cons by exact Hk.
    destruct (picked rest k); [now rewrite orb_true_r|].
    rewrite orb_false_r, nth_set_nth by lia.
    rewrite eqb_index by lia.
    destruct (Z.eqb_spec (Z.of_nat k) i) as [<-|]; [|reflexivity].
    now rewrite Nat2Z.id.
Qed.

(** [nv[i] = 0] for each pick. *)
Lemma returns_zero_out_pointwise n indexes :
  Forall (valid_index n) indexes ->
  forall nv (g : rng), length nv = n ->
  returns (for_each (fun i nv => lift (setitem nv i 0%Q)) indexes nv) g
          (fun v' g' =>
             g' = g /\ length v' = n
             /\ forall k, k < n ->
                          nth k v' 0%Q = if picked indexes k then 0%Q
                                         else nth k nv 0%Q).
Proof.
  intros Hidx. induction Hidx as [|i rest Hi _ IH]; intros nv g Hnv.
  - simpl. apply returns_ret. auto.
  - cbn [for_each]. unfold valid_index in Hi.
    apply returns_bind.
    eapply returns_lift; [apply setitem_in_range; now rewrite Hnv|].
    eapply returns_weaken;
      [apply IH; now rewrite length_set_nth|].
    intros v' g' (-> & Hlen & Hpt). repeat split; auto.
    intros k Hk. rewrite Hpt, picked_cons by exact Hk.
    destruct (picked rest k); [now rewrite orb_true_r|].
    rewrite orb_false_r, nth_set_nth by lia.
    rewrite eqb_index by lia.
    now destruct (Z.eqb_spec (Z.of_nat k) i).
Qed.

Lemma times_picked_cons i indexes k :
  times_picked (i :: indexes) k
  = (if (Z.of_nat k =? i)%Z then 1 else 0) + times_picked indexes k.
Proof.
  unfold times_picked. simpl.
  destruct (Z.eq_dec i (Z.of_nat k)), (Z.eqb_spec (Z.of_nat k) i);
    try reflexivity; congruence.
Qed.

Lemma divided_succ n x : divided n (float_div10 x) = divided (S n) x.
Proof.
  unfold divided. induction n as [|n IH]; simpl; [reflexivity|].
  simpl in IH. now rewrite IH.
Qed.

(** [v[i] /= 10] for each pick, in place: a position is divided once for
    each time it was picked. *)
Lemma returns_divide_in_place_pointwise n indexes :
  Forall (valid_index n) indexes ->
  forall v (g : rng), length v = n ->
  returns (for_each (fun i v => x <- lift (getitem v i) ;;
                                lift (setitem v i (float_div10 x)))
                    indexes v) g
          (fun v' g' =>
             g' = g /\ length v' = n
             /\ forall k, k < n ->
                          nth k v' 0%Q
                          = divided (times_picked indexes k) (nth k v 0%Q)).
Proof.
  intros Hidx. induction Hidx as [|i rest Hi _ IH]; intros v g Hv.
  - simpl. apply returns_ret. auto.
  - cbn [for_each]. unfold valid_index in Hi.
    apply returns_bind, returns_bind.
    eapply returns_lift; [apply getitem_in_range; now rewrite Hv|].
    eapply returns_lift; [apply setitem_in_range; now rewrite Hv|].
    eapply returns_weaken;
      [apply IH; now rewrite length_set_nth|].
    intros v' g' (-> & Hlen & Hpt). repeat split; auto.
    intros k Hk. rewrite Hpt, times_picked_cons by exact Hk.
    rewrite nth_set_nth by lia. rewrite eqb_index by lia.
    destruct (Z.eqb_spec (Z.of_nat k) i) as [<-|]; [|reflexivity].
    rewrite Nat2Z.id. simpl Nat.add. apply divided_succ.
Qed.

Lemma returns_base_and_picks dim g :
  (0 <= dim)%Z ->
  exists base g1 indexes g2, base_and_picks dim g base g1 indexes g2.
Proof.
  intros Hdim.
  destruct (returns_np_random dim g Hdim) as (base & g1 & Hb & Hlen).
  destruct (returns_indexes dim g1 Hdim) as (indexes & g2 & Hi & Hidx).
  exists base, g1, indexes, g2. repeat split; assumption.
Qed.

Lemma bind_after {S A B} (c : M S A) (k : A -> M S B) s a s' :
  c s = Ok (a, s') -> bind c k s = k a s'.
Proof. intros H. unfold bind. now rewrite H. Qed.

Lemma generate_vector_after_picks dim mode g base g1 indexes g2 :
  base_and_picks dim g base g1 indexes g2 ->
  (mode =? "random") = false ->
  generate_vector dim mode g =
  (if mode =? "bagging_divide" then
      for_each (fun i v => x <- lift (getitem v i) ;;
                           lift (setitem v i (float_div10 x))) indexes base
    else if mode =? "bagging_remove" then
      for_each (fun i nv => x <- lift (getitem base i) ;; lift (setitem nv i x))
               indexes (np_zeros dim)
    else if mode =? "bagging_remove_divide" then
      for_each (fun i nv => x <- lift (getitem base i) ;;
                            lift (setitem nv i (float_div10 x)))
               indexes (np_zeros dim)
    else if mode =? "bagging_remove_reverse" then
      for_each (fun i nv => lift (setitem nv i 0%Q)) indexes base
    else if mode =? "bagging_remove_reverse_divide" then
      new_vector <- for_each (fun i nv => lift (setitem nv i 0%Q)) indexes base ;;
      let non_zero_indexes := np_nonzero new_vector in
      if (0 <? length non_zero_indexes)%nat then
        divide_indexes <- repeatM (Z.to_nat dim) (choice non_zero_indexes) ;;
        for_each (fun i nv => x <- lift (getitem nv (Z.of_nat i)) ;;
                              lift (setitem nv (Z.of_nat i) (float_div10 x)))
                 divide_indexes new_vector
      else ret new_vector
    else ret base) g2.
Proof.
  intros (Hb & _ & Hi & _) Hmode.
  unfold generate_vector.
  rewrite (bind_after _ _ _ _ _ Hb), Hmode. cbn [negb].
  now rewrite (bind_after _ _ _ _ _ Hi).
Qed.

Lemma nth_np_zeros dim k : nth k (np_zeros dim) 0%Q = 0%Q.
Proof.
  unfold np_zeros. generalize (Z.to_nat dim) as n. intros n; revert k.
  induction n; intros [|k]; simpl; auto.
Qed.

(** X8. Mode ["bagging_remove"]: the vector has the value of the random
    vector at every picked position and 0 at every other position. *)
Theorem generate_vector_bagging_remove (dim : Z) (g : rng) :
  (0 <= dim)%Z ->
  exists base g1 indexes g2 v,
    np_random dim g = Ok (base, g1)
    /\ repeatM (Z.to_nat dim) (randint 0 (dim - 1)) g1 = Ok (indexes, g2)
    /\ generate_vector dim "bagging_remove" g = Ok (v, g2)
    /\ length v = Z.to_nat dim
    /\ forall k, k < Z.to_nat dim ->
                 nth k v 0%Q = if picked indexes k then nth k base 0%Q
                               else 0%Q.
Proof.
  intros Hdim.
  destruct (returns_base_and_picks dim g Hdim)
    as (base & g1 & indexes & g2 & Hbp).
  pose proof Hbp as (Hb & Hlen & Hi & Hidx).
  destruct (returns_copy_into_pointwise (fun x => x) _ base indexes Hidx Hlen
              (np_zeros dim) g2 (length_np_zeros dim))
    as (v & g' & Hrun & -> & Hv & Hpt).
  exists base, g1, indexes, g2, v.
  repeat (split; [assumption|]).
  split; [rewrite (generate_vector_after_picks _ "bagging_remove" _ _ _ _ _ Hbp eq_refl);
          exact Hrun|].
  split; [exact Hv|].
  intros k Hk. rewrite Hpt by exact Hk. now rewrite nth_np_zeros.
Qed.

(** X9. Mode ["bagging_remove_divide"]: at every picked position the
    vector has the float64 quotient by 10 of the value of the random
    vector, taken once however many times the position was picked, and 0
    at every other position. *)
Theorem generate_vector_bagging_remove_divide (dim : Z) (g : rng) :
  (0 <= dim)%Z ->
  exists base g1 indexes g2 v,
    np_random dim g = Ok (base, g1)
    /\ repeatM (Z.to_nat dim) (randint 0 (dim - 1)) g1 = Ok (indexes, g2)
    /\ generate_vector dim "bagging_remove_divide" g = Ok (v, g2)
    /\ length v = Z.to_nat dim
    /\ forall k, k < Z.to_nat dim ->
                 nth k v 0%Q = if picked indexes k
                               then float_div10 (nth k base 0%Q)
                               else 0%Q.
Proof.
  intros Hdim.
  destruct (returns_base_and_picks dim g Hdim)
    as (base & g1 & indexes & g2 & Hbp).
  pose proof Hbp as (Hb & Hlen & Hi & Hidx).
  destruct (returns_copy_into_pointwise float_div10 _ base indexes
              Hidx Hlen (np_zeros dim) g2 (length_np_zeros dim))
    as (v & g' & Hrun & -> & Hv & Hpt).
  exists base, g1, indexes, g2, v.
  repeat (split; [assumption|]).
  split; [rewrite (generate_vector_after_picks _ "bagging_remove_divide" _ _ _ _ _ Hbp eq_refl);
          exact Hrun|].
  split; [exact Hv|].
  intros k Hk. rewrite Hpt by exact Hk. now rewrite nth_np_zeros.
Qed.

(** X10. Mode ["bagging_remove_reverse"]: the vector has 0 at every
    picked position and the value of the random vector at every other
    position. *)
Theorem generate_vector_bagging_remove_reverse (dim : Z) (g : rng) :
  (0 <= dim)%Z ->
  exists base g1 indexes g2 v,
    np_random dim g = Ok (base, g1)
    /\ repeatM (Z.to_nat dim) (randint 0 (dim - 1)) g1 = Ok (indexes, g2)
    /\ generate_vector dim "bagging_remove_reverse" g = Ok (v, g2)
    /\ length v = Z.to_nat dim
    /\ forall k, k < Z.to_nat dim ->
                 nth k v 0%Q = if picked indexes k then 0%Q
                               else nth k base 0%Q.
Proof.
  intros Hdim.
  destruct (returns_base_and_picks dim g Hdim)
    as (base & g1 & indexes & g2 & Hbp).
  pose proof Hbp as (Hb & Hlen & Hi & Hidx).
  destruct (returns_zero_out_pointwise _ indexes Hidx base g2 Hlen)
    as (v & g' & Hrun & -> & Hv & Hpt).
  exists base, g1, indexes, g2, v.
  repeat (split; [assumption|]).
  split; [rewrite (generate_vector_after_picks _ "bagging_remove_reverse" _ _ _ _ _ Hbp eq_refl);
          exact Hrun|].
  split; [exact Hv|exact Hpt].
Qed.

(** X11. Mode ["bagging_divide"]: every position holds the value of the
    random vector divided by 10 once for each time the position was
    picked, each quotient being the float64 that the division gives; a
    position that was not picked is unchanged. *)
Theorem generate_vector_bagging_divide (dim : Z) (g : rng) :
  (0 <= dim)%Z ->
  exists base g1 indexes g2 v,
    np_random dim g = Ok (base, g1)
    /\ repeatM (Z.to_nat dim) (randint 0 (dim - 1)) g1 = Ok (indexes, g2)
    /\ generate_vector dim "bagging_divide" g = Ok (v, g2)
    /\ length v = Z.to_nat dim
    /\ forall k, k < Z.to_nat dim ->
                 nth k v 0%Q
                 = divided (times_picked indexes k) (nth k base 0%Q).
Proof.
  intros Hdim.
  destruct (returns_base_and_picks dim g Hdim)
    as (base & g1 & indexes & g2 & Hbp).
  pose proof Hbp as (Hb & Hlen & Hi & Hidx).
  destruct (returns_divide_in_place_pointwise _ indexes Hidx base g2 Hlen)
    as (v & g' & Hrun & -> & Hv & Hpt).
  exists base, g1, indexes, g2, v.
  repeat (split; [assumption|]).
  split; [rewrite (generate_vector_after_picks _ "bagging_divide" _ _ _ _ _ Hbp eq_refl);
          exact Hrun|].
  split; [exact Hv|exact Hpt].
Qed.

(** X12. A mode that is none of the six names is not refused: the picks
    are drawn all the same and the random vector is returned as it was
    drawn. Mode ["random"] returns the random vector without drawing any
    pick. *)
Theorem generate_vector_unknown_mode (dim : Z) (mode : string) (g : rng) :
  (0 <= dim)%Z ->
  ~ In mode modes_of_generate_vectors ->
  generate_vector dim "random" g = np_random dim g
  /\ exists base g1 indexes g2,
      np_random dim g = Ok (base, g1)
      /\ repeatM (Z.to_nat dim) (randint 0 (dim - 1)) g1 = Ok (indexes, g2)
      /\ generate_vector dim mode g = Ok (base, g2).
Proof.
  intros Hdim Hmode. split.
  - unfold generate_vector, bind. simpl.
    destruct (np_random dim g) as [[v g1]|e]; reflexivity.
  - destruct (returns_base_and_picks dim g Hdim)
      as (base & g1 & indexes & g2 & Hbp).
    pose proof Hbp as (Hb & Hlen & Hi & Hidx).
    exists base, g1, indexes, g2. repeat (split; [assumption|]).
    assert (Hne : forall m, In m modes_of_generate_vectors -> (mode =? m) = false).
    { intros m Hm. apply String.eqb_neq. intros ->. contradiction. }
    rewrite (generate_vector_after_picks _ _ _ _ _ _ _ Hbp)
      by (apply Hne; simpl; auto).
    rewrite !Hne by (simpl; auto 10). reflexivity.
Qed.

End ModeFacts.

(** * Further properties of the builder *)

Section BuilderFacts.

Context {RS : RandomSource}.

Lemma draw_randint_Ok a b s z s' :
  draw (randint a b) s = Ok (z, s') -> (a <= z <= b)%Z.
Proof.
  unfold draw, randint. destruct (Z.leb_spec a b) as [Hab|]; [|discriminate].
  pose proof (random_randint_range a b (gen s) Hab) as R.
  destruct (random_randint a b (gen s)) as [z0 g]. now intros [= <- _].
Qed.

Lemma draw_Ok_counters {A} (c : M rng A) s a s' :
  draw c s = Ok (a, s') ->
  id_counter s' = id_counter s /\ task_counter s' = task_counter s.
Proof.
  unfold draw. destruct (c (gen s)) as [[a0 g]|]; [|discriminate].
  now intros [= _ <-].
Qed.

Lemma next_id_Ok s i s' :
  next_id s = Ok (i, s') -> task_counter s' = task_counter s.
Proof. now intros [= _ <-]. Qed.

Lemma next_vector_Ok vectors s v s' :
  next_vector vectors s = Ok (v, s') ->
  In v vectors /\ task_counter s' = task_counter s + 1.
Proof.
  unfold next_vector.
  destruct (nth_error vectors (task_counter s)) as [v0|] eqn:E; [|discriminate].
  intros [= <- <-]. split; [eapply nth_error_In; eauto | reflexivity].
Qed.

Lemma made_children vectors di l r s0 s1 a s2 b s3 :
  task_counter s1 = task_counter s0 ->
  made vectors di l s1 a s2 -> made vectors di r s2 b s3 ->
  (mirrors l a /\ mirrors r b)
  /\ task_counter s3 = task_counter s0 + (count_tasks l + count_tasks r)
  /\ Forall (fun d => (fst di <= d <= snd di)%Z)
            (task_durations a ++ task_durations b)
  /\ Forall (fun m => exists v, In v vectors /\ m = impacts_dict v)
            (task_impacts a ++ task_impacts b).
Proof.
  intros H01 (Ma & Ta & Da & Ia) (Mb & Tb & Db & Ib).
  repeat split; auto using Forall_app; try lia.
  - apply Forall_app; auto.
  - apply Forall_app; auto.
Qed.

Lemma process_node_made vectors cd di node : forall s c s',
  process_node vectors cd di node s = Ok (c, s') ->
  made vectors di node s c s'.
Proof.
  induction node as [n | l IHl r IHr | l IHl r IHr | l IHl r IHr | ];
    intros s c s' H; cbn [process_node] in H.
  - apply bind_Ok in H as (i & s1 & Hi & H). apply next_id_Ok in Hi.
    apply bind_Ok in H as (v & s2 & Hv & H).
    apply next_vector_Ok in Hv as [Hin Hv].
    apply bind_Ok in H as (z & s3 & Hz & H).
    pose proof (draw_randint_Ok _ _ _ _ _ Hz) as Hr.
    apply draw_Ok_counters in Hz as [_ Hz].
    injection H as <- <-. unfold made; simpl.
    repeat split; try lia; repeat constructor; try lia. now exists v.
  - apply bind_Ok in H as (i & s1 & Hi & H). apply next_id_Ok in Hi.
    apply bind_Ok in H as (a & s2 & Ha & H). apply IHl in Ha.
    apply bind_Ok in H as (b & s3 & Hb & H). apply IHr in Hb.
    injection H as <- <-.
    exact (made_children _ _ _ _ _ _ _ _ _ _ Hi Ha Hb).
  - apply bind_Ok in H as (i & s1 & Hi & H). apply next_id_Ok in Hi.
    apply bind_Ok in H as (a & s2 & Ha & H). apply IHl in Ha.
    apply bind_Ok in H as (b & s3 & Hb & H). apply IHr in Hb.
    injection H as <- <-.
    exact (made_children _ _ _ _ _ _ _ _ _ _ Hi Ha Hb).
  - apply bind_Ok in H as (u & s0 & Hu & H).
    apply draw_Ok_counters in Hu as [_ Hu].
    apply bind_Ok in H as (i & s1 & Hi & H). apply next_id_Ok in Hi.
    apply bind_Ok in H as (a & s2 & Ha & H). apply IHl in Ha.
    apply bind_Ok in H as (b & s3 & Hb & H). apply IHr in Hb.
    rewrite Hu in Hi.
    pose proof (made_children _ _ _ _ _ _ _ _ _ _ Hi Ha Hb) as Hm.
    destruct (negb (Qltb u cd)).
    + apply bind_Ok in H as (q & s4 & Hq & H).
      apply draw_Ok_counters in Hq as [_ Hq].
      injection H as <- <-. unfold made. rewrite Hq. exact Hm.
    + injection H as <- <-. exact Hm.
  - injection H as <- <-. unfold made; simpl. repeat split; auto.
Qed.

Lemma build_Ok ast cd di ni mode g c g' :
  build ast cd di ni mode g = Ok (c, g') ->
  exists vectors g1 s',
    generate_vectors (Z.of_nat (count_tasks ast)) ni mode g = Ok (vectors, g1)
    /\ process_node vectors cd di ast (BState 0 0 g1) = Ok (c, s')
    /\ g' = gen s'.
Proof.
  unfold build.
  destruct (generate_vectors _ ni mode g) as [[vectors g1]|e]; [|discriminate].
  destruct (process_node vectors cd di ast (BState 0 0 g1)) as [[c0 s]|e] eqn:H;
    [|discriminate].
  intros [= <- <-]. now exists vectors, g1, s.
Qed.

Lemma generate_vectors_Ok_all_of_dim num_vec dim mode g vectors g' :
  generate_vectors num_vec dim mode g = Ok (vectors, g') ->
  all_of_dim dim vectors.
Proof.
  intros H. destruct (Z_lt_dec dim 0) as [Hdim|Hdim].
  - destruct (Z_lt_dec 0 num_vec) as [Hnum|Hnum].
    + rewrite generate_vectors_negative_dim in H by assumption. discriminate.
    + rewrite generate_vectors_none in H by lia. injection H as <- _.
      constructor.
  - destruct (returns_generate_vectors num_vec dim mode g ltac:(lia))
      as (vs & g1 & Hgen & _ & Hall).
    rewrite Hgen in H. now injection H as <- _.
Qed.

Lemma decimal_inj n m : decimal n = decimal m -> n = m.
Proof.
  unfold decimal. intros H.
  apply DecimalNat.Unsigned.to_uint_inj.
  pose proof (DecimalString.NilEmpty.usu (Nat.to_uint n)) as Hn.
  pose proof (DecimalString.NilEmpty.usu (Nat.to_uint m)) as Hm.
  rewrite H in Hn. congruence.
Qed.

Lemma NoDup_map_injective {A B} (f : A -> B) l :
  (forall x y, f x = f y -> x = y) -> NoDup l -> NoDup (map f l).
Proof.
  intros Hf. induction 1 as [|x l Hx _ IH]; simpl; constructor; auto.
  intros Hin. apply in_map_iff in Hin as (y & Hy & Hin).
  apply Hf in Hy. now subst y.
Qed.

Lemma impact_keys_NoDup n : NoDup (impact_keys n).
Proof.
  unfold impact_keys. apply NoDup_map_injective; [|apply seq_NoDup].
  intros i j H. simpl in H. apply decimal_inj.
  now repeat injection H as H.
Qed.

(** X13. In a process instance that [build] returns, the duration of
    every task lies in the duration interval, bounds included. *)
Theorem build_durations_in_interval
        (ast : tree) (choice_distribution : float)
        (duration_interval : Z * Z) (num_impacts : Z) (mode : string)
        (g : rng) (c : cpi) (g' : rng) :
  build ast choice_distribution duration_interval num_impacts mode g
  = Ok (c, g') ->
  Forall (fun d => (fst duration_interval <= d <= snd duration_interval)%Z)
         (task_durations c).
Proof.
  intros H. apply build_Ok in H as (vectors & g1 & s' & _ & H & _).
  now apply process_node_made in H as (_ & _ & H & _).
Qed.

(** X14. In a process instance that [build] returns, the impacts of
    every task have the keys [impact_1], ..., [impact_n] in this order,
    for [n] the number of impacts asked for, and no key twice. *)
Theorem build_impact_keys
        (ast : tree) (choice_distribution : float)
        (duration_interval : Z * Z) (num_impacts : Z) (mode : string)
        (g : rng) (c : cpi) (g' : rng) :
  build ast choice_distribution duration_interval num_impacts mode g
  = Ok (c, g') ->
  Forall (fun m => map fst m = impact_keys (Z.to_nat num_impacts)
                   /\ length m = Z.to_nat num_impacts
                   /\ NoDup (map fst m))
         (task_impacts c).
Proof.
  intros H. apply build_Ok in H as (vectors & g1 & s' & Hgen & H & _).
  apply generate_vectors_Ok_all_of_dim in Hgen.
  apply process_node_made in H as (_ & _ & _ & H).
  eapply Forall_impl; [|exact H]. simpl.
  intros m (v & Hin & ->).
  unfold all_of_dim in Hgen. rewrite Forall_forall in Hgen.
  specialize (Hgen v Hin).
  assert (Hk : map fst (impacts_dict v) = impact_keys (Z.to_nat num_impacts))
    by (now rewrite map_fst_impacts_dict, Hgen).
  split; [exact Hk|]. split.
  - rewrite <- (length_map fst), Hk. unfold impact_keys.
    now rewrite length_map, length_seq.
  - rewrite Hk. apply impact_keys_NoDup.
Qed.

Lemma mirrors_none_count t : forall c,
  mirrors t c -> none_count c = region_count t.
Proof.
  induction t as [n | l IHl r IHr | l IHl r IHr | l IHl r IHr | ];
    intros [i d m | i a b | i a b | ty i a b p | ]; simpl;
    try contradiction; auto; intros [Ha Hb];
    now rewrite (IHl _ Ha), (IHr _ Hb).
Qed.

(** X15. A process instance that [build] returns has the shape of the
    AST, with [None] in the place of every empty region: it has as many
    [None] children as the AST has empty regions, and none at all when the
    AST is well formed. *)
Theorem build_none_for_empty_region
        (ast : tree) (choice_distribution : float)
        (duration_interval : Z * Z) (num_impacts : Z) (mode : string)
        (g : rng) (c : cpi) (g' : rng) :
  build ast choice_distribution duration_interval num_impacts mode g
  = Ok (c, g') ->
  mirrors ast c
  /\ none_count c = region_count ast
  /\ (well_formed ast = true <-> none_count c = 0).
Proof.
  intros H. apply build_Ok in H as (vectors & g1 & s' & _ & H & _).
  apply process_node_made in H as (Hm & _).
  pose proof (mirrors_none_count _ _ Hm) as Hn.
  split; [exact Hm|]. split; [exact Hn|].
  now rewrite Hn, well_formed_region_count.
Qed.

End BuilderFacts.

(** * The outcomes of [translate_to_cpi] *)

Section Outcomes.

Context {RS : RandomSource}.

Lemma bind_raise {S A B} (c : M S A) (k : A -> M S B) s e :
  c s = Raise e -> bind c k s = Raise e.
Proof. intros H. unfold bind. now rewrite H. Qed.

(** A subtree without a task is traversed whatever the parameters. *)
Lemma process_node_returns_no_task vectors cd di node : forall s,
  count_tasks node = 0 ->
  exists c s', process_node vectors cd di node s = Ok (c, s').
Proof.
  induction node as [n | l IHl r IHr | l IHl r IHr | l IHl r IHr | ];
    intros s Hn; simpl in Hn; try discriminate; cbn [process_node].
  - destruct (IHl (BState (id_counter s + 1) (task_counter s) (gen s))
                  ltac:(lia)) as (a & s1 & Ha).
    destruct (IHr s1 ltac:(lia)) as (b & s2 & Hb).
    do 2 eexists.
    rewrite (bind_after _ _ _ _ _ eq_refl), (bind_after _ _ _ _ _ Ha),
      (bind_after _ _ _ _ _ Hb). reflexivity.
  - destruct (IHl (BState (id_counter s + 1) (task_counter s) (gen s))
                  ltac:(lia)) as (a & s1 & Ha).
    destruct (IHr s1 ltac:(lia)) as (b & s2 & Hb).
    do 2 eexists.
    rewrite (bind_after _ _ _ _ _ eq_refl), (bind_after _ _ _ _ _ Ha),
      (bind_after _ _ _ _ _ Hb). reflexivity.
  - destruct (random_random (gen s)) as [u g0] eqn:Hu.
    assert (Hdraw : draw random s
                    = Ok (u, BState (id_counter s) (task_counter s) g0))
      by (unfold draw, random; now rewrite Hu).
    destruct (IHl (BState (id_counter s + 1) (task_counter s) g0)
                  ltac:(lia)) as (a & s1 & Ha).
    destruct (IHr s1 ltac:(lia)) as (b & s2 & Hb).
    rewrite (bind_after _ _ _ _ _ Hdraw), (bind_after _ _ _ _ _ eq_refl).
    cbn [id_counter task_counter gen].
    rewrite (bind_after _ _ _ _ _ Ha), (bind_after _ _ _ _ _ Hb).
    destruct (negb (Qltb u cd)).
    + destruct (random_random (gen s2)) as [q g3] eqn:Hq.
      assert (Hdraw2 : draw random s2
                       = Ok (q, BState (id_counter s2) (task_counter s2) g3))
        by (unfold draw, random; now rewrite Hq).
      rewrite (bind_after _ _ _ _ _ Hdraw2). do 2 eexists; reflexivity.
    + do 2 eexists; reflexivity.
  - do 2 eexists; reflexivity.
Qed.

(** With an empty duration interval, the first task met raises. *)
Lemma process_node_raises_empty_interval vectors cd di node : forall s,
  (snd di < fst di)%Z ->
  0 < count_tasks node ->
  task_counter s + count_tasks node <= length vectors ->
  process_node vectors cd di node s = Raise ValueError.
Proof.
  assert (Hbinary : forall l r,
    (forall s, (snd di < fst di)%Z -> 0 < count_tasks l ->
               task_counter s + count_tasks l <= length vectors ->
               process_node vectors cd di l s = Raise ValueError) ->
    (forall s, (snd di < fst di)%Z -> 0 < count_tasks r ->
               task_counter s + count_tasks r <= length vectors ->
               process_node vectors cd di r s = Raise ValueError) ->
    forall s (k : cpi -> cpi -> M bstate cpi),
      (snd di < fst di)%Z ->
      0 < count_tasks l + count_tasks r ->
      task_counter s + (count_tasks l + count_tasks r) <= length vectors ->
      (a <- process_node vectors cd di l ;;
       b <- process_node vectors cd di r ;; k a b) s = Raise ValueError).
  { intros l r IHl IHr s k Hdi Hn Hs.
    destruct (count_tasks l) as [|nl] eqn:Hl.
    - destruct (process_node_returns_no_task vectors cd di l s Hl)
        as (a & s1 & Ha).
      pose proof (process_node_made _ _ _ _ _ _ _ Ha) as (_ & Ht & _).
      rewrite (bind_after _ _ _ _ _ Ha). apply bind_raise.
      apply IHr; [assumption | lia | lia].
    - apply bind_raise. apply IHl; [assumption | lia | lia]. }
  induction node as [n | l IHl r IHr | l IHl r IHr | l IHl r IHr | ];
    intros s Hdi Hn Hs; simpl in Hn, Hs; cbn [process_node].
  - rewrite (bind_after _ _ _ _ _ eq_refl).
    destruct (nth_error vectors (task_counter s)) as [v|] eqn:Hv;
      [|apply nth_error_None in Hv; lia].
    assert (Hnext : next_vector vectors
                      (BState (id_counter s + 1) (task_counter s) (gen s))
                    = Ok (v, BState (id_counter s + 1) (task_counter s + 1)
                                    (gen s)))
      by (unfold next_vector; cbn; now rewrite Hv).
    rewrite (bind_after _ _ _ _ _ Hnext). apply bind_raise.
    unfold draw, randint. cbn.
    destruct (Z.leb_spec (fst di) (snd di)); [lia | reflexivity].
  - rewrite (bind_after _ _ _ _ _ eq_refl). now apply Hbinary.
  - rewrite (bind_after _ _ _ _ _ eq_refl). now apply Hbinary.
  - destruct (random_random (gen s)) as [u g0] eqn:Hu.
    assert (Hdraw : draw random s
                    = Ok (u, BState (id_counter s) (task_counter s) g0))
      by (unfold draw, random; now rewrite Hu).
    rewrite (bind_after _ _ _ _ _ Hdraw), (bind_after _ _ _ _ _ eq_refl).
    now apply Hbinary.
  - lia.
Qed.

Lemma build_raises_unusable ast cd di ni mode g :
  unusable_parameters ast di ni ->
  build ast cd di ni mode g = Raise ValueError.
Proof.
  intros [Hn Hbad]. destruct (Z_lt_dec ni 0) as [Hni|Hni].
  - now apply build_negative_dimension.
  - destruct Hbad as [?|Hdi]; [lia|].
    destruct (returns_generate_vectors (Z.of_nat (count_tasks ast)) ni mode g
                ltac:(lia)) as (vectors & g1 & Hgen & Hlen & _).
    rewrite Nat2Z.id in Hlen.
    unfold build. rewrite Hgen.
    rewrite process_node_raises_empty_interval; auto. simpl. lia.
Qed.

Lemma build_returns_usable ast cd di ni mode g :
  ~ unusable_parameters ast di ni ->
  exists c g', build ast cd di ni mode g = Ok (c, g').
Proof.
  intros Hok. destruct (count_tasks ast) as [|n] eqn:Hn.
  - destruct (process_node_returns_no_task [] cd di ast (BState 0 0 g) Hn)
      as (c & s' & Hrun).
    exists c, (gen s'). unfold build. rewrite Hn.
    rewrite generate_vectors_none by reflexivity. now rewrite Hrun.
  - assert (Hni : (0 <= ni)%Z)
      by (destruct (Z_lt_dec ni 0); [|lia];
          exfalso; apply Hok; split; [lia | now left]).
    assert (Hdi : (fst di <= snd di)%Z)
      by (destruct (Z_lt_dec (snd di) (fst di)); [|lia];
          exfalso; apply Hok; split; [lia | now right]).
    destruct (build_returns ast cd di ni mode g Hni Hdi)
      as (_ & _ & c & s' & _ & _ & _ & _ & Hb & _).
    now exists c, (gen s').
Qed.

Lemma generate_vectors_Ok_length num_vec dim mode g vectors g' :
  generate_vectors num_vec dim mode g = Ok (vectors, g') ->
  length vectors = Z.to_nat num_vec.
Proof.
  intros H. destruct (Z_lt_dec dim 0) as [Hdim|Hdim].
  - destruct (Z_lt_dec 0 num_vec) as [Hnum|Hnum].
    + rewrite generate_vectors_negative_dim in H by assumption. discriminate.
    + rewrite generate_vectors_none in H by lia. injection H as <- _.
      simpl. lia.
  - destruct (returns_generate_vectors num_vec dim mode g ltac:(lia))
      as (vs & g1 & Hgen & Hlen & _).
    rewrite Hgen in H. now injection H as <- _.
Qed.

(** Once it has a vector for each task, the traversal returns unless it
    meets a task with an empty duration interval. *)
Lemma process_node_returns_with_vectors vectors cd di ast g1 :
  length vectors = count_tasks ast ->
  count_tasks ast = 0 \/ (fst di <= snd di)%Z ->
  exists c s', process_node vectors cd di ast (BState 0 0 g1) = Ok (c, s').
Proof.
  intros Hlen [Hn|Hdi].
  - now apply process_node_returns_no_task.
  - destruct (process_node_returns vectors cd di Hdi ast (BState 0 0 g1))
      as (c & s' & Hrun & _); [simpl; lia|].
    now exists c, s'.
Qed.

(** X16. The outcomes of [translate_to_cpi]. It raises Lark's error when
    the text does not parse. When the text parses, an exception of
    [generate_vectors] is passed on unchanged. When [generate_vectors]
    returns, it returns one vector for each task of the AST; the traversal
    then raises if and only if the AST has a task and the duration
    interval is empty, with the [ValueError] of [random.randint], and
    returns a process instance otherwise. The traversal never reads a
    vector out of range, and an AST without a task is traversed whatever
    the duration interval. *)
Theorem translate_to_cpi_outcomes
        (process_str : string) (choice_distribution : float)
        (duration_interval : Z * Z) (num_impacts : Z) (mode : string)
        (g : rng) :
  (parse process_str = Raise UnexpectedInput
   /\ translate_to_cpi process_str choice_distribution duration_interval
                       num_impacts mode g = Raise UnexpectedInput)
  \/ exists ast,
      parse process_str = Ok ast
      /\ ((exists e,
              generate_vectors (Z.of_nat (count_tasks ast)) num_impacts mode g
              = Raise e
              /\ translate_to_cpi process_str choice_distribution
                                  duration_interval num_impacts mode g
                 = Raise e)
          \/ exists vectors g1,
              generate_vectors (Z.of_nat (count_tasks ast)) num_impacts mode g
              = Ok (vectors, g1)
              /\ length vectors = count_tasks ast
              /\ ((0 < count_tasks ast
                   /\ (snd duration_interval < fst duration_interval)%Z
                   /\ translate_to_cpi process_str choice_distribution
                                       duration_interval num_impacts mode g
                      = Raise ValueError)
                  \/ ((count_tasks ast = 0
                       \/ (fst duration_interval <= snd duration_interval)%Z)
                      /\ exists c s',
                          process_node vectors choice_distribution
                                       duration_interval ast (BState 0 0 g1)
                          = Ok (c, s')
                          /\ translate_to_cpi process_str choice_distribution
                                              duration_interval num_impacts
                                              mode g
                             = Ok (c, gen s')))).
Proof.
  unfold translate_to_cpi.
  destruct (parse_total process_str) as [[ast Hp]|Hp]; rewrite Hp; [|now left].
  right. exists ast. split; [reflexivity|]. unfold build.
  destruct (generate_vectors (Z.of_nat (count_tasks ast)) num_impacts mode g)
    as [[vectors g1]|e] eqn:Hgen; [|left; now exists e].
  right. exists vectors, g1. split; [reflexivity|].
  pose proof (generate_vectors_Ok_length _ _ _ _ _ _ Hgen) as Hlen.
  rewrite Nat2Z.id in Hlen. split; [exact Hlen|].
  assert (Hdec : (0 < count_tasks ast
                  /\ (snd duration_interval < fst duration_interval)%Z)
                 \/ (count_tasks ast = 0
                     \/ (fst duration_interval <= snd duration_interval)%Z))
    by lia.
  destruct Hdec as [[Hn Hdi]|Hok].
  - left. split; [exact Hn|]. split; [exact Hdi|].
    rewrite process_node_raises_empty_interval; auto. simpl. lia.
  - right. split; [exact Hok|].
    destruct (process_node_returns_with_vectors
                vectors choice_distribution duration_interval ast g1
                Hlen Hok) as (c & s' & Hrun).
    exists c, s'. now rewrite Hrun.
Qed.

End Outcomes.

(** * Properties of [process_to_dot] *)

Section DotFacts.

Variable float_repr : float -> string.

Lemma natures_have_probability_children c a b :
  natures_have_probability c ->
  nodes c = c :: nodes a ++ nodes b ->
  natures_have_probability a /\ natures_have_probability b.
Proof.
  unfold natures_have_probability. intros H E. rewrite E in H.
  inversion H as [|? ? _ Hab]; subst. now apply Forall_app in Hab.
Qed.

Lemma node_id_of_not_none c :
  c <> PyNone -> exists id, node_id_of c = inr id.
Proof.
  destruct c as [i d m | i a b | i a b | [|] i a b p | ]; simpl; eauto.
  congruence.
Qed.

Lemma none_count_not_none c : none_count c = 0 -> c <> PyNone.
Proof. intros H ->. discriminate. Qed.

(** An instance without [None] is written: a line for each of its
    dictionaries and a line for each child. *)
Lemma add_node_written c : forall dot_lines,
  none_count c = 0 -> natures_have_probability c ->
  exists lines,
    add_node float_repr c dot_lines = inr (dot_lines ++ lines)
    /\ length lines + 1 = 2 * length (nodes c).
Proof.
  assert (Hconnect : forall a b node_id la lb dot_lines,
    (forall dot_lines, none_count a = 0 -> natures_have_probability a ->
       exists lines, add_node float_repr a dot_lines = inr (dot_lines ++ lines)
                     /\ length lines + 1 = 2 * length (nodes a)) ->
    (forall dot_lines, none_count b = 0 -> natures_have_probability b ->
       exists lines, add_node float_repr b dot_lines = inr (dot_lines ++ lines)
                     /\ length lines + 1 = 2 * length (nodes b)) ->
    none_count a + none_count b = 0 ->
    natures_have_probability a -> natures_have_probability b ->
    forall line,
    exists lines,
      connect (add_node float_repr) node_id a b la lb (dot_lines ++ [line])
      = inr (dot_lines ++ lines)
      /\ length lines + 1 = 2 * S (length (nodes a ++ nodes b))).
  { intros a b node_id la lb dot_lines IHa IHb Hn Pa Pb line.
    assert (Ha : none_count a = 0) by lia.
    assert (Hb : none_count b = 0) by lia.
    destruct (node_id_of_not_none a (none_count_not_none a Ha)) as (ida & Eida).
    destruct (node_id_of_not_none b (none_count_not_none b Hb)) as (idb & Eidb).
    unfold connect. rewrite Eida, Eidb.
    destruct (IHa ((dot_lines ++ [line])
                     ++ [edge_line node_id ida la; edge_line node_id idb lb])
                  Ha Pa) as (l1 & E1 & L1).
    rewrite E1.
    destruct (IHb (((dot_lines ++ [line])
                      ++ [edge_line node_id ida la; edge_line node_id idb lb])
                     ++ l1) Hb Pb) as (l2 & E2 & L2).
    rewrite E2.
    exists ([line] ++ [edge_line node_id ida la; edge_line node_id idb lb]
                   ++ l1 ++ l2).
    split; [now rewrite <- !app_assoc|].
    rewrite !length_app. simpl. lia. }
  induction c as [i d m | i a IHa b IHb | i a IHa b IHb
                  | ty i a IHa b IHb p | ]; intros dot_lines Hn Hp;
    simpl in Hn; try discriminate.
  - eexists; split; [reflexivity | reflexivity].
  - destruct (natures_have_probability_children _ a b Hp eq_refl) as [Pa Pb].
    cbn [add_node nodes length]. now apply Hconnect.
  - destruct (natures_have_probability_children _ a b Hp eq_refl) as [Pa Pb].
    cbn [add_node nodes length]. now apply Hconnect.
  - destruct (natures_have_probability_children _ a b Hp eq_refl) as [Pa Pb].
    destruct ty; cbn [add_node nodes length].
    + now apply Hconnect.
    + destruct p as [q|].
      * now apply Hconnect.
      * exfalso. inversion Hp as [|? ? Hd _]; subst. now apply Hd.
Qed.

(** An instance that holds [None] is not written: the lookup of the type
    of [None] raises [TypeError]. *)
Lemma add_node_type_error c : forall dot_lines,
  0 < none_count c -> natures_have_probability c ->
  add_node float_repr c dot_lines = inl TypeError.
Proof.
  assert (Hconnect : forall a b node_id la lb,
    (forall dot_lines, 0 < none_count a -> natures_have_probability a ->
                       add_node float_repr a dot_lines = inl TypeError) ->
    (forall dot_lines, 0 < none_count b -> natures_have_probability b ->
                       add_node float_repr b dot_lines = inl TypeError) ->
    0 < none_count a + none_count b ->
    natures_have_probability a -> natures_have_probability b ->
    forall dot_lines,
      connect (add_node float_repr) node_id a b la lb dot_lines
      = inl TypeError).
  { intros a b node_id la lb IHa IHb Hn Pa Pb dot_lines. unfold connect.
    destruct (node_id_of a) as [e|ida] eqn:Eida.
    { destruct a as [| | | [|] | ]; simpl in Eida; congruence. }
    destruct (node_id_of b) as [e|idb] eqn:Eidb.
    { destruct b as [| | | [|] | ]; simpl in Eidb; congruence. }
    destruct (none_count a) as [|na] eqn:Ha.
    - destruct (add_node_written a
                  (dot_lines ++ [edge_line node_id ida la;
                                 edge_line node_id idb lb]) Ha Pa)
        as (l1 & E1 & _).
      rewrite E1. apply IHb; [lia | exact Pb].
    - rewrite IHa; [reflexivity | lia | exact Pa]. }
  induction c as [i d m | i a IHa b IHb | i a IHa b IHb
                  | ty i a IHa b IHb p | ]; intros dot_lines Hn Hp;
    simpl in Hn; try lia; try reflexivity.
  - destruct (natures_have_probability_children _ a b Hp eq_refl) as [Pa Pb].
    cbn [add_node]. now apply Hconnect.
  - destruct (natures_have_probability_children _ a b Hp eq_refl) as [Pa Pb].
    cbn [add_node]. now apply Hconnect.
  - destruct (natures_have_probability_children _ a b Hp eq_refl) as [Pa Pb].
    destruct ty; cbn [add_node].
    + now apply Hconnect.
    + destruct p as [q|].
      * now apply Hconnect.
      * exfalso. inversion Hp as [|? ? Hd _]; subst. now apply Hd.
Qed.

End DotFacts.

Section DotTheorems.

Variable float_repr : float -> string.

Lemma xor_drawn_natures_have_probability cd c :
  Forall (xor_drawn cd) (nodes c) -> natures_have_probability c.
Proof.
  unfold natures_have_probability. intros H.
  eapply Forall_impl; [|exact H]. clear.
  intros [i d m | i a b | i a b | ty i a b p | ]; simpl; try discriminate.
  intros (u & _ & _ & Hp). destruct ty; [discriminate|].
  destruct Hp as (q & -> & _). discriminate.
Qed.

Lemma dot_lines_of_written c :
  none_count c = 0 -> natures_have_probability c ->
  exists lines,
    dot_lines_of float_repr c = inr lines
    /\ length lines = 2 * length (nodes c) + 2.
Proof.
  intros Hn Hp. unfold dot_lines_of.
  destruct (add_node_written float_repr c
              ["digraph G {"; "    node [shape=box];"] Hn Hp)
    as (lines & E & L).
  rewrite E. eexists; split; [reflexivity|].
  rewrite !length_app. simpl. lia.
Qed.

(** X17. [process_to_dot] writes an instance that holds no [None] (and
    whose nature nodes have their probability) in two lines for each of
    its dictionaries, the header, the node lines and the edge lines down
    to the closing brace; on an instance that holds a [None] it raises
    [TypeError] and writes nothing. *)
Theorem process_to_dot_writes_or_raises (c : cpi) :
  natures_have_probability c ->
  (none_count c = 0
   /\ exists lines,
       dot_lines_of float_repr c = inr lines
       /\ process_to_dot float_repr c = inr (join newline lines)
       /\ length lines = 2 * length (nodes c) + 2)
  \/ (0 < none_count c /\ process_to_dot float_repr c = inl TypeError).
Proof.
  intros Hp. destruct (none_count c) as [|n] eqn:Hn.
  - left. split; [reflexivity|].
    destruct (dot_lines_of_written c Hn Hp) as (lines & E & L).
    exists lines. unfold process_to_dot. now rewrite E.
  - right. split; [lia|].
    unfold process_to_dot, dot_lines_of.
    rewrite add_node_type_error; [reflexivity | lia | exact Hp].
Qed.

End DotTheorems.

Section BuildThenDot.

Context {RS : RandomSource}.

Variable float_repr : float -> string.

(** X18. An instance that [build] returns for a well-formed AST is
    written by [process_to_dot], in [2 * node_count + 2] lines; one that
    [build] returns for an AST with an empty region makes it raise
    [TypeError]. *)
Theorem process_to_dot_of_build
        (ast : tree) (choice_distribution : float)
        (duration_interval : Z * Z) (num_impacts : Z) (mode : string)
        (g : rng) (c : cpi) (g' : rng) :
  build ast choice_distribution duration_interval num_impacts mode g
  = Ok (c, g') ->
  (well_formed ast = true
   /\ exists lines,
       process_to_dot float_repr c = inr (join newline lines)
       /\ length lines = 2 * node_count ast + 2)
  \/ (well_formed ast = false
      /\ process_to_dot float_repr c = inl TypeError).
Proof.
  intros H.
  pose proof (xor_drawn_natures_have_probability _ _ (build_xor_drawn _ _ _ _ _ _ _ _ H))
    as Hp.
  apply build_Ok in H as (vectors & g1 & s' & Hgen & Hrun & _).
  pose proof (process_node_made _ _ _ _ _ _ _ Hrun) as (Hm & _).
  pose proof (mirrors_none_count _ _ Hm) as Hn.
  destruct (well_formed ast) eqn:Hwf.
  - left. split; [reflexivity|].
    assert (Hreg : region_count ast = 0) by now apply well_formed_region_count.
    destruct (dot_lines_of_written float_repr c ltac:(lia) Hp)
      as (lines & E & L).
    exists lines. unfold process_to_dot. rewrite E. split; [reflexivity|].
    rewrite L, length_nodes_ids.
    assert (Hids : length (ids c) = dict_count ast).
    { clear - Hm. revert c Hm.
      induction ast as [n | l IHl r IHr | l IHl r IHr | l IHl r IHr | ];
        intros [i d m | i a b | i a b | ty i a b p | ]; simpl;
        try contradiction; auto; intros [Ha Hb];
        now rewrite length_app, (IHl _ Ha), (IHr _ Hb). }
    now rewrite Hids, (well_formed_dict_count _ Hwf).
  - right. split; [reflexivity|].
    assert (Hreg : region_count ast <> 0).
    { intros E. apply well_formed_region_count in E. congruence. }
    unfold process_to_dot, dot_lines_of.
    rewrite add_node_type_error; [reflexivity | lia | exact Hp].
Qed.

End BuildThenDot.

(** * Properties of [get_process_from_file] *)

Section FileFacts.

Variable files : string -> option (list string).

Lemma find_line_spec lines : forall i z,
  find_line i lines z
  = if ((i <=? z) && (z <? i + Z.of_nat (length lines)))%Z
    then Some (strip (nth (Z.to_nat (z - i)) lines ""))
    else None.
Proof.
  induction lines as [|line rest IH]; intros i z.
  - simpl. destruct (Z.leb_spec i z), (Z.ltb_spec z (i + 0)); simpl;
      try reflexivity; lia.
  - cbn [find_line]. destruct (Z.eqb_spec i z) as [->|Hne].
    + rewrite Z.leb_refl.
      destruct (Z.ltb_spec z (z + Z.of_nat (length (line :: rest))));
        [|simpl length in *; lia].
      now rewrite Z.sub_diag.
    + rewrite IH. simpl length. rewrite Nat2Z.inj_succ.
      destruct (Z.leb_spec (i + 1) z), (Z.leb_spec i z); try lia; simpl;
        destruct (Z.ltb_spec z (i + 1 + Z.of_nat (length rest))),
          (Z.ltb_spec z (i + Z.succ (Z.of_nat (length rest))));
        try lia; try reflexivity.
      replace (Z.to_nat (z - i)) with (S (Z.to_nat (z - (i + 1)))) by lia.
      reflexivity.
Qed.

(** X19. [get_process_from_file] has three outcomes: [FileNotFoundError]
    when the file is missing; the [z]-th line of the file, counted from 1,
    without the whitespace at its ends, when the file has at least [z]
    lines and [z >= 1]; the [ValueError] in every other case, [z <= 0]
    included. *)
Theorem get_process_from_file_outcomes (x y z : Z) :
  (files (process_filename x y) = None
   /\ get_process_from_file files x y z = inl FileNotFoundError)
  \/ (exists lines,
         files (process_filename x y) = Some lines
         /\ (1 <= z <= Z.of_nat (length lines))%Z
         /\ get_process_from_file files x y z
            = inr (strip (nth (Z.to_nat (z - 1)) lines "")))
  \/ (exists lines,
         files (process_filename x y) = Some lines
         /\ ~ (1 <= z <= Z.of_nat (length lines))%Z
         /\ get_process_from_file files x y z = inl LineValueError).
Proof.
  unfold get_process_from_file.
  destruct (files (process_filename x y)) as [lines|]; [|now left].
  right. rewrite find_line_spec.
  destruct (Z.leb_spec 1 z), (Z.ltb_spec z (1 + Z.of_nat (length lines)));
    simpl.
  - left. exists lines. repeat split; auto; lia.
  - right. exists lines. repeat split; auto; lia.
  - right. exists lines. repeat split; auto; lia.
  - right. exists lines. repeat split; auto; lia.
Qed.

Lemma lstrip_head s c rest : lstrip s = String c rest -> py_isspace c = false.
Proof.
  induction s as [|c0 s IH]; simpl; [discriminate|].
  destruct (py_isspace c0) eqn:E; [exact IH|].
  now intros [= <- _].
Qed.

Lemma lstrip_suffix s : exists w, s = (w ++ lstrip s)%string.
Proof.
  induction s as [|c s [w IH]]; simpl.
  - now exists "".
  - destruct (py_isspace c).
    + exists (String c w). simpl. now rewrite <- IH.
    + now exists "".
Qed.

Lemma rstrip_last s r c :
  rstrip s = (r ++ String c "")%string -> py_isspace c = false.
Proof.
  revert r; induction s as [|c0 s IH]; intros r; simpl.
  - destruct r; discriminate.
  - destruct (rstrip s) as [|c1 r1] eqn:E.
    + destruct (py_isspace c0) eqn:E0.
      * destruct r; discriminate.
      * destruct r as [|c2 [|c3 r]]; simpl; try discriminate.
        now intros [= <-].
    + destruct r as [|c2 r]; simpl; [discriminate|].
      intros [= _ H]. now apply (IH r).
Qed.

Lemma append_assoc (a b c : string) :
  ((a ++ b) ++ c)%string = (a ++ (b ++ c))%string.
Proof. induction a; simpl; [reflexivity | now rewrite IHa]. Qed.

(** X20. A line that [get_process_from_file] returns has no whitespace
    at either end: its line terminator is gone. *)
Theorem get_process_from_file_stripped (x y z : Z) (line : string) :
  get_process_from_file files x y z = inr line ->
  (forall c rest, line = String c rest -> py_isspace c = false)
  /\ (forall r c, line = (r ++ String c "")%string -> py_isspace c = false).
Proof.
  unfold get_process_from_file.
  destruct (files (process_filename x y)) as [lines|]; [|discriminate].
  rewrite find_line_spec.
  destruct ((1 <=? z)%Z && (z <? 1 + Z.of_nat (length lines))%Z);
    [|discriminate].
  intros [= <-]. unfold strip.
  set (t := nth (Z.to_nat (z - 1)) lines "").
  split.
  - intros c rest H. now apply lstrip_head in H.
  - intros r c H. destruct (lstrip_suffix (rstrip t)) as [w Hw].
    rewrite H, <- append_assoc in Hw. now apply rstrip_last in Hw.
Qed.

End FileFacts.

(** * Mode ["bagging_remove_reverse_divide"] *)

Section ReverseDivide.

Context {RS : RandomSource}.

Lemma nonzero_from_filter v : forall j,
  nonzero_from j v
  = filter (fun k => negb (Qeq_bool (nth (k - j) v 0%Q) 0))
           (seq j (length v)).
Proof.
  induction v as [|x v IH]; intros j; [reflexivity|].
  cbn [nonzero_from length seq filter].
  rewrite Nat.sub_diag. cbn [nth].
  rewrite IH.
  assert (E : filter (fun k => negb (Qeq_bool (nth (k - S j) v 0%Q) 0))
                     (seq (S j) (length v))
              = filter (fun k => negb (Qeq_bool (nth (k - j) (x :: v) 0%Q) 0))
                       (seq (S j) (length v))).
  { apply filter_ext_in. intros k Hk. apply in_seq in Hk.
    replace (k - j) with (S (k - S j)) by lia. reflexivity. }
  rewrite E. now destruct (Qeq_bool x 0).
Qed.

Lemma np_nonzero_filter v :
  np_nonzero v
  = filter (fun k => negb (Qeq_bool (nth k v 0%Q) 0)) (seq 0 (length v)).
Proof.
  unfold np_nonzero. rewrite nonzero_from_filter.
  apply filter_ext. intros k. now rewrite Nat.sub_0_r.
Qed.

(** What [np.nonzero] finds once the picked positions are set to 0. *)
Lemma np_nonzero_zeroed indexes base nv :
  length nv = length base ->
  (forall k, k < length base ->
             nth k nv 0%Q = if picked indexes k then 0%Q else nth k base 0%Q) ->
  np_nonzero nv = left_nonzero indexes base.
Proof.
  intros Hlen Hpt. rewrite np_nonzero_filter. unfold left_nonzero, float in *.
  rewrite Hlen.
  apply filter_ext_in. intros k Hk. apply in_seq in Hk.
  rewrite Hpt by lia. now destruct (picked indexes k).
Qed.

Lemma left_nonzero_In indexes base k :
  In k (left_nonzero indexes base) ->
  k < length base /\ picked indexes k = false.
Proof.
  unfold left_nonzero. intros H. apply filter_In in H as [Hk Hb].
  apply in_seq in Hk. apply andb_true_iff in Hb as [Hp _].
  split; [lia|]. now destruct (picked indexes k).
Qed.

(** The second picks are drawn from the positions left non-zero. *)
Lemma returns_choices nz g :
  nz <> [] ->
  forall m,
    returns (repeatM m (choice nz)) g
            (fun l _ => Forall (fun k => In k nz) l).
Proof.
  intros Hne m. eapply returns_weaken.
  - apply (returns_repeatM _ (fun k => In k nz) (fun _ => True)); [|exact I].
    intros s _. unfold returns, choice.
    destruct nz as [|k0 nz']; [congruence|].
    destruct (random_choice (k0 :: nz') s) as [a s'] eqn:E.
    exists a, s'; split; [reflexivity|]. split; [|exact I].
    pose proof (random_choice_In (k0 :: nz') s Hne) as R.
    now rewrite E in R.
  - intros l s' (Hl & _ & _). exact Hl.
Qed.

Lemma times_chosen_cons i positions k :
  times_chosen (i :: positions) k
  = (if (k =? i)%nat then 1 else 0) + times_chosen positions k.
Proof.
  unfold times_chosen. simpl.
  destruct (Nat.eq_dec i k), (Nat.eqb_spec k i);
    try reflexivity; congruence.
Qed.

Lemma times_chosen_outside positions k :
  ~ In k positions -> times_chosen positions k = 0.
Proof. intros H. unfold times_chosen. now apply count_occ_not_In. Qed.

(** [nv[i] /= 10] for each chosen position: a position is divided once
    for each time it was chosen. *)
Lemma returns_divide_at_positions_pointwise n positions :
  Forall (fun k => k < n) positions ->
  forall v (g : rng), length v = n ->
  returns (for_each (fun i nv => x <- lift (getitem nv (Z.of_nat i)) ;;
                                 lift (setitem nv (Z.of_nat i) (float_div10 x)))
                    positions v) g
          (fun v' g' =>
             g' = g /\ length v' = n
             /\ forall k, k < n ->
                          nth k v' 0%Q
                          = divided (times_chosen positions k) (nth k v 0%Q)).
Proof.
  intros Hidx. induction Hidx as [|i rest Hi _ IH]; intros v g Hv.
  - simpl. apply returns_ret. auto.
  - cbn [for_each].
    apply returns_bind, returns_bind.
    eapply returns_lift; [apply getitem_in_range; rewrite Hv; lia|].
    eapply returns_lift; [apply setitem_in_range; rewrite Hv; lia|].
    rewrite Nat2Z.id.
    eapply returns_weaken;
      [apply IH; now rewrite length_set_nth|].
    intros v' g' (-> & Hlen & Hpt). repeat split; auto.
    intros k Hk. rewrite Hpt, times_chosen_cons by exact Hk.
    rewrite nth_set_nth by lia.
    destruct (Nat.eqb_spec k i) as [->|]; [|reflexivity].
    simpl Nat.add. apply divided_succ.
Qed.

(** X21. Mode ["bagging_remove_reverse_divide"]: the picked positions
    are set to 0; then, when some position is left with a non-zero value,
    as many positions as the dimension are chosen among those left
    non-zero, and each is divided by 10 once for each time it was chosen,
    each quotient being the float64 that the division gives. When no
    position is left non-zero nothing more is drawn. A picked position
    holds 0 in the end; no index is ever out of range. *)
Theorem generate_vector_bagging_remove_reverse_divide (dim : Z) (g : rng) :
  (0 <= dim)%Z ->
  exists base g1 indexes g2 divide_indexes g3 v,
    np_random dim g = Ok (base, g1)
    /\ repeatM (Z.to_nat dim) (randint 0 (dim - 1)) g1 = Ok (indexes, g2)
    /\ match left_nonzero indexes base with
       | [] => divide_indexes = [] /\ g3 = g2
       | _ :: _ =>
           repeatM (Z.to_nat dim) (choice (left_nonzero indexes base)) g2
           = Ok (divide_indexes, g3)
       end
    /\ Forall (fun i => In i (left_nonzero indexes base)) divide_indexes
    /\ generate_vector dim "bagging_remove_reverse_divide" g = Ok (v, g3)
    /\ length v = Z.to_nat dim
    /\ forall k, k < Z.to_nat dim ->
                 nth k v 0%Q
                 = if picked indexes k then 0%Q
                   else divided (times_chosen divide_indexes k)
                                (nth k base 0%Q).
Proof.
  intros Hdim.
  destruct (returns_base_and_picks dim g Hdim)
    as (base & g1 & indexes & g2 & Hbp).
  pose proof Hbp as (Hb & Hlen & Hi & Hidx).
  destruct (returns_zero_out_pointwise _ indexes Hidx base g2 Hlen)
    as (nv & g' & Hzero & -> & Hnv & Hpt).
  assert (Hnz : np_nonzero nv = left_nonzero indexes base).
  { apply np_nonzero_zeroed;
      [etransitivity; [exact Hnv | symmetry; exact Hlen]|].
    intros k Hk. apply Hpt.
    unfold float in *. now rewrite <- Hlen. }
  pose proof (generate_vector_after_picks
                _ "bagging_remove_reverse_divide" _ _ _ _ _ Hbp eq_refl)
    as Hgen.
  cbn [String.eqb Ascii.eqb Bool.eqb] in Hgen.
  rewrite (bind_after _ _ _ _ _ Hzero) in Hgen. cbv zeta in Hgen.
  rewrite Hnz in Hgen.
  destruct (left_nonzero indexes base) as [|k0 nz] eqn:Hleft.
  - exists base, g1, indexes, g2, [], g2, nv. rewrite Hleft.
    do 2 (split; [assumption|]).
    split; [auto|]. split; [constructor|].
    split; [exact Hgen|]. split; [exact Hnv|].
    intros k Hk. rewrite Hpt by exact Hk.
    now destruct (picked indexes k).
  - destruct (returns_choices (k0 :: nz) g2 ltac:(discriminate)
                              (Z.to_nat dim))
      as (dl & g3 & Hdl & Hin).
    assert (Hbound : Forall (fun k => k < Z.to_nat dim) dl).
    { eapply Forall_impl; [|exact Hin]. intros k Hk. cbv beta in Hk.
      rewrite <- Hleft in Hk. apply left_nonzero_In in Hk. lia. }
    destruct (returns_divide_at_positions_pointwise _ dl Hbound nv g3 Hnv)
      as (v & g4 & Hrun & -> & Hv & Hdiv).
    exists base, g1, indexes, g2, dl, g3, v. rewrite Hleft.
    do 3 (split; [assumption|]).
    split; [exact Hin|].
    split.
    { rewrite Hgen. cbn [length Nat.ltb Nat.leb].
      rewrite (bind_after _ _ _ _ _ Hdl). exact Hrun. }
    split; [exact Hv|].
    intros k Hk. rewrite Hdiv, Hpt by exact Hk.
    destruct (picked indexes k) eqn:Hpk; [|reflexivity].
    rewrite times_chosen_outside; [reflexivity|].
    intros Hk'. rewrite Forall_forall in Hin. apply Hin in Hk'.
    rewrite <- Hleft in Hk'. apply left_nonzero_In in Hk'.
    destruct Hk' as [_ Hk']. congruence.
Qed.

End ReverseDivide.

(** * Properties of [generate_cpi_bundle] *)

Section Combinations.

Lemma length_py_range a b : length (py_range a b) = Z.to_nat (b - a).
Proof. unfold py_range. now rewrite length_map, length_seq. Qed.

Lemma nth_py_range a b i :
  i < Z.to_nat (b - a) -> nth i (py_range a b) 0%Z = (a + Z.of_nat i)%Z.
Proof.
  intros Hi. unfold py_range.
  set (f := fun i => (a + Z.of_nat i)%Z).
  rewrite (nth_indep _ 0%Z (f 0)) by now rewrite length_map, length_seq.
  rewrite map_nth, seq_nth by exact Hi. reflexivity.
Qed.

Lemma length_flat_map_uniform {A B} (f : A -> list B) m l :
  (forall a, length (f a) = m) -> length (flat_map f l) = length l * m.
Proof.
  intros Hf. induction l as [|a l IH]; simpl; [reflexivity|].
  now rewrite length_app, Hf, IH.
Qed.

Lemma nth_flat_map_uniform {A B} (f : A -> list B) m l da db :
  (forall a, length (f a) = m) ->
  forall i j, i < length l -> j < m ->
    nth (i * m + j) (flat_map f l) db = nth j (f (nth i l da)) db.
Proof.
  intros Hf. induction l as [|a l IH]; intros i j Hi Hj; simpl in Hi; [lia|].
  cbn [flat_map]. destruct i as [|i].
  - simpl. rewrite app_nth1; [reflexivity | now rewrite Hf].
  - rewrite app_nth2 by (rewrite Hf; simpl; lia).
    rewrite Hf. replace (S i * m + j - m) with (i * m + j) by (simpl; lia).
    cbn [nth]. apply IH; lia.
Qed.

Lemma index_bound i n j m : i < n -> j < m -> i * m + j < n * m.
Proof. intros Hi Hj. nia. Qed.

Lemma length_product4 {A B C D} (la : list A) (lb : list B) (lc : list C)
      (ld : list D) :
  length (product4 la lb lc ld)
  = length la * (length lb * (length lc * length ld)).
Proof.
  unfold product4.
  apply length_flat_map_uniform. intros a.
  apply length_flat_map_uniform. intros b.
  apply length_flat_map_uniform. intros c.
  apply length_map.
Qed.

Lemma nth_product4 {A B C D} (la : list A) (lb : list B) (lc : list C)
      (ld : list D) da db dc dd ia ib ic id :
  ia < length la -> ib < length lb -> ic < length lc -> id < length ld ->
  nth (((ia * length lb + ib) * length lc + ic) * length ld + id)
      (product4 la lb lc ld) (da, db, dc, dd)
  = (nth ia la da, nth ib lb db, nth ic lc dc, nth id ld dd).
Proof.
  intros Ha Hb Hc Hd. unfold product4.
  replace (((ia * length lb + ib) * length lc + ic) * length ld + id)
    with (ia * (length lb * (length lc * length ld))
          + (ib * (length lc * length ld) + (ic * length ld + id)))
    by ring.
  rewrite (nth_flat_map_uniform _ (length lb * (length lc * length ld))
                                _ da).
  - rewrite (nth_flat_map_uniform _ (length lc * length ld) _ db).
    + rewrite (nth_flat_map_uniform _ (length ld) _ dc).
      * set (f := fun d => (nth ia la da, nth ib lb db, nth ic lc dc, d)).
        rewrite (nth_indep _ _ (f dd)) by now rewrite length_map.
        now rewrite map_nth.
      * intros c. apply length_map.
      * exact Hc.
      * exact Hd.
    + intros b. apply length_flat_map_uniform. intros c. apply length_map.
    + exact Hb.
    + now apply index_bound.
  - intros a. apply length_flat_map_uniform. intros b.
    apply length_flat_map_uniform. intros c. apply length_map.
  - exact Ha.
  - apply index_bound; [exact Hb | now apply index_bound].
Qed.

(** X22. When neither range is inverted, the loop of
    [generate_cpi_bundle] makes exactly as many turns as the total given
    to the progress bar. *)
Theorem combinations_count_is_total
        (z_range impact_dims_range : Z * Z)
        (choice_distributions : list float)
        (generation_modes : list string) :
  (fst z_range <= snd z_range + 1)%Z ->
  (fst impact_dims_range <= snd impact_dims_range + 1)%Z ->
  Z.of_nat (length (combinations z_range impact_dims_range
                                 choice_distributions generation_modes))
  = total_combinations z_range impact_dims_range
                       choice_distributions generation_modes.
Proof.
  intros Hz Hd. unfold combinations, total_combinations.
  rewrite length_product4, !length_py_range.
  rewrite !Nat2Z.inj_mul, !Z2Nat.id by lia. ring.
Qed.

(** X23. When both ranges are inverted by more than one, the loop makes
    no turn at all, yet the total given to the progress bar is positive. *)
Theorem combinations_inverted_ranges
        (z_range impact_dims_range : Z * Z)
        (choice_distributions : list float)
        (generation_modes : list string) :
  (snd z_range + 1 < fst z_range)%Z ->
  (snd impact_dims_range + 1 < fst impact_dims_range)%Z ->
  choice_distributions <> [] ->
  generation_modes <> [] ->
  combinations z_range impact_dims_range
               choice_distributions generation_modes = []
  /\ (0 < total_combinations z_range impact_dims_range
                             choice_distributions generation_modes)%Z.
Proof.
  intros Hz Hd Hc Hm. split.
  - unfold combinations, py_range.
    replace (Z.to_nat (snd z_range + 1 - fst z_range)) with 0 by lia.
    reflexivity.
  - unfold total_combinations.
    assert (0 < Z.of_nat (length choice_distributions))%Z
      by (destruct choice_distributions; [congruence | simpl length; lia]).
    assert (0 < Z.of_nat (length generation_modes))%Z
      by (destruct generation_modes; [congruence | simpl length; lia]).
    assert (0 < (snd z_range - fst z_range + 1)
                * (snd impact_dims_range - fst impact_dims_range + 1))%Z
      by nia.
    nia.
Qed.

(** X24. The order of the turns: the generation mode advances fastest,
    then the choice distribution, then the number of impacts, then [z];
    both ranges go up by one from their lower bound. *)
Theorem combinations_order
        (z_range impact_dims_range : Z * Z)
        (choice_distributions : list float)
        (generation_modes : list string)
        (iz id ic im : nat) :
  iz < Z.to_nat (snd z_range - fst z_range + 1) ->
  id < Z.to_nat (snd impact_dims_range - fst impact_dims_range + 1) ->
  ic < length choice_distributions ->
  im < length generation_modes ->
  nth (((iz * Z.to_nat (snd impact_dims_range - fst impact_dims_range + 1)
         + id) * length choice_distributions + ic)
       * length generation_modes + im)
      (combinations z_range impact_dims_range
                    choice_distributions generation_modes)
      (0%Z, 0%Z, 0%Q, "")
  = ((fst z_range + Z.of_nat iz)%Z,
     (fst impact_dims_range + Z.of_nat id)%Z,
     nth ic choice_distributions 0%Q,
     nth im generation_modes "").
Proof.
  intros Hz Hd Hc Hm. unfold combinations.
  replace (Z.to_nat (snd impact_dims_range - fst impact_dims_range + 1))
    with (length (py_range (fst impact_dims_range)
                           (snd impact_dims_range + 1))) in *
    by (rewrite length_py_range; f_equal; lia).
  assert (Hz' : iz < length (py_range (fst z_range) (snd z_range + 1)))
    by (rewrite length_py_range; lia).
  rewrite nth_product4 by assumption.
  rewrite length_py_range in Hz', Hd.
  now rewrite !nth_py_range by assumption.
Qed.

End Combinations.

Section BundleFacts.

Context {RS : RandomSource}.

Variable files : string -> option (list string).

Lemma rstrip_blank s :
  forallb py_isspace (list_ascii_of_string s) = true -> rstrip s = "".
Proof.
  induction s as [|c s IH]; simpl; [reflexivity|].
  intros H. apply andb_true_iff in H as [Hc Hs].
  now rewrite (IH Hs), Hc.
Qed.

Lemma strip_blank s :
  forallb py_isspace (list_ascii_of_string s) = true -> strip s = "".
Proof. intros H. unfold strip. now rewrite rstrip_blank. Qed.

Lemma mirrors_Region c : mirrors Region c -> c = PyNone.
Proof. destruct c; simpl; tauto. Qed.

Lemma mirrors_not_Region ast c : mirrors ast c -> ast <> Region -> c <> PyNone.
Proof. intros H Hne ->. destruct ast; simpl in H; tauto. Qed.

Lemma build_mirrors ast cd di ni mode g c g' :
  build ast cd di ni mode g = Ok (c, g') -> mirrors ast c.
Proof.
  intros H. apply build_Ok in H as (vectors & g1 & s' & _ & Hp & _).
  now apply process_node_made in Hp as (Hm & _).
Qed.

Lemma set_metadata_not_none c m : c <> PyNone -> set_metadata c m = inr (c, m).
Proof. destruct c; simpl; congruence. Qed.

(** X25. One turn of the loop has four outcomes. The exception of
    [get_process_from_file], and the exception of [translate_to_cpi], are
    what the [except] clause gets, unchanged. When [translate_to_cpi]
    returns, it returns [None] exactly when the line parses to the empty
    region, and then setting the ['metadata'] raises [TypeError]: nothing
    is appended. In every other case the CPI it returned is appended, with
    the shape of the tree and the metadata of the combination. *)
Theorem bundle_item_outcomes
        (x y : Z) (duration_interval : Z * Z) (z num_impacts : Z)
        (choice_dist : float) (mode : string) (g : rng) :
  (exists e,
      get_process_from_file files x y z = inl e
      /\ bundle_item files x y duration_interval
                     (z, num_impacts, choice_dist, mode) g
         = inl (FromFile e))
  \/ exists line,
      get_process_from_file files x y z = inr line
      /\ ((exists e,
              translate_to_cpi line choice_dist duration_interval
                               num_impacts mode g = Raise e
              /\ bundle_item files x y duration_interval
                             (z, num_impacts, choice_dist, mode) g
                 = inl (FromTranslate e))
          \/ (exists g',
                 parse line = Ok Region
                 /\ translate_to_cpi line choice_dist duration_interval
                                     num_impacts mode g = Ok (PyNone, g')
                 /\ bundle_item files x y duration_interval
                                (z, num_impacts, choice_dist, mode) g
                    = inl NoItemAssignment)
          \/ (exists ast c g',
                 parse line = Ok ast
                 /\ ast <> Region
                 /\ translate_to_cpi line choice_dist duration_interval
                                     num_impacts mode g = Ok (c, g')
                 /\ mirrors ast c
                 /\ c <> PyNone
                 /\ bundle_item files x y duration_interval
                                (z, num_impacts, choice_dist, mode) g
                    = inr (c, Metadata x y z num_impacts choice_dist mode
                                       duration_interval, g'))).
Proof.
  cbn [bundle_item].
  destruct (get_process_from_file files x y z) as [e|line];
    [left; now exists e|].
  right. exists line. split; [reflexivity|].
  destruct (translate_to_cpi line choice_dist duration_interval
                             num_impacts mode g) as [[c g']|e] eqn:Ht;
    [|left; now exists e].
  right.
  unfold translate_to_cpi in Ht.
  destruct (parse line) as [ast|e] eqn:Hp; [|discriminate].
  pose proof (build_mirrors _ _ _ _ _ _ _ _ Ht) as Hm.
  assert (Hreg : ast = Region \/ ast <> Region)
    by (destruct ast; auto; right; discriminate).
  destruct Hreg as [->|Hne].
  - left. apply mirrors_Region in Hm. subst c. exists g'.
    repeat split; reflexivity.
  - right. exists ast, c, g'.
    assert (Hc : c <> PyNone) by (eapply mirrors_not_Region; eauto).
    rewrite (set_metadata_not_none _ _ Hc).
    repeat split; solve [reflexivity | assumption].
Qed.

(** X26. A blank line of the file gives no CPI, whatever the other
    parameters, valid or not: the line is stripped to the empty text, the
    empty text parses, [translate_to_cpi] returns [None] without drawing
    anything, and setting its ['metadata'] raises [TypeError]. *)
Theorem bundle_item_blank_line
        (x y : Z) (duration_interval : Z * Z) (z num_impacts : Z)
        (choice_dist : float) (mode : string) (g : rng)
        (lines : list string) :
  files (process_filename x y) = Some lines ->
  (1 <= z <= Z.of_nat (length lines))%Z ->
  forallb py_isspace
          (list_ascii_of_string (nth (Z.to_nat (z - 1)) lines "")) = true ->
  translate_to_cpi "" choice_dist duration_interval num_impacts mode g
  = Ok (PyNone, g)
  /\ bundle_item files x y duration_interval
                 (z, num_impacts, choice_dist, mode) g
     = inl NoItemAssignment.
Proof.
  intros Hf Hz Hblank.
  assert (Ht : translate_to_cpi "" choice_dist duration_interval
                                num_impacts mode g = Ok (PyNone, g)).
  { unfold translate_to_cpi.
    change (parse "") with (Ok Region). unfold build. cbn [count_tasks].
    now rewrite generate_vectors_none by reflexivity. }
  split; [exact Ht|].
  cbn [bundle_item]. unfold get_process_from_file.
  rewrite Hf, find_line_spec.
  destruct (Z.leb_spec 1 z); [|lia].
  destruct (Z.ltb_spec z (1 + Z.of_nat (length lines))); [|lia].
  cbn [andb]. rewrite strip_blank by exact Hblank.
  now rewrite Ht.
Qed.

End BundleFacts.

(** * Parentheses around a text *)

Section Parenthesized.

Lemma ws_inline_not_name c :
  is_ws_inline c = true -> is_name_start c = false.
Proof.
  destruct c as [[] [] [] [] [] [] [] []]; vm_compute;
    intros H; try discriminate H; reflexivity.
Qed.

Lemma single_punct_lexed c tok rest :
  single_punct c = Some tok ->
  tokenize_from None (String c rest)
  = option_map (cons tok) (tokenize_from None rest).
Proof.
  destruct c as [[] [] [] [] [] [] [] []]; intros H; vm_compute in H;
    try discriminate H; injection H as <-; reflexivity.
Qed.

(** The lexer reads every text that [lexed] describes. *)
Lemma lexed_tokenize_from pending s ts :
  lexed pending s ts -> tokenize_from pending s = Some ts.
Proof.
  induction 1 as [ | n | c rest ts Hc _ IH | n c rest ts Hc _ IH
                 | n c rest ts Hc _ IH | c rest ts Hc _ IH
                 | c tok rest ts Hc _ IH | rest ts _ IH ].
  - reflexivity.
  - reflexivity.
  - cbn [tokenize_from]. now rewrite Hc.
  - cbn [tokenize_from]. now rewrite Hc.
  - rewrite tokenize_from_flush by exact Hc. now rewrite IH.
  - cbn [tokenize_from]. now rewrite (ws_inline_not_name c Hc), Hc.
  - rewrite (single_punct_lexed c tok rest Hc). now rewrite IH.
  - change (tokenize_from None (String "|" (String "|" rest)))
      with (option_map (cons VBARVBAR) (tokenize_from None rest)).
    now rewrite IH.
Qed.

Lemma lexed_closed pending s ts :
  lexed pending s ts -> lexed pending (s ++ ")") (ts ++ [RPAR]).
Proof.
  induction 1 as [ | n | c rest ts Hc _ IH | n c rest ts Hc _ IH
                 | n c rest ts Hc _ IH | c rest ts Hc _ IH
                 | c tok rest ts Hc _ IH | rest ts _ IH ]; cbn [append app].
  - apply (lexed_punct ")" RPAR); [reflexivity | constructor].
  - apply lexed_flush; [reflexivity|].
    apply (lexed_punct ")" RPAR); [reflexivity | constructor].
  - now apply lexed_start.
  - now apply lexed_extend.
  - now apply lexed_flush.
  - now apply lexed_ws.
  - now apply lexed_punct.
  - now apply lexed_vbarvbar.
Qed.

(** X4. Parentheses leave no trace in the AST: a text that parses to a
    tree parses to the same tree when it is put between parentheses. *)
Theorem parse_parenthesized (text : string) (t : tree) :
  parse text = Ok t ->
  parse ("(" ++ text ++ ")") = Ok t.
Proof.
  intros H. apply parse_Ok_tokens in H as (ts & Hlex & Hparse).
  apply tokenize_lexed, lexed_closed in Hlex.
  apply (lexed_punct "(" LPAR) in Hlex; [|reflexivity].
  apply lexed_tokenize_from in Hlex.
  unfold parse, tokenize. cbn [append].
  rewrite Hlex, (parse_tokens_parenthesized ts t Hparse). reflexivity.
Qed.

End Parenthesized.

(** * The further properties on concrete inputs *)

Lemma parse_keeps_names_and_operators_witness :
  parse "a, (b ^ c)" = Ok (Sequential (Task "a") (Xor (Task "b") (Task "c")))
  /\ exists ts,
      tokenize "a, (b ^ c)" = Some ts
      /\ task_leaves (Sequential (Task "a") (Xor (Task "b") (Task "c")))
         = token_names ts
      /\ binary_count (Sequential (Task "a") (Xor (Task "b") (Task "c")))
         = count_tokens is_operator ts
      /\ (well_formed (Sequential (Task "a") (Xor (Task "b") (Task "c")))
          = true
          <-> length (token_names ts) = count_tokens is_operator ts + 1).
Proof.
  split; [reflexivity|].
  apply (parse_keeps_names_and_operators "a, (b ^ c)"). reflexivity.
Defined.

Lemma conforms_unique_witness :
  conforms "a^b" (Xor (Task "a") (Task "b"))
  /\ (Xor (Task "a") (Task "b") = Xor (Task "a") (Task "b")
      /\ parse "a^b" = Ok (Xor (Task "a") (Task "b"))).
Proof.
  assert (H : conforms "a^b" (Xor (Task "a") (Task "b")))
    by (apply parse_ok_iff_conforms; reflexivity).
  split; [exact H|].
  exact (conforms_unique "a^b" _ _ H H).
Defined.

Lemma parse_balanced_parentheses_witness :
  parse "(a,(b))" = Ok (Sequential (Task "a") (Task "b"))
  /\ exists ts,
      tokenize "(a,(b))" = Some ts
      /\ count_tokens is_lpar ts = count_tokens is_rpar ts
      /\ forall ts1 ts2, ts = ts1 ++ ts2 ->
                         count_tokens is_rpar ts1 <= count_tokens is_lpar ts1.
Proof.
  split; [reflexivity|].
  apply (parse_balanced_parentheses "(a,(b))" (Sequential (Task "a") (Task "b"))).
  reflexivity.
Defined.

Lemma parse_task_names_are_identifiers_witness :
  parse "t_1 || _x2" = Ok (Parallel (Task "t_1") (Task "_x2"))
  /\ Forall (fun n => is_cname n = true)
            (task_leaves (Parallel (Task "t_1") (Task "_x2"))).
Proof.
  split; [reflexivity|].
  apply (parse_task_names_are_identifiers "t_1 || _x2"). reflexivity.
Defined.

Lemma parse_refuses_foreign_character_witness :
  In "&"%char (list_ascii_of_string "a & b")
  /\ in_alphabet "&" = false
  /\ parse "a & b" = Raise UnexpectedInput.
Proof.
  assert (H : In "&"%char (list_ascii_of_string "a & b"))
    by (simpl; auto).
  split; [exact H|]. split; [reflexivity|].
  exact (parse_refuses_foreign_character "a & b" "&" H eq_refl).
Defined.

Lemma generate_vector_bagging_remove_witness :
  (0 <= 3)%Z
  /\ exists base g1 indexes g2 v,
      np_random (RS := tape_source) 3 4 = Ok (base, g1)
      /\ repeatM (Z.to_nat 3) (randint 0 (3 - 1)) g1 = Ok (indexes, g2)
      /\ generate_vector 3 "bagging_remove" 4 = Ok (v, g2)
      /\ length v = Z.to_nat 3
      /\ forall k, k < Z.to_nat 3 ->
                   nth k v 0%Q = if picked indexes k then nth k base 0%Q
                                 else 0%Q.
Proof.
  split; [lia|].
  apply (generate_vector_bagging_remove (RS := tape_source) 3 4). lia.
Defined.

Lemma generate_vector_bagging_remove_divide_witness :
  (0 <= 3)%Z
  /\ exists base g1 indexes g2 v,
      np_random (RS := tape_source) 3 4 = Ok (base, g1)
      /\ repeatM (Z.to_nat 3) (randint 0 (3 - 1)) g1 = Ok (indexes, g2)
      /\ generate_vector 3 "bagging_remove_divide" 4 = Ok (v, g2)
      /\ length v = Z.to_nat 3
      /\ forall k, k < Z.to_nat 3 ->
                   nth k v 0%Q = if picked indexes k
                                 then float_div10 (nth k base 0%Q)
                                 else 0%Q.
Proof.
  split; [lia|].
  apply (generate_vector_bagging_remove_divide (RS := tape_source) 3 4). lia.
Defined.

Lemma generate_vector_bagging_remove_reverse_witness :
  (0 <= 3)%Z
  /\ exists base g1 indexes g2 v,
      np_random (RS := tape_source) 3 4 = Ok (base, g1)
      /\ repeatM (Z.to_nat 3) (randint 0 (3 - 1)) g1 = Ok (indexes, g2)
      /\ generate_vector 3 "bagging_remove_reverse" 4 = Ok (v, g2)
      /\ length v = Z.to_nat 3
      /\ forall k, k < Z.to_nat 3 ->
                   nth k v 0%Q = if picked indexes k then 0%Q
                                 else nth k base 0%Q.
Proof.
  split; [lia|].
  apply (generate_vector_bagging_remove_reverse (RS := tape_source) 3 4). lia.
Defined.

Lemma generate_vector_bagging_divide_witness :
  (0 <= 3)%Z
  /\ exists base g1 indexes g2 v,
      np_random (RS := tape_source) 3 4 = Ok (base, g1)
      /\ repeatM (Z.to_nat 3) (randint 0 (3 - 1)) g1 = Ok (indexes, g2)
      /\ generate_vector 3 "bagging_divide" 4 = Ok (v, g2)
      /\ length v = Z.to_nat 3
      /\ forall k, k < Z.to_nat 3 ->
                   nth k v 0%Q
                   = divided (times_picked indexes k) (nth k base 0%Q).
Proof.
  split; [lia|].
  apply (generate_vector_bagging_divide (RS := tape_source) 3 4). lia.
Defined.

Lemma generate_vector_unknown_mode_witness :
  (0 <= 3)%Z
  /\ ~ In "bagging" modes_of_generate_vectors
  /\ generate_vector (RS := tape_source) 3 "random" 4 = np_random 3 4
  /\ exists base g1 indexes g2,
      np_random (RS := tape_source) 3 4 = Ok (base, g1)
      /\ repeatM (Z.to_nat 3) (randint 0 (3 - 1)) g1 = Ok (indexes, g2)
      /\ generate_vector 3 "bagging" 4 = Ok (base, g2).
Proof.
  assert (H : ~ In "bagging" modes_of_generate_vectors)
    by (simpl; intros [E|[E|[E|[E|[E|[E|[]]]]]]]; discriminate E).
  split; [lia|]. split; [exact H|].
  apply (generate_vector_unknown_mode (RS := tape_source) 3 "bagging" 4);
    [lia | exact H].
Defined.

Lemma build_durations_in_interval_witness :
  exists c g',
    build (RS := tape_source) (Xor (Sequential (Task "a") (Task "b")) (Task "c"))
          (1 # 2) (3, 7)%Z 2 "random" 0 = Ok (c, g')
    /\ Forall (fun d => (fst (3, 7) <= d <= snd (3, 7))%Z) (task_durations c).
Proof.
  do 2 eexists. split; [vm_compute; reflexivity|].
  refine (build_durations_in_interval
            (RS := tape_source)
            (Xor (Sequential (Task "a") (Task "b")) (Task "c"))
            (1 # 2) (3, 7)%Z 2 "random" 0 _ 11 _).
  vm_compute; reflexivity.
Defined.

Lemma build_impact_keys_witness :
  exists c g',
    build (RS := tape_source) (Xor (Sequential (Task "a") (Task "b")) (Task "c"))
          (1 # 2) (3, 7)%Z 2 "random" 0 = Ok (c, g')
    /\ Forall (fun m => map fst m = impact_keys (Z.to_nat 2)
                        /\ length m = Z.to_nat 2
                        /\ NoDup (map fst m))
              (task_impacts c).
Proof.
  do 2 eexists. split; [vm_compute; reflexivity|].
  refine (build_impact_keys
            (RS := tape_source)
            (Xor (Sequential (Task "a") (Task "b")) (Task "c"))
            (1 # 2) (3, 7)%Z 2 "random" 0 _ 11 _).
  vm_compute; reflexivity.
Defined.

Lemma build_none_for_empty_region_witness :
  exists c g',
    build (RS := tape_source) (Xor (Xor (Task "a") Region) (Task "b"))
          (1 # 2) (3, 7)%Z 2 "random" 0 = Ok (c, g')
    /\ mirrors (Xor (Xor (Task "a") Region) (Task "b")) c
    /\ none_count c = region_count (Xor (Xor (Task "a") Region) (Task "b"))
    /\ (well_formed (Xor (Xor (Task "a") Region) (Task "b")) = true
        <-> none_count c = 0).
Proof.
  do 2 eexists. split; [vm_compute; reflexivity|].
  refine (build_none_for_empty_region
            (RS := tape_source)
            (Xor (Xor (Task "a") Region) (Task "b"))
            (1 # 2) (3, 7)%Z 2 "random" 0 _ 9 _).
  vm_compute; reflexivity.
Defined.

Lemma process_to_dot_writes_or_raises_witness :
  natures_have_probability
    (XorDict nature_type 0 (TaskDict 1 4 []) (TaskDict 2 5 []) (Some (1 # 2)))
  /\ ((none_count
         (XorDict nature_type 0 (TaskDict 1 4 []) (TaskDict 2 5 [])
                  (Some (1 # 2))) = 0
       /\ exists lines,
           dot_lines_of (fun _ => "0.5")
             (XorDict nature_type 0 (TaskDict 1 4 []) (TaskDict 2 5 [])
                      (Some (1 # 2))) = inr lines
           /\ process_to_dot (fun _ => "0.5")
                (XorDict nature_type 0 (TaskDict 1 4 []) (TaskDict 2 5 [])
                         (Some (1 # 2))) = inr (join newline lines)
           /\ length lines
              = 2 * length (nodes (XorDict nature_type 0 (TaskDict 1 4 [])
                                           (TaskDict 2 5 []) (Some (1 # 2))))
                + 2)
      \/ (0 < none_count
                (XorDict nature_type 0 (TaskDict 1 4 []) (TaskDict 2 5 [])
                         (Some (1 # 2)))
          /\ process_to_dot (fun _ => "0.5")
               (XorDict nature_type 0 (TaskDict 1 4 []) (TaskDict 2 5 [])
                        (Some (1 # 2))) = inl TypeError)).
Proof.
  assert (H : natures_have_probability
                (XorDict nature_type 0 (TaskDict 1 4 []) (TaskDict 2 5 [])
                         (Some (1 # 2))))
    by (unfold natures_have_probability; simpl;
        repeat constructor; simpl; discriminate).
  split; [exact H|].
  exact (process_to_dot_writes_or_raises (fun _ => "0.5") _ H).
Defined.

Lemma process_to_dot_of_build_witness :
  exists c g',
    build (RS := tape_source) (Xor (Task "a") (Task "b"))
          (1 # 2) (3, 7)%Z 1 "random" 0 = Ok (c, g')
    /\ ((well_formed (Xor (Task "a") (Task "b")) = true
         /\ exists lines,
             process_to_dot (fun _ => "0.5") c = inr (join newline lines)
             /\ length lines = 2 * node_count (Xor (Task "a") (Task "b")) + 2)
        \/ (well_formed (Xor (Task "a") (Task "b")) = false
            /\ process_to_dot (fun _ => "0.5") c = inl TypeError)).
Proof.
  do 2 eexists. split; [vm_compute; reflexivity|].
  refine (process_to_dot_of_build
            (RS := tape_source) (fun _ => "0.5")
            (Xor (Task "a") (Task "b"))
            (1 # 2) (3, 7)%Z 1 "random" 0 _ 5 _).
  vm_compute; reflexivity.
Defined.

Lemma get_process_from_file_stripped_witness :
  get_process_from_file
    (fun _ => Some [("a,b" ++ newline)%string; ("  c^d " ++ newline)%string])
    1 1 2 = inr "c^d"
  /\ ((forall c rest, "c^d" = String c rest -> py_isspace c = false)
      /\ (forall r c, "c^d" = (r ++ String c "")%string ->
                      py_isspace c = false)).
Proof.
  split; [reflexivity|].
  apply (get_process_from_file_stripped
           (fun _ => Some [("a,b" ++ newline)%string;
                           ("  c^d " ++ newline)%string]) 1 1 2).
  reflexivity.
Defined.

Lemma generate_vector_bagging_remove_reverse_divide_witness :
  (0 <= 3)%Z
  /\ left_nonzero [0; 0; 0]%Z [1 # 2; 1 # 2; 1 # 2]%Q = [1; 2]
  /\ generate_vector (RS := first_source) 3 "bagging_remove_reverse_divide"
                     tt
     = Ok ([0; divided (RS := first_source) 3 (1 # 2); 1 # 2]%Q, tt)
  /\ exists base g1 indexes g2 divide_indexes g3 v,
      np_random (RS := first_source) 3 tt = Ok (base, g1)
      /\ repeatM (Z.to_nat 3) (randint (RS := first_source) 0 (3 - 1)) g1
         = Ok (indexes, g2)
      /\ match left_nonzero indexes base with
         | [] => divide_indexes = [] /\ g3 = g2
         | _ :: _ =>
             repeatM (Z.to_nat 3) (choice (RS := first_source)
                                       (left_nonzero indexes base)) g2
             = Ok (divide_indexes, g3)
         end
      /\ Forall (fun i => In i (left_nonzero indexes base)) divide_indexes
      /\ generate_vector (RS := first_source) 3
                         "bagging_remove_reverse_divide" tt = Ok (v, g3)
      /\ length v = Z.to_nat 3
      /\ forall k, k < Z.to_nat 3 ->
                   nth k v 0%Q
                   = if picked indexes k then 0%Q
                     else divided (RS := first_source)
                                  (times_chosen divide_indexes k)
                                  (nth k base 0%Q).
Proof.
  split; [lia|]. split; [reflexivity|]. split; [reflexivity|].
  apply (generate_vector_bagging_remove_reverse_divide
           (RS := first_source) 3 tt).
  lia.
Defined.

Lemma combinations_count_is_total_witness :
  (fst (1, 3) <= snd (1, 3) + 1)%Z
  /\ (fst (2, 2) <= snd (2, 2) + 1)%Z
  /\ Z.of_nat (length (combinations (1, 3)%Z (2, 2)%Z [1 # 10; 9 # 10]
                                    ["random"; "bagging_divide"]))
     = total_combinations (1, 3)%Z (2, 2)%Z [1 # 10; 9 # 10]
                          ["random"; "bagging_divide"].
Proof.
  split; [simpl; lia|]. split; [simpl; lia|].
  apply (combinations_count_is_total (1, 3)%Z (2, 2)%Z); simpl; lia.
Defined.

Lemma combinations_inverted_ranges_witness :
  (snd (5, 1) + 1 < fst (5, 1))%Z
  /\ (snd (4, 2) + 1 < fst (4, 2))%Z
  /\ combinations (5, 1)%Z (4, 2)%Z [1 # 2] ["random"] = []
  /\ (0 < total_combinations (5, 1)%Z (4, 2)%Z [1 # 2] ["random"])%Z.
Proof.
  split; [simpl; lia|]. split; [simpl; lia|].
  apply (combinations_inverted_ranges (5, 1)%Z (4, 2)%Z [1 # 2] ["random"]);
    [simpl; lia | simpl; lia | discriminate | discriminate].
Defined.

Lemma combinations_order_witness :
  nth (((1 * Z.to_nat (snd (2, 3)%Z - fst (2, 3)%Z + 1) + 1)
        * length [1 # 10; 9 # 10] + 0)
       * length ["random"; "bagging_divide"] + 1)
      (combinations (1, 3)%Z (2, 3)%Z [1 # 10; 9 # 10]
                    ["random"; "bagging_divide"])
      (0%Z, 0%Z, 0%Q, "")
  = ((fst (1, 3)%Z + Z.of_nat 1)%Z, (fst (2, 3)%Z + Z.of_nat 1)%Z,
     nth 0 [1 # 10; 9 # 10] 0%Q, nth 1 ["random"; "bagging_divide"] "").
Proof.
  apply (combinations_order (1, 3)%Z (2, 3)%Z [1 # 10; 9 # 10]
                            ["random"; "bagging_divide"] 1 1 0 1);
    simpl; lia.
Defined.

Lemma bundle_item_blank_line_witness :
  (1 <= 2 <= Z.of_nat (length [("a,b" ++ newline)%string; newline]))%Z
  /\ forallb py_isspace
             (list_ascii_of_string
                (nth (Z.to_nat (2 - 1))
                     [("a,b" ++ newline)%string; newline] "")) = true
  /\ translate_to_cpi (RS := tape_source) "" (1 # 2) (7, 3)%Z (-1) "random" 5
  = Ok (PyNone, 5)
  /\ bundle_item (RS := tape_source)
                 (fun _ => Some [("a,b" ++ newline)%string; newline])
                 1 1 (7, 3)%Z (2%Z, (-1)%Z, 1 # 2, "random") 5
     = inl NoItemAssignment.
Proof.
  split; [simpl; lia|]. split; [reflexivity|].
  apply (bundle_item_blank_line
           (RS := tape_source)
           (fun _ => Some [("a,b" ++ newline)%string; newline])
           1 1 (7, 3)%Z 2 (-1) (1 # 2) "random" 5
           [("a,b" ++ newline)%string; newline]);
    [reflexivity | simpl; lia | reflexivity].
Defined.

Lemma parse_parenthesized_witness :
  parse "a ^ b, c" = Ok (Xor (Task "a") (Sequential (Task "b") (Task "c")))
  /\ parse ("(" ++ "a ^ b, c" ++ ")")
     = Ok (Xor (Task "a") (Sequential (Task "b") (Task "c"))).
Proof.
  split; [reflexivity|].
  apply (parse_parenthesized "a ^ b, c"). reflexivity.
Defined.
